(** * Root config: module-format detection, script loading and toggle reconciliation

    A shallow embedding of [src/org-root-config.ts] and of the disabled-mode
    reader of [src/root-config-shell-ui.ts].  Promise chains are run to
    completion inside a state-and-outcome monad over an explicit [World];
    the network, the script load events and the dynamic imports are scripted
    in the [World] so that every definition evaluates on concrete inputs. *)

From Stdlib Require Import ZArith Ascii String List Bool Lia.
From Stdlib Require OrderedTypeEx.
From stdpp Require Import base tactics option list strings gmap pretty sorting.

Local Open Scope string_scope.

(** ** JavaScript values *)

(** Values that [JSON.parse] can produce.  [undefined] is the [None] of an
    [option JSON].  Numbers are carried as integers: the code tests their
    type and their truthiness, takes the difference of timestamps and, for
    the build id, their text, which is left to the platform
    ([Number_toString]).  A document with a fractional number has no value
    here. *)
#[warnings="-register-all"]
Inductive JSON : Type :=
| JNull
| JBool (b : bool)
| JNum (n : Z)
| JStr (s : string)
| JArr (items : list JSON)
| JObj (fields : list (string * JSON)).

(** [!!v] *)
Definition truthy (v : option JSON) : bool :=
  match v with
  | None | Some JNull => false
  | Some (JBool b) => b
  | Some (JNum n) => negb (n =? 0)%Z
  | Some (JStr s) => negb (String.eqb s "")
  | Some (JArr _) | Some (JObj _) => true
  end.

(** [typeof v === "object"] *)
Definition typeof_object (v : option JSON) : bool :=
  match v with
  | Some JNull | Some (JArr _) | Some (JObj _) => true
  | _ => false
  end.

(** [v === null] *)
Definition is_null (v : option JSON) : bool :=
  match v with Some JNull => true | _ => false end.

(** [Array.isArray(v)] *)
Definition Array_isArray (v : option JSON) : bool :=
  match v with Some (JArr _) => true | _ => false end.

(** A JS object used as a record: own properties in insertion order.
    [obj_get] reads an own property; [obj_set] defines one, in place when
    the key exists and at the end otherwise; [obj_spread] copies the own
    properties of [b] over those of [a].  This is what JS does for keys
    that are neither [__proto__] nor array indices; the assignment
    [o[k] = v] with its two special cases is [obj_assign] below. *)
Fixpoint obj_get {V} (k : string) (o : list (string * V)) : option V :=
  match o with
  | [] => None
  | (k', v) :: o' => if String.eqb k k' then Some v else obj_get k o'
  end.

Fixpoint obj_set {V} (k : string) (v : V) (o : list (string * V)) : list (string * V) :=
  match o with
  | [] => [(k, v)]
  | (k', v') :: o' =>
      if String.eqb k k' then (k, v) :: o' else (k', v') :: obj_set k v o'
  end.

(** [{...a, ...b}] *)
Definition obj_spread {V} (a b : list (string * V)) : list (string * V) :=
  foldl (fun acc kv => obj_set kv.1 kv.2 acc) a b.

(** [v.k] for a property read on an arbitrary value. *)
Definition prop (k : string) (v : option JSON) : option JSON :=
  match v with
  | Some (JObj fields) => obj_get k fields
  | _ => None
  end.

(** [Object.entries(v)] for the values that pass a [typeof v === "object"]
    test: objects list their properties, arrays their indices. *)
Definition Object_entries (v : option JSON) : list (string * JSON) :=
  match v with
  | Some (JObj fields) => fields
  | Some (JArr items) => imap (fun i x => (pretty (Z.of_nat i), x)) items
  | _ => []
  end.

(** [list.filter((name) => typeof name === "string")] *)
Definition filter_strings (l : list JSON) : list string :=
  omap (fun v => match v with JStr s => Some s | _ => None end) l.

(** ** JavaScript [Set<string>]: distinct members in insertion order *)

Definition Set_has (s : list string) (x : string) : bool := bool_decide (x ∈ s).

Definition Set_add (x : string) (s : list string) : list string :=
  if Set_has s x then s else s ++ [x].

(** [new Set(iterable)] *)
Definition Set_from (l : list string) : list string :=
  foldl (fun s x => Set_add x s) [] l.

(** ** Toggle state *)

Inductive DisabledMode := hide | placeholder.

Definition DisabledMode_eqb (a b : DisabledMode) : bool :=
  match a, b with
  | hide, hide | placeholder, placeholder => true
  | _, _ => false
  end.

(** [v === "hide" || v === "placeholder"], with the mode it denotes. *)
Definition as_mode (v : option JSON) : option DisabledMode :=
  match v with
  | Some (JStr s) =>
      if String.eqb s "hide" then Some hide
      else if String.eqb s "placeholder" then Some placeholder
      else None
  | _ => None
  end.

Definition mode_name (m : DisabledMode) : string :=
  match m with hide => "hide" | placeholder => "placeholder" end.

(** [ToggleState["disabledMode"]] *)
Record ModeConfig := {
  mc_default : DisabledMode;
  mc_apps : list (string * DisabledMode)
}.

Record ToggleState := {
  disabled : list string;
  disabledMode : option ModeConfig
}.

(** The JS value of a normalised mode config, as stored on [window] and
    handed to [JSON.stringify]. *)
Definition ModeConfig_value (c : ModeConfig) : JSON :=
  JObj [("default", JStr (mode_name (mc_default c)));
        ("apps", JObj (map (fun kv => (kv.1, JStr (mode_name kv.2))) (mc_apps c)))].

(** The snapshot returned by [readAvailabilityCache]. *)
Record Snapshot := {
  snap_available : list string;
  snap_disabled : list string;
  snap_disabledMode : option ModeConfig
}.

(** ** Module formats, modules and lifecycle handles *)

Inductive ModuleFormat := system | esm | umd | unknown.

Definition ModuleFormat_eqb (a b : ModuleFormat) : bool :=
  match a, b with
  | system, system | esm, esm | umd, umd | unknown, unknown => true
  | _, _ => false
  end.

Inductive Phase := Bootstrap | Mount | Unmount.

Definition phase_name (p : Phase) : string :=
  match p with Bootstrap => "bootstrap" | Mount => "mount" | Unmount => "unmount" end.

(** A lifecycle export of a loaded module: one function or an array of
    functions, each identified by a name. *)
Inductive LifecycleExport :=
| OneFn (f : string)
| ManyFns (fs : list string).

Record Module := {
  mod_bootstrap : option LifecycleExport;
  mod_mount : option LifecycleExport;
  mod_unmount : option LifecycleExport
}.

(** A lifecycle function of a handle given to the layout engine:
    [() => Promise.resolve()] or a timed wrapper around a module function. *)
Inductive LifecycleFn :=
| NoopFn
| TimedFn (appName : string) (phase : Phase) (fn : string).

Inductive Lifecycle :=
| LAbsent
| LOne (f : LifecycleFn)
| LMany (fs : list LifecycleFn).

Record AppHandle := {
  h_bootstrap : Lifecycle;
  h_mount : Lifecycle;
  h_unmount : Lifecycle
}.

(** ** The browser as seen by the root config *)

Record Response := {
  status : Z;
  opaque : bool;          (* [res.type === "opaque"] *)
  body : option string    (* [None]: reading the body rejects *)
}.

(** [res.ok] *)
Definition ok (r : Response) : bool := (200 <=? status r)%Z && (status r <=? 299)%Z.

Inductive Request :=
| ReqFetch (url : string) (method : string) (range : option string) (timeoutMs : option Z)
| ReqScript (src : string)
| ReqImport (specifier : string)
| ReqSystemImport (specifier : string).

(** What the network answers to a [fetch]: a response, or a rejection
    (connection failure, or the abort issued by a timeout). *)
Inductive FetchOutcome :=
| Answer (r : Response)
| NetworkError.

(** What happens to an inserted script element: its [load] event fires
    after the script defined some globals, or its [error] event fires. *)
Inductive ScriptOutcome :=
| ScriptLoaded (defines : list (string * Module))
| ScriptFailed.

Inductive PromiseState :=
| Pending
| Fulfilled
| RejectedWith (reason : string).

Record ScriptEl := {
  src : string;
  crossOrigin : option string;
  nonce : option string;
  async : bool
}.

Inductive PerfEntry :=
| Mark (name : string)
| Measure (name startMark endMark : string).

Inductive CustomEvent :=
| MfeToggle (detail_disabled : list string) (detail_disabledMode : option ModeConfig)
| MfeAvailability (detail_available : list string).

(** The closure variables of [watchServerToggle]. *)
Record Poller := {
  last : string;
  timer : option Z;       (* delay of the pending [setTimeout(poll, ms)] *)
  inFlight : bool
}.

Record World := {
  (* module-level state of org-root-config.ts *)
  reloadScheduled : bool;
  umdLoads : gmap string nat;
  moduleFormatCache : gmap string ModuleFormat;
  runtimeDisabledApps : list string;
  toggleWatch : option Poller;
  (* window and document *)
  promises : list PromiseState;
  headScripts : list ScriptEl;
  globals : list (string * Module);
  mfeServerDisabled : option (list string);
  mfeDisabledMode : option JSON;
  localStorage : option (gmap string string);     (* [None]: access throws *)
  sessionStorage : option (gmap string string);
  dispatched : list CustomEvent;
  marks : list PerfEntry;
  reloads : nat;                                   (* [window.location.reload()] calls *)
  registered : list string;
  started : bool;
  recheckTimer : option Z;
  (* environment *)
  clock : Z;                                       (* [Date.now()] *)
  hidden : bool;                                   (* [document.hidden] *)
  cspNonce : option string;
  requests : list Request;
  net : list FetchOutcome;
  scriptEvents : list ScriptOutcome;
  importResults : list (option Module)
}.

(** Field updates ([w.f = v]). *)
Definition set_reloadScheduled v (w : World) : World :=
  Build_World v (umdLoads w) (moduleFormatCache w) (runtimeDisabledApps w) (toggleWatch w)
    (promises w) (headScripts w) (globals w) (mfeServerDisabled w) (mfeDisabledMode w)
    (localStorage w) (sessionStorage w) (dispatched w) (marks w) (reloads w) (registered w)
    (started w) (recheckTimer w) (clock w) (hidden w) (cspNonce w) (requests w) (net w)
    (scriptEvents w) (importResults w).
Definition set_umdLoads v (w : World) : World :=
  Build_World (reloadScheduled w) v (moduleFormatCache w) (runtimeDisabledApps w)
    (toggleWatch w) (promises w) (headScripts w) (globals w) (mfeServerDisabled w)
    (mfeDisabledMode w) (localStorage w) (sessionStorage w) (dispatched w) (marks w)
    (reloads w) (registered w) (started w) (recheckTimer w) (clock w) (hidden w) (cspNonce w)
    (requests w) (net w) (scriptEvents w) (importResults w).
Definition set_moduleFormatCache v (w : World) : World :=
  Build_World (reloadScheduled w) (umdLoads w) v (runtimeDisabledApps w) (toggleWatch w)
    (promises w) (headScripts w) (globals w) (mfeServerDisabled w) (mfeDisabledMode w)
    (localStorage w) (sessionStorage w) (dispatched w) (marks w) (reloads w) (registered w)
    (started w) (recheckTimer w) (clock w) (hidden w) (cspNonce w) (requests w) (net w)
    (scriptEvents w) (importResults w).
Definition set_runtimeDisabledApps v (w : World) : World :=
  Build_World (reloadScheduled w) (umdLoads w) (moduleFormatCache w) v (toggleWatch w)
    (promises w) (headScripts w) (globals w) (mfeServerDisabled w) (mfeDisabledMode w)
    (localStorage w) (sessionStorage w) (dispatched w) (marks w) (reloads w) (registered w)
    (started w) (recheckTimer w) (clock w) (hidden w) (cspNonce w) (requests w) (net w)
    (scriptEvents w) (importResults w).
Definition set_toggleWatch v (w : World) : World :=
  Build_World (reloadScheduled w) (umdLoads w) (moduleFormatCache w) (runtimeDisabledApps w) v
    (promises w) (headScripts w) (globals w) (mfeServerDisabled w) (mfeDisabledMode w)
    (localStorage w) (sessionStorage w) (dispatched w) (marks w) (reloads w) (registered w)
    (started w) (recheckTimer w) (clock w) (hidden w) (cspNonce w) (requests w) (net w)
    (scriptEvents w) (importResults w).
Definition set_promises v (w : World) : World :=
  Build_World (reloadScheduled w) (umdLoads w) (moduleFormatCache w) (runtimeDisabledApps w)
    (toggleWatch w) v (headScripts w) (globals w) (mfeServerDisabled w) (mfeDisabledMode w)
    (localStorage w) (sessionStorage w) (dispatched w) (marks w) (reloads w) (registered w)
    (started w) (recheckTimer w) (clock w) (hidden w) (cspNonce w) (requests w) (net w)
    (scriptEvents w) (importResults w).
Definition set_headScripts v (w : World) : World :=
  Build_World (reloadScheduled w) (umdLoads w) (moduleFormatCache w) (runtimeDisabledApps w)
    (toggleWatch w) (promises w) v (globals w) (mfeServerDisabled w) (mfeDisabledMode w)
    (localStorage w) (sessionStorage w) (dispatched w) (marks w) (reloads w) (registered w)
    (started w) (recheckTimer w) (clock w) (hidden w) (cspNonce w) (requests w) (net w)
    (scriptEvents w) (importResults w).
Definition set_globals v (w : World) : World :=
  Build_World (reloadScheduled w) (umdLoads w) (moduleFormatCache w) (runtimeDisabledApps w)
    (toggleWatch w) (promises w) (headScripts w) v (mfeServerDisabled w) (mfeDisabledMode w)
    (localStorage w) (sessionStorage w) (dispatched w) (marks w) (reloads w) (registered w)
    (started w) (recheckTimer w) (clock w) (hidden w) (cspNonce w) (requests w) (net w)
    (scriptEvents w) (importResults w).
Definition set_mfeServerDisabled v (w : World) : World :=
  Build_World (reloadScheduled w) (umdLoads w) (moduleFormatCache w) (runtimeDisabledApps w)
    (toggleWatch w) (promises w) (headScripts w) (globals w) v (mfeDisabledMode w)
    (localStorage w) (sessionStorage w) (dispatched w) (marks w) (reloads w) (registered w)
    (started w) (recheckTimer w) (clock w) (hidden w) (cspNonce w) (requests w) (net w)
    (scriptEvents w) (importResults w).
Definition set_mfeDisabledMode v (w : World) : World :=
  Build_World (reloadScheduled w) (umdLoads w) (moduleFormatCache w) (runtimeDisabledApps w)
    (toggleWatch w) (promises w) (headScripts w) (globals w) (mfeServerDisabled w) v
    (localStorage w) (sessionStorage w) (dispatched w) (marks w) (reloads w) (registered w)
    (started w) (recheckTimer w) (clock w) (hidden w) (cspNonce w) (requests w) (net w)
    (scriptEvents w) (importResults w).
Definition set_localStorage v (w : World) : World :=
  Build_World (reloadScheduled w) (umdLoads w) (moduleFormatCache w) (runtimeDisabledApps w)
    (toggleWatch w) (promises w) (headScripts w) (globals w) (mfeServerDisabled w)
    (mfeDisabledMode w) v (sessionStorage w) (dispatched w) (marks w) (reloads w)
    (registered w) (started w) (recheckTimer w) (clock w) (hidden w) (cspNonce w) (requests w)
    (net w) (scriptEvents w) (importResults w).
Definition set_sessionStorage v (w : World) : World :=
  Build_World (reloadScheduled w) (umdLoads w) (moduleFormatCache w) (runtimeDisabledApps w)
    (toggleWatch w) (promises w) (headScripts w) (globals w) (mfeServerDisabled w)
    (mfeDisabledMode w) (localStorage w) v (dispatched w) (marks w) (reloads w) (registered w)
    (started w) (recheckTimer w) (clock w) (hidden w) (cspNonce w) (requests w) (net w)
    (scriptEvents w) (importResults w).
Definition set_dispatched v (w : World) : World :=
  Build_World (reloadScheduled w) (umdLoads w) (moduleFormatCache w) (runtimeDisabledApps w)
    (toggleWatch w) (promises w) (headScripts w) (globals w) (mfeServerDisabled w)
    (mfeDisabledMode w) (localStorage w) (sessionStorage w) v (marks w) (reloads w)
    (registered w) (started w) (recheckTimer w) (clock w) (hidden w) (cspNonce w) (requests w)
    (net w) (scriptEvents w) (importResults w).
Definition set_marks v (w : World) : World :=
  Build_World (reloadScheduled w) (umdLoads w) (moduleFormatCache w) (runtimeDisabledApps w)
    (toggleWatch w) (promises w) (headScripts w) (globals w) (mfeServerDisabled w)
    (mfeDisabledMode w) (localStorage w) (sessionStorage w) (dispatched w) v (reloads w)
    (registered w) (started w) (recheckTimer w) (clock w) (hidden w) (cspNonce w) (requests w)
    (net w) (scriptEvents w) (importResults w).
Definition set_reloads v (w : World) : World :=
  Build_World (reloadScheduled w) (umdLoads w) (moduleFormatCache w) (runtimeDisabledApps w)
    (toggleWatch w) (promises w) (headScripts w) (globals w) (mfeServerDisabled w)
    (mfeDisabledMode w) (localStorage w) (sessionStorage w) (dispatched w) (marks w) v
    (registered w) (started w) (recheckTimer w) (clock w) (hidden w) (cspNonce w) (requests w)
    (net w) (scriptEvents w) (importResults w).
Definition set_registered v (w : World) : World :=
  Build_World (reloadScheduled w) (umdLoads w) (moduleFormatCache w) (runtimeDisabledApps w)
    (toggleWatch w) (promises w) (headScripts w) (globals w) (mfeServerDisabled w)
    (mfeDisabledMode w) (localStorage w) (sessionStorage w) (dispatched w) (marks w)
    (reloads w) v (started w) (recheckTimer w) (clock w) (hidden w) (cspNonce w) (requests w)
    (net w) (scriptEvents w) (importResults w).
Definition set_started v (w : World) : World :=
  Build_World (reloadScheduled w) (umdLoads w) (moduleFormatCache w) (runtimeDisabledApps w)
    (toggleWatch w) (promises w) (headScripts w) (globals w) (mfeServerDisabled w)
    (mfeDisabledMode w) (localStorage w) (sessionStorage w) (dispatched w) (marks w)
    (reloads w) (registered w) v (recheckTimer w) (clock w) (hidden w) (cspNonce w)
    (requests w) (net w) (scriptEvents w) (importResults w).
Definition set_recheckTimer v (w : World) : World :=
  Build_World (reloadScheduled w) (umdLoads w) (moduleFormatCache w) (runtimeDisabledApps w)
    (toggleWatch w) (promises w) (headScripts w) (globals w) (mfeServerDisabled w)
    (mfeDisabledMode w) (localStorage w) (sessionStorage w) (dispatched w) (marks w)
    (reloads w) (registered w) (started w) v (clock w) (hidden w) (cspNonce w) (requests w)
    (net w) (scriptEvents w) (importResults w).
Definition set_clock v (w : World) : World :=
  Build_World (reloadScheduled w) (umdLoads w) (moduleFormatCache w) (runtimeDisabledApps w)
    (toggleWatch w) (promises w) (headScripts w) (globals w) (mfeServerDisabled w)
    (mfeDisabledMode w) (localStorage w) (sessionStorage w) (dispatched w) (marks w)
    (reloads w) (registered w) (started w) (recheckTimer w) v (hidden w) (cspNonce w)
    (requests w) (net w) (scriptEvents w) (importResults w).
Definition set_hidden v (w : World) : World :=
  Build_World (reloadScheduled w) (umdLoads w) (moduleFormatCache w) (runtimeDisabledApps w)
    (toggleWatch w) (promises w) (headScripts w) (globals w) (mfeServerDisabled w)
    (mfeDisabledMode w) (localStorage w) (sessionStorage w) (dispatched w) (marks w)
    (reloads w) (registered w) (started w) (recheckTimer w) (clock w) v (cspNonce w)
    (requests w) (net w) (scriptEvents w) (importResults w).
Definition set_cspNonce v (w : World) : World :=
  Build_World (reloadScheduled w) (umdLoads w) (moduleFormatCache w) (runtimeDisabledApps w)
    (toggleWatch w) (promises w) (headScripts w) (globals w) (mfeServerDisabled w)
    (mfeDisabledMode w) (localStorage w) (sessionStorage w) (dispatched w) (marks w)
    (reloads w) (registered w) (started w) (recheckTimer w) (clock w) (hidden w) v
    (requests w) (net w) (scriptEvents w) (importResults w).
Definition set_requests v (w : World) : World :=
  Build_World (reloadScheduled w) (umdLoads w) (moduleFormatCache w) (runtimeDisabledApps w)
    (toggleWatch w) (promises w) (headScripts w) (globals w) (mfeServerDisabled w)
    (mfeDisabledMode w) (localStorage w) (sessionStorage w) (dispatched w) (marks w)
    (reloads w) (registered w) (started w) (recheckTimer w) (clock w) (hidden w) (cspNonce w)
    v (net w) (scriptEvents w) (importResults w).
Definition set_net v (w : World) : World :=
  Build_World (reloadScheduled w) (umdLoads w) (moduleFormatCache w) (runtimeDisabledApps w)
    (toggleWatch w) (promises w) (headScripts w) (globals w) (mfeServerDisabled w)
    (mfeDisabledMode w) (localStorage w) (sessionStorage w) (dispatched w) (marks w)
    (reloads w) (registered w) (started w) (recheckTimer w) (clock w) (hidden w) (cspNonce w)
    (requests w) v (scriptEvents w) (importResults w).
Definition set_scriptEvents v (w : World) : World :=
  Build_World (reloadScheduled w) (umdLoads w) (moduleFormatCache w) (runtimeDisabledApps w)
    (toggleWatch w) (promises w) (headScripts w) (globals w) (mfeServerDisabled w)
    (mfeDisabledMode w) (localStorage w) (sessionStorage w) (dispatched w) (marks w)
    (reloads w) (registered w) (started w) (recheckTimer w) (clock w) (hidden w) (cspNonce w)
    (requests w) (net w) v (importResults w).
Definition set_importResults v (w : World) : World :=
  Build_World (reloadScheduled w) (umdLoads w) (moduleFormatCache w) (runtimeDisabledApps w)
    (toggleWatch w) (promises w) (headScripts w) (globals w) (mfeServerDisabled w)
    (mfeDisabledMode w) (localStorage w) (sessionStorage w) (dispatched w) (marks w)
    (reloads w) (registered w) (started w) (recheckTimer w) (clock w) (hidden w) (cspNonce w)
    (requests w) (net w) (scriptEvents w) v.

(** A freshly loaded page: empty caches, empty storage, nothing scripted. *)
Definition fresh_page : World :=
  {| reloadScheduled := false; umdLoads := ∅; moduleFormatCache := ∅;
     runtimeDisabledApps := []; toggleWatch := None; promises := [];
     headScripts := []; globals := []; mfeServerDisabled := None;
     mfeDisabledMode := None; localStorage := Some ∅; sessionStorage := Some ∅;
     dispatched := []; marks := []; reloads := 0; registered := []; started := false;
     recheckTimer := None; clock := 0; hidden := false; cspNonce := None;
     requests := []; net := []; scriptEvents := []; importResults := [] |}.

(** ** Promise chains, run to completion *)

Inductive Settled (A : Type) :=
| Resolved (a : A)
| Rejected (reason : string).
Arguments Resolved {A} a.
Arguments Rejected {A} reason.

Definition Async (A : Type) : Type := World -> Settled A * World.

(** [Promise.resolve(a)] *)
Definition resolve {A} (a : A) : Async A := fun w => (Resolved a, w).

(** [Promise.reject(new Error(reason))], or a [throw] inside a callback. *)
Definition reject {A} (reason : string) : Async A := fun w => (Rejected reason, w).

(** [p.then(f)] *)
Definition andThen {A B} (p : Async A) (f : A -> Async B) : Async B :=
  fun w =>
    match p w with
    | (Resolved a, w') => f a w'
    | (Rejected e, w') => (Rejected e, w')
    end.

(** [p.catch(h)] *)
Definition catch {A} (p : Async A) (h : string -> Async A) : Async A :=
  fun w =>
    match p w with
    | (Resolved a, w') => (Resolved a, w')
    | (Rejected e, w') => h e w'
    end.

(** [p.finally(k)] for a callback [k] that does not throw. *)
Definition finally {A} (p : Async A) (k : World -> World) : Async A :=
  fun w => let (r, w') := p w in (r, k w').

(** A synchronous statement. *)
Definition effect (k : World -> World) : Async unit := fun w => (Resolved tt, k w).

(** A synchronous read of the state. *)
Definition peek {A} (f : World -> A) : Async A := fun w => (Resolved (f w), w).

Notation "'let*' x ':=' p 'in' q" := (andThen p (fun x => q))
  (at level 10, x name, p at level 100, q at level 200).

(** [Promise.all(ps)] over promises started in list order. *)
Fixpoint all {A} (ps : list (Async A)) : Async (list A) :=
  match ps with
  | [] => resolve []
  | p :: ps' => let* a := p in let* rest := all ps' in resolve (a :: rest)
  end.

(** ** Source text and regular expressions

    Source text is a [string] of code units below 256.  A JS regular
    expression without back-references or look-around matches exactly the
    words of a regular language, so [RegExp.prototype.test] is language
    membership of some prefix (anchored) or some factor (unanchored); it is
    decided here with derivatives. *)

Inductive regex :=
| Void
| Eps
| Chr (p : ascii -> bool)
| Cat (r s : regex)
| Alt (r s : regex)
| Star (r : regex).

Fixpoint nullable (r : regex) : bool :=
  match r with
  | Void => false
  | Eps => true
  | Chr _ => false
  | Cat r s => nullable r && nullable s
  | Alt r s => nullable r || nullable s
  | Star _ => true
  end.

(** Constructors that drop dead branches, to keep derivatives small. *)
Definition cat (r s : regex) : regex :=
  match r, s with
  | Void, _ => Void
  | _, Void => Void
  | Eps, _ => s
  | _, _ => Cat r s
  end.

Definition alt (r s : regex) : regex :=
  match r, s with
  | Void, _ => s
  | _, Void => r
  | _, _ => Alt r s
  end.

Fixpoint deriv (c : ascii) (r : regex) : regex :=
  match r with
  | Void => Void
  | Eps => Void
  | Chr p => if p c then Eps else Void
  | Cat r s =>
      if nullable r then alt (cat (deriv c r) s) (deriv c s)
      else cat (deriv c r) s
  | Alt r s => alt (deriv c r) (deriv c s)
  | Star r => cat (deriv c r) (Star r)
  end.

Fixpoint accepts (r : regex) (s : list ascii) : bool :=
  match s with
  | [] => nullable r
  | c :: s' => accepts (deriv c r) s'
  end.

(** The language of a regular expression. *)
Inductive lang : regex -> list ascii -> Prop :=
| lang_eps : lang Eps []
| lang_chr p c : p c = true -> lang (Chr p) [c]
| lang_cat r s u v : lang r u -> lang s v -> lang (Cat r s) (u ++ v)
| lang_alt_l r s u : lang r u -> lang (Alt r s) u
| lang_alt_r r s u : lang s u -> lang (Alt r s) u
| lang_star_nil r : lang (Star r) []
| lang_star_cons r u v : lang r u -> lang (Star r) v -> lang (Star r) (u ++ v).

Definition any_char : regex := Chr (fun _ => true).

(** The characters of a literal, in sequence. *)
Fixpoint lit_chars (s : list ascii) : regex :=
  match s with
  | [] => Eps
  | c :: s' => Cat (Chr (Ascii.eqb c)) (lit_chars s')
  end.

Definition lit (s : string) : regex := lit_chars (list_ascii_of_string s).

(** [?] *)
Definition opt (r : regex) : regex := Alt r Eps.

(** [\s] on code units below 256: TAB, LF, VT, FF, CR, space, NBSP. *)
Definition is_space (c : ascii) : bool :=
  let n := nat_of_ascii c in
  ((9 <=? n) && (n <=? 13))%nat || (n =? 32)%nat || (n =? 160)%nat.

(** Line terminators below 256: LF and CR. *)
Definition is_line_terminator (c : ascii) : bool :=
  let n := nat_of_ascii c in (n =? 10)%nat || (n =? 13)%nat.

Definition newline : ascii := ascii_of_nat 10.
Definition dquote : ascii := ascii_of_nat 34.

Definition space : regex := Chr is_space.

(** [/^r/.test(s)]: some prefix of [s] matches [r]. *)
Definition test_at_start (r : regex) (s : string) : bool :=
  accepts (Cat r (Star any_char)) (list_ascii_of_string s).

(** [/r/.test(s)]: some factor of [s] matches [r]. *)
Definition test (r : regex) (s : string) : bool :=
  accepts (Cat (Star any_char) (Cat r (Star any_char))) (list_ascii_of_string s).

(** [/^r/m.test(s)]: [r] matches at the start of [s] or right after a line
    terminator. *)
Definition test_at_line_start (r : regex) (s : string) : bool :=
  accepts
    (Cat (Alt Eps (Cat (Star any_char) (Chr is_line_terminator)))
         (Cat r (Star any_char)))
    (list_ascii_of_string s).

Fixpoint is_prefix (p s : list ascii) : bool :=
  match p, s with
  | [], _ => true
  | _ :: _, [] => false
  | a :: p', b :: s' => Ascii.eqb a b && is_prefix p' s'
  end.

Fixpoint includes_chars (needle hay : list ascii) : bool :=
  is_prefix needle hay ||
  match hay with
  | [] => false
  | _ :: hay' => includes_chars needle hay'
  end.

(** [hay.includes(needle)] *)
Definition includes (hay needle : string) : bool :=
  includes_chars (list_ascii_of_string needle) (list_ascii_of_string hay).

(** [s.slice(0, n)] *)
Definition slice_first (n : Z) (s : string) : string :=
  string_of_list_ascii (take (Z.to_nat n) (list_ascii_of_string s)).

(** [s.slice(-n)] *)
Definition slice_last (n : Z) (s : string) : string :=
  let l := list_ascii_of_string s in
  string_of_list_ascii (drop (length l - Z.to_nat n) l).

(** The pieces of the [hasSystemRegister] pattern of [analyzeSource]:
    at the start of the text, white space, then any number of line comments
    (two slashes up to a line feed) or block comments (slash-star up to a
    star-slash), each followed by white space, then optionally the
    double-quoted use-strict directive with its semicolon and white space,
    then the literal [System.register] with its opening parenthesis. *)
Definition line_comment : regex :=
  Cat (lit "//")
      (Cat (Star (Chr (fun c => negb (Ascii.eqb c newline)))) (Chr (Ascii.eqb newline))).

Definition block_comment : regex :=
  Cat (lit "/*") (Cat (Star any_char) (lit "*/")).

Definition use_strict : string :=
  String dquote ("use strict" ++ String dquote ";").

Definition system_register_preamble : regex :=
  Cat (Star space)
      (Cat (Star (Cat (Alt line_comment block_comment) (Star space)))
           (Cat (opt (Cat (lit use_strict) (Star space)))
                (lit "System.register("))).

(** The pattern of the ESM test, without its multi-line anchor: white
    space, [import] or [export], one white-space character. *)
Definition esm_statement : regex :=
  Cat (Star space) (Cat (Alt (lit "import") (lit "export")) space).

(** What may stand before the registration call: white space, comments
    each followed by white space, and the use-strict directive. *)
Inductive Comment :=
| LineComment (text : list ascii)
| BlockComment (text : list ascii).

Definition comment_chars (c : Comment) : list ascii :=
  match c with
  | LineComment t => (list_ascii_of_string "//" ++ t ++ [newline])%list
  | BlockComment t => (list_ascii_of_string "/*" ++ t ++ list_ascii_of_string "*/")%list
  end.

(** A line comment ends at the first line feed. *)
Definition comment_ok (c : Comment) : Prop :=
  match c with
  | LineComment t => Forall (fun a => Ascii.eqb a newline = false) t
  | BlockComment _ => True
  end.

Record Preamble := {
  pre_space : list ascii;
  pre_comments : list (Comment * list ascii);
  pre_strict : option (list ascii)
}.

Definition preamble_chars (p : Preamble) : list ascii :=
  (pre_space p
   ++ concat (map (fun cw => comment_chars cw.1 ++ cw.2) (pre_comments p))
   ++ match pre_strict p with
      | Some ws => list_ascii_of_string use_strict ++ ws
      | None => []
      end)%list.

Definition preamble_ok (p : Preamble) : Prop :=
  Forall (fun a => is_space a = true) (pre_space p)
  ∧ Forall (fun cw => comment_ok cw.1 ∧ Forall (fun a => is_space a = true) cw.2)
           (pre_comments p)
  ∧ match pre_strict p with
    | Some ws => Forall (fun a => is_space a = true) ws
    | None => True
    end.

(** [\d] *)
Definition is_digit (c : ascii) : bool :=
  (48 <=? nat_of_ascii c)%nat && (nat_of_ascii c <=? 57)%nat.

Definition digit : regex := Chr is_digit.

(** ** Property assignment on a plain object *)

(** The value of a string of decimal digits. *)
Fixpoint decimal_value (acc : N) (s : string) : option N :=
  match s with
  | EmptyString => Some acc
  | String c s' =>
      if is_digit c
      then decimal_value (10 * acc + N.of_nat (nat_of_ascii c - 48)) s'
      else None
  end.

(** The array index a property key denotes: the key is the decimal writing
    of an integer below 2^32 - 1, without sign and without leading zero.
    JS enumerates the own properties of an object with the array indices
    first, in ascending order, and the other keys after them in the order
    of their creation. *)
Definition array_index (k : string) : option N :=
  match k with
  | EmptyString => None
  | String _ _ =>
      match decimal_value 0 k with
      | Some n => if String.eqb (pretty n) k && (n <? 4294967295)%N then Some n else None
      | None => None
      end
  end.

(** Whether a new property [k] is enumerated before the property [k']. *)
Definition key_before (k k' : string) : bool :=
  match array_index k, array_index k' with
  | Some n, Some n' => (n <? n')%N
  | Some _, None => true
  | None, _ => false
  end.

Fixpoint obj_put {V} (k : string) (v : V) (o : list (string * V)) : list (string * V) :=
  match o with
  | [] => [(k, v)]
  | (k', v') :: o' =>
      if String.eqb k k' then (k, v) :: o'
      else if key_before k k' then (k, v) :: (k', v') :: o'
      else (k', v') :: obj_put k v o'
  end.

(** [o[k] = v] for a string [v] on a plain object [o], whose own properties
    are listed as JS enumerates them.  An assignment to [__proto__] reaches
    the setter of [Object.prototype], which ignores a value that is no
    object: no property is created. *)
Definition obj_assign {V} (k : string) (v : V) (o : list (string * V)) : list (string * V) :=
  if String.eqb k "__proto__" then o else obj_put k v o.

(** The names every plain object inherits from [Object.prototype]:
    [name in o] holds for them, and [o[name]] is the inherited value, for
    every plain object [o]. *)
Definition Object_prototype_keys : list string :=
  ["constructor"; "__defineGetter__"; "__defineSetter__"; "hasOwnProperty";
   "__lookupGetter__"; "__lookupSetter__"; "isPrototypeOf"; "propertyIsEnumerable";
   "toString"; "valueOf"; "__proto__"; "toLocaleString"].

(** ** root-config-shell-ui.ts: the disabled-mode reader *)

Module ShellUi.
Section ShellUi.

Variable JSON_parse : string -> option JSON.

Definition DISABLED_MODE_KEY : string := "mfe-disabled-mode".

Record NormalizedMode := {
  default : option DisabledMode;
  apps : list (string * DisabledMode)
}.

(** [normalizeDisabledModeConfig(config)].  The entries are kept with
    [obj_set], in the order of the input.  The source's [apps[key] = value]
    differs for two kinds of keys: it creates no property for an own
    [__proto__] entry of the input, and its object enumerates array indices
    first. *)
Definition normalizeDisabledModeConfig (config : option JSON) : NormalizedMode :=
  if negb (truthy config) then {| default := None; apps := [] |}
  else
    match as_mode config with
    | Some m => {| default := Some m; apps := [] |}
    | None =>
        let apps :=
          if truthy (prop "apps" config) && typeof_object (prop "apps" config)
          then
            foldl (fun apps entry =>
                     match as_mode (Some entry.2) with
                     | Some value => obj_set entry.1 value apps
                     | None => apps
                     end)
                  [] (Object_entries (prop "apps" config))
          else [] in
        let def := as_mode (prop "default" config) in
        {| default := def; apps := apps |}
    end.

(** The [storageConfig] of [readDisabledModeConfig]: the stored override
    when it parses to a mode name or to a plain object, else [null]. *)
Definition storageConfig (w : World) : option JSON :=
  match localStorage w with
  | None => None
  | Some store =>
      match store !! DISABLED_MODE_KEY with
      | None => None
      | Some raw =>
          if String.eqb raw "" then None
          else
            match JSON_parse raw with
            | None => None
            | Some parsed =>
                let parsed := Some parsed in
                if match as_mode parsed with Some _ => true | None => false end
                   || (typeof_object parsed && negb (is_null parsed)
                       && negb (Array_isArray parsed))
                then parsed else None
            end
      end
  end.

Definition readDisabledModeConfig (w : World) : NormalizedMode :=
  let base := normalizeDisabledModeConfig (mfeDisabledMode w) in
  let override := normalizeDisabledModeConfig (storageConfig w) in
  {| default := match default override with
                | Some d => Some d
                | None => default base
                end;
     apps := obj_spread (apps base) (apps override) |}.

(** *** The rest of the disabled-mode configuration *)

Variable JSON_stringify : JSON -> string.

(** [ALWAYS_VISIBLE_APPS] is [new Set<string>()] in the source. *)
Variable ALWAYS_VISIBLE_APPS : list string.

Definition DEFAULT_DISABLED_MODE_BY_APP : list (string * DisabledMode) :=
  [("@org/header-react", placeholder)].

Definition getFallbackDisabledMode (app : string) (defaultMode : option DisabledMode)
  : DisabledMode :=
  match obj_get app DEFAULT_DISABLED_MODE_BY_APP with
  | Some appDefault => appDefault
  | None =>
      match defaultMode with
      | Some d => d
      | None => hide
      end
  end.

Definition apps_value (apps_ : list (string * DisabledMode)) : JSON :=
  JObj (map (fun kv => (kv.1, JStr (mode_name kv.2))) apps_).

(** The JS object [{ default, apps }] of a configuration record.  A
    [default] that is [undefined] is written as an absent property: the
    readers below and [JSON.stringify] treat the two alike. *)
Definition NormalizedMode_value (c : NormalizedMode) : JSON :=
  JObj (match default c with
        | Some d => [("default", JStr (mode_name d))]
        | None => []
        end ++ [("apps", apps_value (apps c))]).

(** [window.localStorage.setItem(key, value)] inside a try/catch that
    ignores storage errors.  Storage is usable or not accessible at all: a
    store that can be read while [setItem] throws (a full quota) is not
    among the states of [World]. *)
Definition setItem (key value : string) (w : World) : World :=
  match localStorage w with
  | Some store => set_localStorage (Some (<[key := value]> store)) w
  | None => w
  end.

(** The object both [writeDisabledModeConfig] and the change test of
    [applyIncomingDisabledModeConfig] serialise: the default, or [hide]
    when there is none, and the per-app modes. *)
Definition stored_value (default_ : option DisabledMode)
    (apps_ : list (string * DisabledMode)) : JSON :=
  JObj [("default", JStr (match default_ with
                          | Some placeholder => "placeholder"
                          | _ => "hide"
                          end));
        ("apps", apps_value apps_)].

Definition writeDisabledModeConfig (config : NormalizedMode) (w : World) : World :=
  let normalized := normalizeDisabledModeConfig (Some (NormalizedMode_value config)) in
  let payload := stored_value (default normalized) (apps normalized) in
  setItem DISABLED_MODE_KEY (JSON_stringify payload) w.

Definition applyIncomingDisabledModeConfig (value : option JSON) (w : World) : World :=
  let normalized :=
    normalizeDisabledModeConfig
      (if (typeof_object value && negb (is_null value) && negb (Array_isArray value))
          || match as_mode value with Some _ => true | None => false end
       then value else None) in
  let current := readDisabledModeConfig w in
  let next :=
    {| default := match default normalized with
                  | Some d => Some d
                  | None => default current
                  end;
       apps := obj_spread (apps current) (apps normalized) |} in
  let currentKey := JSON_stringify (stored_value (default current) (apps current)) in
  let nextKey := JSON_stringify (stored_value (default next) (apps next)) in
  if String.eqb currentKey nextKey then w
  else writeDisabledModeConfig next w.

(** [delete o[k]] *)
Definition obj_delete {V} (k : string) (o : list (string * V)) : list (string * V) :=
  List.filter (fun kv => negb (String.eqb kv.1 k)) o.

(** The [next] object of [applyIncomingDisabledModeForApp] as it is handed
    to [writeDisabledModeConfig]: the current configuration with its
    default filled in and the entry of [app] deleted or assigned. *)
Definition nextDisabledModeForApp (app : string) (mode : DisabledMode)
    (current : NormalizedMode) : NormalizedMode :=
  let next_default :=
    match default current with
    | Some d => d
    | None => hide
    end in
  let fallbackMode := getFallbackDisabledMode app (Some next_default) in
  {| default := Some next_default;
     apps := if DisabledMode_eqb mode fallbackMode
             then obj_delete app (apps current)
             else obj_assign app mode (apps current) |}.

Definition applyIncomingDisabledModeForApp (app mode : option JSON) (w : World) : World :=
  match app with
  | Some (JStr app) =>
      match as_mode mode with
      | None => w
      | Some mode =>
          writeDisabledModeConfig
            (nextDisabledModeForApp app mode (readDisabledModeConfig w)) w
      end
  | _ => w
  end.

(** [resolveDisabledMode(app, el)], with [attr] the [data-disabled-mode]
    attribute of the element. *)
Definition resolveDisabledMode (app : string) (attr : option string) (w : World)
  : DisabledMode :=
  match as_mode (JStr <$> attr) with
  | Some m => m
  | None =>
      let config := readDisabledModeConfig w in
      match obj_get app (apps config) with
      | Some appMode => appMode
      | None => getFallbackDisabledMode app (default config)
      end
  end.

(** *** Disabled lists *)

Definition readDisabled (w : World) : list string :=
  let serverDisabled :=
    match mfeServerDisabled w with
    | Some l => List.filter (fun name => negb (Set_has ALWAYS_VISIBLE_APPS name)) l
    | None => []
    end in
  match localStorage w with
  | None => serverDisabled
  | Some store =>
      let parsed :=
        match store !! "mfe-disabled" with
        | Some raw => if String.eqb raw "" then Some (JArr []) else JSON_parse raw
        | None => Some (JArr [])
        end in
      match parsed with
      | None => serverDisabled
      | Some parsed =>
          let localDisabled :=
            match parsed with
            | JArr l =>
                List.filter (fun name => negb (Set_has ALWAYS_VISIBLE_APPS name))
                  (filter_strings l)
            | _ => []
            end in
          if (length localDisabled =? 0)%nat && (length serverDisabled =? 0)%nat then []
          else Set_from (localDisabled ++ serverDisabled)
      end
  end.

(** *** Trusted message origins *)

(** The pattern of [isTrustedOrigin] between its anchors: [http] or
    [https], the host [localhost] or [127.0.0.1], and optionally a colon
    and one to five digits. *)
Definition port : regex :=
  Cat digit (opt (Cat digit (opt (Cat digit (opt (Cat digit (opt digit))))))).

Definition local_origin : regex :=
  Cat (lit "http")
    (Cat (opt (lit "s"))
       (Cat (lit "://")
          (Cat (Alt (lit "localhost") (lit "127.0.0.1"))
             (opt (Cat (lit ":") port))))).

(** [isTrustedOrigin(origin)], with the origin and the host name of
    [window.location]. *)
Definition isTrustedOrigin (location_origin location_hostname origin : string) : bool :=
  if String.eqb origin location_origin then true
  else
    let isLocal :=
      String.eqb location_hostname "localhost" || String.eqb location_hostname "127.0.0.1" in
    if negb isLocal then false
    else accepts local_origin (list_ascii_of_string origin).

(** *** Hiding and showing the content of an application element *)

(** A child node of an application element: whether it is an
    [HTMLElement], its classes, its [style.display] and its
    [data-prev-display] attribute. *)
Record Child := {
  isHTMLElement : bool;
  classList : list string;
  style_display : string;
  prevDisplay : option string
}.

(** The nodes the shell itself puts into an application element. *)
Definition isShellNode (child : Child) : bool :=
  Set_has (classList child) "app-state-badge"
  || Set_has (classList child) "app-name-badge"
  || Set_has (classList child) "app-maintenance".

Definition hideAppContent (children : list Child) : list Child :=
  map (fun child =>
         if negb (isHTMLElement child) then child
         else if isShellNode child then child
         else
           {| isHTMLElement := isHTMLElement child;
              classList := classList child;
              style_display := "none";
              prevDisplay := match prevDisplay child with
                             | Some prev => Some prev
                             | None => Some (style_display child)
                             end |})
      children.

Definition showAppContent (children : list Child) : list Child :=
  map (fun child =>
         if negb (isHTMLElement child) then child
         else if isShellNode child then child
         else
           {| isHTMLElement := isHTMLElement child;
              classList := classList child;
              style_display := match prevDisplay child with
                               | Some prev => prev
                               | None => ""
                               end;
              prevDisplay := None |})
      children.

(** *** Sign-in locks on application links *)

Definition AUTH_REQUIRED_APPS : list string :=
  ["@org/playground-angular"; "@org/playground-react"; "@org/playground-vue";
   "@org/playground-vanilla"; "@org/playground-svelte"].

(** [el.getAttribute(name) || fallback] *)
Definition attr_or (link : gmap string string) (name fallback : string) : string :=
  match link !! name with
  | Some v => if String.eqb v "" then fallback else v
  | None => fallback
  end.

(** The body of the [appLinks.forEach] of [updateAuthLocks] on the
    attributes of one link; [buildLoginUrl] is the login URL builder. *)
Definition updateAuthLock (buildLoginUrl : string -> string) (locked : bool)
    (link : gmap string string) : gmap string string :=
  let name := attr_or link "data-app-link" "" in
  if String.eqb name "" || negb (Set_has AUTH_REQUIRED_APPS name) then link
  else
    let currentHref := attr_or link "href" "/" in
    if locked then
      let existing := attr_or link "data-auth-return" "" in
      let returnTo := if String.eqb existing "" then currentHref else existing in
      let link :=
        if String.eqb existing "" then <["data-auth-return" := currentHref]> link else link in
      <["title" := "Sign in to access"]>
        (<["aria-disabled" := "true"]>
           (<["data-auth-locked" := "true"]>
              (<["href" := buildLoginUrl returnTo]> link)))
    else
      let original := attr_or link "data-auth-return" "" in
      let link :=
        if String.eqb original "" then link
        else delete "data-auth-return" (<["href" := original]> link) in
      delete "title" (delete "aria-disabled" (delete "data-auth-locked" link)).

(** *** The hidden state of the performance panel *)

Definition PERF_HIDDEN_KEY : string := "mfe-perf-panel-hidden".

(** [readPerfHidden()], with [persist] the [persist] option of the panel
    configuration. *)
Definition readPerfHidden (persist : bool) (w : World) : option bool :=
  if negb persist then None
  else
    match localStorage w with
    | None => None
    | Some store =>
        match store !! PERF_HIDDEN_KEY with
        | Some raw =>
            if String.eqb raw "true" then Some true
            else if String.eqb raw "false" then Some false
            else None
        | None => None
        end
    end.

Definition persistPerfHidden (persist : bool) (hidden_ : bool) (w : World) : World :=
  if negb persist then w
  else
    match localStorage w with
    | None => w
    | Some store =>
        if hidden_ then set_localStorage (Some (<[PERF_HIDDEN_KEY := "true"]> store)) w
        else set_localStorage (Some (delete PERF_HIDDEN_KEY store)) w
    end.

End ShellUi.
End ShellUi.

(** ** A sample environment

    Concrete platform functions and inputs, used to run the model. *)

Module Sample.

Definition quoted (s : string) : string := String dquote (s ++ String dquote "").

Definition join (sep : string) (l : list string) : string :=
  match l with
  | [] => ""
  | x :: rest => fold_left (fun acc y => acc ++ sep ++ y) rest x
  end.

(** A serialiser for values whose strings need no escaping. *)
Fixpoint JSON_stringify (v : JSON) : string :=
  match v with
  | JNull => "null"
  | JBool true => "true"
  | JBool false => "false"
  | JNum n => pretty n
  | JStr s => quoted s
  | JArr items => "[" ++ join "," (List.map JSON_stringify items) ++ "]"
  | JObj fields =>
      "{" ++ join "," (List.map (fun kv => quoted (fst kv) ++ ":" ++ JSON_stringify (snd kv))
                         fields) ++ "}"
  end.

(** The documents the sample parser knows, by their text. *)
Definition documents : list JSON :=
  [JObj [("disabled", JArr [JStr "@org/catalog"])];
   JObj [("disabled", JArr [JNum 7; JStr "@org/catalog"])];
   JObj [("disabled", JArr [])];
   JArr [];
   JNull].

Definition JSON_parse (s : string) : option JSON :=
  List.find (fun v => String.eqb (JSON_stringify v) s) documents.

Definition localeCompare (a b : string) : Z :=
  match String.compare a b with
  | Lt => (-1)%Z
  | Eq => 0%Z
  | Gt => 1%Z
  end.

Definition URL_protocol (url : string) : option string :=
  if String.prefix "http://" url then Some "http:"
  else if String.prefix "https://" url then Some "https:"
  else None.

Definition allApplications : list string :=
  ["@org/header-react"; "@org/catalog"; "@org/profile-vue"].

Definition app_code (fn : string) : Async unit := resolve tt.

Definition answer (status_ : Z) (text_ : string) : FetchOutcome :=
  Answer {| status := status_; opaque := false; body := Some text_ |}.

Definition catalogUrl : string := "http://localhost:9001/org-catalog.js".

(** A page whose toggle request is answered with one disabled name. *)
Definition toggled_page : World :=
  set_net [answer 200 (JSON_stringify (JObj [("disabled", JArr [JStr "@org/catalog"])]))]
    fresh_page.

(** A page whose first request fails and whose second one is answered with
    the start of a legacy-registration bundle. *)
Definition flaky_page : World :=
  set_net [NetworkError; answer 206 "System.register([],function(){});"] fresh_page.

(** A bundle that starts with an import statement and ends with an export. *)
Definition esm_with_leading_import : string :=
  "import a from './a.js';" ++ String newline "export{a};".

Definition leading_import_page : World :=
  set_net [answer 206 (slice_first 8192 esm_with_leading_import);
           answer 200 esm_with_leading_import]
    fresh_page.

(** A bundle whose only ESM marker is the export at its end. *)
Definition esm_with_trailing_export : string := "var a=1;export{a};".

Definition trailing_export_page : World :=
  set_net [answer 206 (slice_first 8192 esm_with_trailing_export);
           answer 200 esm_with_trailing_export]
    fresh_page.

(** A registration call after white space, a comment and the directive. *)
Definition commented_preamble : Preamble :=
  {| pre_space := [" "%char];
     pre_comments := [(BlockComment (list_ascii_of_string " bundle "), [newline])];
     pre_strict := Some [" "%char] |}.

Definition registration_text : string :=
  string_of_list_ascii
    (preamble_chars commented_preamble
     ++ list_ascii_of_string "System.register("
     ++ list_ascii_of_string "[],function(){});")%list.

Definition registration_page : World :=
  set_net [answer 206 registration_text] fresh_page.

Definition two_apps_snapshot : Snapshot :=
  {| snap_available := ["@org/catalog"; "@org/profile-vue"];
     snap_disabled := [];
     snap_disabledMode := None |}.

End Sample.


(** ** Further sample values *)

Module Fixture.

(** A parser that knows one document, by its text. *)
Definition parse_only (doc : JSON) (s : string) : option JSON :=
  if String.eqb s (Sample.JSON_stringify doc) then Some doc else None.

(** A mode configuration with one per-app entry. *)
Definition catalog_hidden : ModeConfig :=
  {| mc_default := placeholder; mc_apps := [("@org/catalog", hide)] |}.

(** The same configuration as the shell keeps it. *)
Definition shell_catalog_hidden : ShellUi.NormalizedMode :=
  {| ShellUi.default := Some placeholder; ShellUi.apps := [("@org/catalog", hide)] |}.

(** A configuration object with its entries out of order, two keys that
    are array indices and one entry that is no mode. *)
Definition unsorted_config : JSON :=
  JObj [("default", JStr "placeholder");
        ("apps", JObj [("@org/profile-vue", JStr "hide");
                       ("@org/legacy", JNum 1);
                       ("10", JStr "hide");
                       ("@org/catalog", JStr "placeholder");
                       ("9", JStr "placeholder")])].

(** Its normal form, as the object lists it: the indices by value, then the
    names in the order of the comparison. *)
Definition sorted_config : ModeConfig :=
  {| mc_default := placeholder;
     mc_apps := [("9", placeholder); ("10", hide);
                 ("@org/catalog", placeholder); ("@org/profile-vue", hide)] |}.

(** A page whose local storage is blocked. *)
Definition blocked_storage_page : World := set_localStorage None fresh_page.

(** The children of an application element: its content, a badge of the
    shell and a text node. *)
Definition card_children : list ShellUi.Child :=
  [{| ShellUi.isHTMLElement := true; ShellUi.classList := ["card-body"];
      ShellUi.style_display := "flex"; ShellUi.prevDisplay := None |};
   {| ShellUi.isHTMLElement := true; ShellUi.classList := ["app-state-badge"];
      ShellUi.style_display := ""; ShellUi.prevDisplay := None |};
   {| ShellUi.isHTMLElement := false; ShellUi.classList := [];
      ShellUi.style_display := ""; ShellUi.prevDisplay := None |}].

(** The attributes of the link to a sign-in-only application. *)
Definition playground_link : gmap string string :=
  <["data-app-link" := "@org/playground-react"]> (<["href" := "/playground-react"]> ∅).

Definition loginUrl (returnTo : string) : string := "/auth/login?returnTo=" ++ returnTo.

(** A module with the three lifecycle functions. *)
Definition profile_module : Module :=
  {| mod_bootstrap := Some (OneFn "bootstrap");
     mod_mount := Some (OneFn "mount");
     mod_unmount := Some (OneFn "unmount") |}.

(** A page on which the first script fails to load and the second one
    loads and defines the global of the profile application. *)
Definition failing_script_page : World :=
  set_scriptEvents [ScriptFailed; ScriptLoaded [("profileVue", profile_module)]] fresh_page.

(** The build file of the auth server. *)
Definition build_document : JSON := JObj [("buildId", JNum 7)].

Definition build_answer : FetchOutcome :=
  Sample.answer 200 (Sample.JSON_stringify build_document).

End Fixture.
(** ** org-root-config.ts *)

Section RootConfig.

(** [ALWAYS_ON_APPS] is [new Set<string>()] in the source; the model is
    stated for any exemption set.  The other variables are the page's
    environment and the platform functions the code calls. *)
Variable ALWAYS_ON_APPS : list string.
Variable isLocalhost : bool.
Variable hasSystemImport : bool.              (* [window.System?.import] *)
Variable hasPerformance : bool.               (* [performance.mark] exists *)
Variable JSON_parse : string -> option JSON.  (* [None]: throws *)
Variable JSON_stringify : JSON -> string.
Variable localeCompare : string -> string -> Z.
Variable URL_protocol : string -> option string.  (* [new URL(u).protocol]; [None]: throws *)
Variable allApplications : list string.       (* names built by [constructApplications] *)
Variable app_code : string -> Async unit.     (* the lifecycle functions of loaded modules *)

(** [s.replace(/c/g, by)] for a single character [c]. *)
Fixpoint replace_char (c : ascii) (by_ : string) (s : string) : string :=
  match s with
  | EmptyString => EmptyString
  | String a s' =>
      if Ascii.eqb a c then by_ ++ replace_char c by_ s'
      else String a (replace_char c by_ s')
  end.

Definition escapeHtml (str : string) : string :=
  replace_char "'"%char "&#39;"
    (replace_char dquote "&quot;"
      (replace_char ">"%char "&gt;"
        (replace_char "<"%char "&lt;"
          (replace_char "&"%char "&amp;" str)))).

(** [cspNonce] is the nonce of the first [script[nonce]] element, if any;
    an empty nonce counts as none. *)
Definition getCspNonce (w : World) : option string :=
  match cspNonce w with
  | Some n => if String.eqb n "" then None else Some n
  | None => None
  end.

Definition safeReload (w : World) : World :=
  if reloadScheduled w then w
  else set_reloads (S (reloads w)) (set_reloadScheduled true w).

Definition umdApps : list (string * (string * string)) :=
  [("@org/profile-vue", ("//localhost:9002/profile-vue.js", "profileVue"));
   ("@org/playground-vanilla", ("//localhost:9008/org-playground-vanilla.js", "playgroundVanilla"));
   ("@org/simple-vanilla", ("//localhost:9009/org-simple-vanilla.js", "simpleVanilla"));
   ("@org/dashboard-vue", ("//localhost:9004/dashboard-vue.js", "dashboardVue"))].

Definition toggleUrl : string := "/api/mfe-toggle".

Definition localAppUrls : list (string * string) :=
  [("@org/header-react", "http://localhost:9012/org-header-react.js");
   ("@org/footer-react", "http://localhost:9013/org-footer-react.js");
   ("@org/catalog", "http://localhost:9001/org-catalog.js");
   ("@org/profile-vue", "http://localhost:9002/profile-vue.js");
   ("@org/dashboard-vue", "http://localhost:9004/dashboard-vue.js");
   ("@org/checkout-angular", "http://localhost:9003/main.js");
   ("@org/auth-angular", "http://localhost:9010/main.js");
   ("@org/playground-angular", "http://localhost:9005/main.js");
   ("@org/playground-vue", "http://localhost:9006/playground-vue.js");
   ("@org/playground-react", "http://localhost:9007/org-playground.js");
   ("@org/playground-vanilla", "http://localhost:9008/org-playground-vanilla.js");
   ("@org/playground-svelte", "http://localhost:9011/org-playground-svelte.js");
   ("@org/simple-vanilla", "http://localhost:9009/org-simple-vanilla.js")].

Definition sanitizeDisabledApps (names : list string) : list string :=
  Set_from (List.filter (fun name => negb (Set_has ALWAYS_ON_APPS name)) names).

(** [entries.sort(([a], [b]) => a.localeCompare(b))], a stable sort. *)
Fixpoint insert_entry {V} (x : string * V) (l : list (string * V)) : list (string * V) :=
  match l with
  | [] => [x]
  | y :: l' =>
      if (localeCompare x.1 y.1 <=? 0)%Z then x :: y :: l'
      else y :: insert_entry x l'
  end.

Definition sort_entries {V} (l : list (string * V)) : list (string * V) :=
  foldr insert_entry [] l.

Definition normalizeDisabledModeConfig (value : option JSON) : option ModeConfig :=
  match as_mode value with
  | Some m => Some {| mc_default := m; mc_apps := [] |}
  | None =>
      if negb (truthy value) || negb (typeof_object value) || Array_isArray value
      then None
      else
        let input := value in
        let apps :=
          if truthy (prop "apps" input) && typeof_object (prop "apps" input)
             && negb (Array_isArray (prop "apps" input))
          then
            foldl (fun apps entry =>
                     match as_mode (Some entry.2) with
                     | Some mode => obj_assign entry.1 mode apps
                     | None => apps
                     end)
                  [] (sort_entries (Object_entries (prop "apps" input)))
          else [] in
        let defaultMode :=
          match as_mode (prop "default" input) with
          | Some m => m
          | None => hide
          end in
        Some {| mc_default := defaultMode; mc_apps := apps |}
  end.

(** [storage.getItem(key)] followed by the [if (!raw)] test: [None] when the
    item is missing or empty. *)
Definition getItem (store : gmap string string) (key : string) : option string :=
  match store !! key with
  | Some raw => if String.eqb raw "" then None else Some raw
  | None => None
  end.

Definition getDisabledApps (w : World) : list string :=
  match localStorage w with
  | None => []
  | Some store =>
      match getItem store "mfe-disabled" with
      | None => []
      | Some raw =>
          match JSON_parse raw with
          | None => []
          | Some (JArr parsed) => sanitizeDisabledApps (filter_strings parsed)
          | Some _ => []
          end
      end
  end.

(** [fetch(url, init)]; the next scripted outcome answers it, and an
    exhausted script is a network failure. *)
Definition fetched (o : FetchOutcome) : Async Response :=
  match o with
  | Answer r => resolve r
  | NetworkError => reject "fetch failed"
  end.

Definition fetch (url method : string) (range : option string) (timeoutMs : option Z)
  : Async Response :=
  fun w =>
    let w := set_requests (requests w ++ [ReqFetch url method range timeoutMs]) w in
    match net w with
    | o :: rest => fetched o (set_net rest w)
    | [] => fetched NetworkError w
    end.

(** [res.text()] *)
Definition text (res : Response) : Async string :=
  match body res with
  | Some s => resolve s
  | None => reject "body unreadable"
  end.

(** [res.json()] *)
Definition json (res : Response) : Async JSON :=
  let* s := text res in
  match JSON_parse s with
  | Some v => resolve v
  | None => reject "SyntaxError"
  end.

(** The second [then] callback of [getServerToggleState]. *)
Definition toggleStateOf (data : option JSON) : ToggleState :=
  if negb (truthy data) || negb (typeof_object data) || Array_isArray data
  then {| disabled := []; disabledMode := None |}
  else
    let disabled :=
      match prop "disabled" data with
      | Some (JArr names) => sanitizeDisabledApps (filter_strings names)
      | _ => []
      end in
    let disabledMode := normalizeDisabledModeConfig (prop "disabledMode" data) in
    {| disabled := disabled; disabledMode := disabledMode |}.

Definition getServerToggleState : Async ToggleState :=
  catch
    (let* res := fetch toggleUrl "GET" None None in
     let* data := (if ok res then json res else resolve (JObj [("disabled", JArr [])])) in
     resolve (toggleStateOf (Some data)))
    (fun _ => resolve {| disabled := []; disabledMode := None |}).

(** [window.localStorage.setItem(key, value)] inside a try/catch that
    ignores storage errors.  Storage is usable or not accessible at all: a
    store that can be read while [setItem] throws (a full quota) is not
    among the states of [World]. *)
Definition localStorage_setItem (key value : string) (w : World) : World :=
  match localStorage w with
  | Some store => set_localStorage (Some (<[key := value]> store)) w
  | None => w
  end.

Definition sessionStorage_setItem (key value : string) (w : World) : World :=
  match sessionStorage w with
  | Some store => set_sessionStorage (Some (<[key := value]> store)) w
  | None => w
  end.

Definition emitDisabledApps (serverDisabledApps localDisabledApps : list string)
    (serverDisabledMode : option ModeConfig) (w : World) : World :=
  let safeServerDisabledApps := sanitizeDisabledApps serverDisabledApps in
  let safeLocalDisabledApps := sanitizeDisabledApps localDisabledApps in
  let w := set_mfeServerDisabled (Some safeServerDisabledApps) w in
  let w := set_mfeDisabledMode (ModeConfig_value <$> serverDisabledMode) w in
  let w :=
    match serverDisabledMode with
    | Some m =>
        localStorage_setItem "mfe-disabled-mode" (JSON_stringify (ModeConfig_value m)) w
    | None => w
    end in
  let disabledApps :=
    sanitizeDisabledApps (safeServerDisabledApps ++ safeLocalDisabledApps) in
  set_dispatched (dispatched w ++ [MfeToggle disabledApps serverDisabledMode]) w.

Definition isUrlAvailable (url : string) (timeoutMs : Z) : Async bool :=
  match URL_protocol url with
  | None => resolve false
  | Some protocol =>
      if negb (String.eqb protocol "http:") && negb (String.eqb protocol "https:")
      then resolve false
      else
        catch
          (let* res := fetch url "HEAD" None (Some timeoutMs) in
           resolve (ok res || opaque res))
          (fun _ => resolve false)
  end.

Definition AVAILABILITY_CACHE_KEY : string := "mfe-availability-cache".
Definition AVAILABILITY_CACHE_TTL : Z := 30000.

Definition readAvailabilityCache (w : World) : option Snapshot :=
  match sessionStorage w with
  | None => None
  | Some store =>
      match getItem store AVAILABILITY_CACHE_KEY with
      | None => None
      | Some raw =>
          match JSON_parse raw with
          | None => None
          | Some parsed =>
              let parsed := Some parsed in
              if negb (truthy parsed) || negb (typeof_object parsed) || Array_isArray parsed
              then None
              else
                match prop "timestamp" parsed with
                | Some (JNum timestamp) =>
                    if (clock w - timestamp >? AVAILABILITY_CACHE_TTL)%Z then None
                    else
                      let safeAvailable :=
                        match prop "available" parsed with
                        | Some (JArr l) => filter_strings l
                        | _ => []
                        end in
                      let safeDisabled :=
                        match prop "disabled" parsed with
                        | Some (JArr l) => filter_strings l
                        | _ => []
                        end in
                      Some {| snap_available := Set_from safeAvailable;
                              snap_disabled := Set_from safeDisabled;
                              snap_disabledMode :=
                                normalizeDisabledModeConfig (prop "disabledMode" parsed) |}
                | _ => None
                end
          end
      end
  end.

Definition writeAvailabilityCache (available disabled_ : list string)
    (disabledMode_ : option ModeConfig) (w : World) : World :=
  sessionStorage_setItem AVAILABILITY_CACHE_KEY
    (JSON_stringify
       (JObj ([("timestamp", JNum (clock w));
               ("available", JArr (map JStr available));
               ("disabled", JArr (map JStr disabled_))]
              ++ match disabledMode_ with
                 | Some m => [("disabledMode", ModeConfig_value m)]
                 | None => []
                 end)))
    w.

(** *** Script loader *)

(** The [cacheKey] of [loadUmdScript]. *)
Definition umdCacheKey (url : string) (w : World) : string :=
  if isLocalhost then url ++ "?t=" ++ pretty (clock w) else url.

(** The synchronous part of [loadUmdScript]: the cached promise, or a new
    script element appended to the head and a new tracked promise, named by
    its index in [promises]. *)
Definition loadUmdScript (url : string) (w : World) : nat * World :=
  let cacheKey := umdCacheKey url w in
  match umdLoads w !! cacheKey with
  | Some cached => (cached, w)
  | None =>
      let script :=
        {| src := cacheKey;
           crossOrigin := if negb isLocalhost then Some "anonymous" else None;
           nonce := getCspNonce w;
           async := true |} in
      let trackedPromise := length (promises w) in
      let w := set_promises (promises w ++ [Pending]) w in
      let w := set_headScripts (headScripts w ++ [script]) w in
      let w := set_requests (requests w ++ [ReqScript cacheKey]) w in
      let w := set_umdLoads (<[cacheKey := trackedPromise]> (umdLoads w)) w in
      (trackedPromise, w)
  end.

(** A promise settles once. *)
Definition settle (p : nat) (st : PromiseState) (w : World) : World :=
  match promises w !! p with
  | Some Pending => set_promises (<[p := st]> (promises w)) w
  | _ => w
  end.

(** [script.onload] of the element created for promise [p]. *)
Definition script_onload (p : nat) (w : World) : World := settle p Fulfilled w.

(** [script.onerror] of the element created for [url] under [cacheKey],
    followed by the [catch] handler of the tracked promise: the element is
    removed, the promise rejects and its cache entry is evicted. *)
Definition script_onerror (url cacheKey : string) (p : nat) (w : World) : World :=
  let w := set_headScripts
             (List.filter (fun el => negb (String.eqb (src el) cacheKey)) (headScripts w)) w in
  match promises w !! p with
  | Some Pending =>
      let w := settle p (RejectedWith ("Failed to load " ++ escapeHtml url)) w in
      set_umdLoads (delete cacheKey (umdLoads w)) w
  | _ => w
  end.

(** [await loadUmdScript(url)]: a pending promise waits for the next
    scripted event of its element; an exhausted script is an error event. *)
Definition awaitUmdScript (url : string) : Async unit :=
  fun w =>
    let cacheKey := umdCacheKey url w in
    let (p, w) := loadUmdScript url w in
    match promises w !! p with
    | Some Fulfilled => (Resolved tt, w)
    | Some (RejectedWith e) => (Rejected e, w)
    | _ =>
        match scriptEvents w with
        | ScriptLoaded defines :: rest =>
            let w := set_scriptEvents rest w in
            let w := set_globals (obj_spread (globals w) defines) w in
            (Resolved tt, script_onload p w)
        | ScriptFailed :: rest =>
            (Rejected ("Failed to load " ++ escapeHtml url),
             script_onerror url cacheKey p (set_scriptEvents rest w))
        | [] =>
            (Rejected ("Failed to load " ++ escapeHtml url),
             script_onerror url cacheKey p w)
        end
    end.

(** *** Module format detector *)

Definition withCacheBust (url : string) (w : World) : string :=
  if isLocalhost
  then url ++ (if includes url "?" then "&" else "?") ++ "t=" ++ pretty (clock w)
  else url.

Definition fetchWithTimeout (input : string) (range : option string) (timeoutMs : Z)
  : Async Response :=
  fetch input "GET" range (Some timeoutMs).

Definition analyzeSource (head tail : string) (full : option string) : ModuleFormat :=
  let hasSystemRegister := test_at_start system_register_preamble head in
  if hasSystemRegister then system
  else
    let hasUmdWrapper :=
      test (lit "typeof exports") head
      && test (lit "define.amd") head
      && test (Alt (lit "module.exports") (lit "exports[")) head in
    if hasUmdWrapper then umd
    else
      let source := default head full in
      let hasEsmSyntax :=
        test_at_line_start esm_statement source
        || includes source (String newline "export{")
        || includes source (String newline "export {")
        || includes tail "export{"
        || includes tail "export {" in
      if hasEsmSyntax then esm else unknown.

Definition moduleFormatCache_set (url : string) (format : ModuleFormat) (w : World) : World :=
  set_moduleFormatCache (<[url := format]> (moduleFormatCache w)) w.

Definition detectModuleFormat (url : string) : Async ModuleFormat :=
  fun w =>
    match moduleFormatCache w !! url with
    | Some cached => resolve cached w
    | None =>
        let bustUrl := withCacheBust url w in
        catch
          (let* res := fetchWithTimeout bustUrl (Some "bytes=0-8191")
                         (if isLocalhost then 1200 else 3000) in
           if negb (ok res) && negb (status res =? 206)%Z then resolve unknown
           else if (status res =? 206)%Z then
             let* head := text res in
             let format := analyzeSource head "" None in
             if negb (ModuleFormat_eqb format unknown) then
               let* _ := effect (moduleFormatCache_set url format) in
               resolve format
             else
               let* r := fetchWithTimeout bustUrl None
                           (if isLocalhost then 2200 else 5000) in
               let* full := (if ok r then text r else resolve "") in
               let tail := slice_last 4096 full in
               let fmt := analyzeSource (slice_first 8192 full) tail (Some full) in
               let* _ := effect (moduleFormatCache_set url fmt) in
               resolve fmt
           else
             let* source := text res in
             let head := slice_first 8192 source in
             let tail := slice_last 4096 source in
             let format := analyzeSource head tail (Some source) in
             let* _ := effect (moduleFormatCache_set url format) in
             resolve format)
          (fun _ => resolve unknown)
          w
    end.

(** *** Application loader *)

(** A dynamic [import(specifier)]; the next scripted result answers it. *)
Definition nativeImport (specifier : string) : Async Module :=
  fun w =>
    let w := set_requests (requests w ++ [ReqImport specifier]) w in
    match importResults w with
    | Some m :: rest => (Resolved m, set_importResults rest w)
    | None :: rest => (Rejected "import failed", set_importResults rest w)
    | [] => (Rejected "import failed", w)
    end.

(** [window.System.import(specifier)] *)
Definition systemImport (specifier : string) : Async Module :=
  fun w =>
    let w := set_requests (requests w ++ [ReqSystemImport specifier]) w in
    match importResults w with
    | Some m :: rest => (Resolved m, set_importResults rest w)
    | None :: rest => (Rejected "System.import failed", set_importResults rest w)
    | [] => (Rejected "System.import failed", w)
    end.

Definition importByUrl (url : string) : Async Module := nativeImport url.

Definition systemImportByUrl (url : string) : Async Module :=
  if hasSystemImport then systemImport url else importByUrl url.

Definition createUnavailableApp (name : string) : AppHandle :=
  {| h_bootstrap := LOne NoopFn; h_mount := LOne NoopFn; h_unmount := LOne NoopFn |}.

Definition setRuntimeDisabledApps (disabled_ : list string) (w : World) : World :=
  let w := set_runtimeDisabledApps [] w in
  foldl (fun w name =>
           if negb (Set_has ALWAYS_ON_APPS name)
           then set_runtimeDisabledApps (Set_add name (runtimeDisabledApps w)) w
           else w)
        w disabled_.

Definition systemFirstApps : list string :=
  ["@org/header-react"; "@org/footer-react"; "@org/catalog"; "@org/playground-react";
   "@org/checkout-angular"; "@org/auth-angular"; "@org/playground-angular";
   "@org/playground-vue"; "@org/playground-svelte"; "@org/simple-vanilla"].

Definition systemFirstUmdGlobals : list (string * string) :=
  [("@org/playground-vue", "playgroundVue")].

Definition performance_mark (name : string) (w : World) : World :=
  if hasPerformance then set_marks (marks w ++ [Mark name]) w else w.

Definition performance_measure (name startMark endMark : string) (w : World) : World :=
  if hasPerformance then set_marks (marks w ++ [Measure name startMark endMark]) w else w.

Definition finalizeLoadMetrics (name : string) (w : World) : World :=
  performance_measure ("mfe:" ++ name ++ ":load")
    ("mfe:" ++ name ++ ":load:start") ("mfe:" ++ name ++ ":load:end")
    (performance_mark ("mfe:" ++ name ++ ":load:end") w).

Definition wrapLifecycle (appName : string) (phase : Phase)
    (lifecycle : option LifecycleExport) : Lifecycle :=
  match lifecycle with
  | None => LAbsent
  | Some (ManyFns fs) => LMany (map (TimedFn appName phase) fs)
  | Some (OneFn f) => LOne (TimedFn appName phase f)
  end.

(** [wrapModuleLifecycles(appName, mod)]; reading a lifecycle off an
    [undefined] module throws. *)
Definition wrapModuleLifecycles (appName : string) (mod_ : option Module) : Async AppHandle :=
  match mod_ with
  | None => reject "TypeError"
  | Some m =>
      resolve {| h_bootstrap := wrapLifecycle appName Bootstrap (mod_bootstrap m);
                 h_mount := wrapLifecycle appName Mount (mod_mount m);
                 h_unmount := wrapLifecycle appName Unmount (mod_unmount m) |}
  end.

(** Calling a lifecycle function of a handle. *)
Definition invoke (f : LifecycleFn) : Async unit :=
  match f with
  | NoopFn => resolve tt
  | TimedFn appName phase fn =>
      let tag := "mfe:" ++ appName ++ ":" ++ phase_name phase in
      let* _ := effect (performance_mark (tag ++ ":start")) in
      finally (app_code fn)
        (fun w => performance_measure tag (tag ++ ":start") (tag ++ ":end")
                    (performance_mark (tag ++ ":end") w))
  end.

(** [loadApp({ name })].  The test [name in umdApps] is the lookup of an
    own key: for the names of [Object_prototype_keys] the source's test
    holds as well, and the script branch then runs with an undefined URL;
    these names are outside what this definition models. *)
Definition loadApp (name : string) : Async AppHandle :=
  let* _ := effect (performance_mark ("mfe:" ++ name ++ ":load:start")) in
  let* isDisabled := peek (fun w => Set_has (runtimeDisabledApps w) name) in
  if isDisabled then
    finally (resolve (createUnavailableApp name)) (finalizeLoadMetrics name)
  else
    match obj_get name umdApps with
    | Some app =>
        finally
          (catch
             (let* _ := awaitUmdScript app.1 in
              let* mod_ := peek (fun w => obj_get app.2 (globals w)) in
              wrapModuleLifecycles name mod_)
             (fun error => resolve (createUnavailableApp name)))
          (finalizeLoadMetrics name)
    | None =>
        if Set_has systemFirstApps name then
          let localUrl := obj_get name localAppUrls in
          let preferredImport : Async Module :=
            match (if isLocalhost then localUrl else None) with
            | Some localUrl =>
                let* format := detectModuleFormat localUrl in
                let* importUrl := peek (withCacheBust localUrl) in
                match format with
                | system => systemImportByUrl importUrl
                | umd =>
                    let* _ := awaitUmdScript importUrl in
                    let globalName := default name (obj_get name systemFirstUmdGlobals) in
                    let* mod_ := peek (fun w => obj_get globalName (globals w)) in
                    match mod_ with
                    | Some m => resolve m
                    | None => reject "UMD app did not expose a global"
                    end
                | esm => importByUrl importUrl
                | unknown =>
                    catch (importByUrl importUrl) (fun _ => systemImportByUrl importUrl)
                end
            | None =>
                if hasSystemImport then systemImport name else nativeImport name
            end in
          finally
            (catch
               (let* m := preferredImport in wrapModuleLifecycles name (Some m))
               (fun systemError =>
                  let urlFallback : Async Module :=
                    match (if isLocalhost then obj_get name localAppUrls else None) with
                    | Some localUrl =>
                        let* bust := peek (withCacheBust localUrl) in importByUrl bust
                    | None => nativeImport name
                    end in
                  catch
                    (let* m := urlFallback in wrapModuleLifecycles name (Some m))
                    (fun nativeError => resolve (createUnavailableApp name))))
            (finalizeLoadMetrics name)
        else
          finally
            (catch
               (let* m := nativeImport name in wrapModuleLifecycles name (Some m))
               (fun error => resolve (createUnavailableApp name)))
            (finalizeLoadMetrics name)
    end.

(** *** Remote toggle poller ([watchServerToggle]) *)

Definition intervalMs : Z := 5000.
Definition hiddenIntervalMs : Z := 15000.

Definition update_poller (f : Poller -> Poller) (w : World) : World :=
  set_toggleWatch (f <$> toggleWatch w) w.

Definition schedule (ms : Z) (w : World) : World :=
  update_poller (fun p => {| last := last p; timer := Some ms; inFlight := inFlight p |}) w.

Definition set_inFlight (b : bool) (w : World) : World :=
  update_poller (fun p => {| last := last p; timer := timer p; inFlight := b |}) w.

Definition set_last (next : string) (w : World) : World :=
  update_poller (fun p => {| last := next; timer := timer p; inFlight := inFlight p |}) w.

(** [poll()] up to the moment its request is sent. *)
Definition poll (w : World) : World :=
  match toggleWatch w with
  | None => w
  | Some p =>
      if inFlight p then schedule intervalMs w
      else if hidden w then schedule hiddenIntervalMs w
      else
        let w := set_inFlight true w in
        set_requests (requests w ++ [ReqFetch toggleUrl "GET" None (Some 1800%Z)]) w
  end.

(** The promise chain of [poll()] once its request has settled with [o]. *)
Definition poll_settled (o : FetchOutcome) (w : World) : World :=
  match toggleWatch w with
  | None => w
  | Some p =>
      if negb (inFlight p) then w
      else
        let chain : Async unit :=
          finally
            (catch
               (let* res := fetched o in
                let* data := (if ok res then json res else resolve JNull) in
                if negb (truthy (Some data)) || negb (typeof_object (Some data))
                then resolve tt
                else
                  let next := JSON_stringify data in
                  let* last_ := peek (fun w => from_option last "" (toggleWatch w)) in
                  let* _ := effect (fun w =>
                                      if negb (String.eqb last_ "")
                                         && negb (String.eqb next last_)
                                      then safeReload w else w) in
                  effect (set_last next))
               (fun _ => resolve tt))
            (fun w => schedule intervalMs (set_inFlight false w)) in
        (chain w).2
  end.

(** [onVisibility], after [document.hidden] became [h]. *)
Definition onVisibility (h : bool) (w : World) : World :=
  let w := set_hidden h w in
  if negb (hidden w) then poll w else w.

Definition watchServerToggle (w : World) : World :=
  poll (set_toggleWatch (Some {| last := ""; timer := None; inFlight := false |}) w).

(** *** Start-up reconciliation (the toggle and availability part of [bootstrap]) *)

Definition emitAvailability (available : list string) (w : World) : World :=
  set_dispatched (dispatched w ++ [MfeAvailability available]) w.

(** The [storage] listener. *)
Definition onStorage (key : option string) (w : World) : World :=
  match key with
  | Some k =>
      if String.eqb k "mfe-disabled" || String.eqb k "mfe-disabled-mode"
      then safeReload w else w
  | None => w
  end.

(** [bc.onmessage] of the [mfe-disabled-sync] channel. *)
Definition onBroadcast (data : option JSON) (w : World) : World :=
  if truthy data && typeof_object data
     && (match prop "type" data with
         | Some (JStr t) => String.eqb t "mfe-toggle" || String.eqb t "mfe-disabled-mode"
         | _ => false
         end)
  then safeReload w else w.

(** Register the applications, activate the layout, start, and watch. *)
Definition activate (applications : list string) (w : World) : World :=
  watchServerToggle (set_started true (set_registered applications w)).

(** [cached.disabledMode || null] *)
Definition mode_or_null (m : option ModeConfig) : JSON :=
  match m with
  | Some c => ModeConfig_value c
  | None => JNull
  end.

(** The condition under which [runAvailabilityCheck] reloads. *)
Definition diverged (cached : Snapshot) (availableApps serverDisabledApps : list string)
    (serverDisabledMode : option ModeConfig) : bool :=
  negb (length (snap_available cached) =? length availableApps)%nat
  || negb (length (snap_disabled cached) =? length serverDisabledApps)%nat
  || negb (String.eqb (JSON_stringify (mode_or_null (snap_disabledMode cached)))
                      (JSON_stringify (mode_or_null serverDisabledMode)))
  || existsb (fun name => negb (Set_has availableApps name)) (snap_available cached)
  || existsb (fun name => negb (Set_has serverDisabledApps name)) (snap_disabled cached).

(** The callback of [runAvailabilityCheck] once every probe and the toggle
    request have settled. *)
Definition onAvailabilityChecked (cached : option Snapshot)
    (availability : list (string * bool)) (serverToggle : ToggleState) (w : World) : World :=
  let localDisabledApps := getDisabledApps w in
  let availableApps := Set_from (map fst (List.filter snd availability)) in
  let serverDisabledApps := Set_from (disabled serverToggle) in
  let disabledApps := sanitizeDisabledApps (serverDisabledApps ++ localDisabledApps) in
  let w := setRuntimeDisabledApps disabledApps w in
  let w := writeAvailabilityCache availableApps serverDisabledApps
             (disabledMode serverToggle) w in
  let w := emitAvailability availableApps w in
  let w := emitDisabledApps serverDisabledApps localDisabledApps
             (disabledMode serverToggle) w in
  match cached with
  | None =>
      activate
        (List.filter (fun app => Set_has ALWAYS_ON_APPS app || Set_has availableApps app)
           allApplications)
        w
  | Some cached =>
      if diverged cached availableApps serverDisabledApps (disabledMode serverToggle)
      then safeReload w else w
  end.

Definition runAvailabilityCheck (cached : option Snapshot) : Async unit :=
  let* availability :=
    all (map (fun entry =>
                let* ok_ := isUrlAvailable entry.2 700 in resolve (entry.1, ok_))
             localAppUrls) in
  let* serverToggle := getServerToggleState in
  effect (onAvailabilityChecked cached availability serverToggle).

(** The callback of the re-probe timer set when a cached snapshot was used. *)
Definition onRecheckTimer (cached : Snapshot) : Async unit :=
  fun w =>
    let w := set_recheckTimer None w in
    if negb (hidden w) then runAvailabilityCheck (Some cached) w
    else (Resolved tt, w).

(** The callback of [getServerToggleState] in the production branch of
    [bootstrap] (lines 988-1008), with the device-local names read at line
    961. *)
Definition onServerToggle (localDisabledApps : list string) (serverToggle : ToggleState)
    (w : World) : World :=
  let serverDisabledApps := disabled serverToggle in
  let disabledApps := sanitizeDisabledApps (localDisabledApps ++ serverDisabledApps) in
  let w := setRuntimeDisabledApps disabledApps w in
  let w := emitDisabledApps (Set_from serverDisabledApps) localDisabledApps
             (disabledMode serverToggle) w in
  activate allApplications w.

(** [bootstrap] from line 960 on: what the function does once the set-up
    calls before that line (shell UI, auth sync, auth build poller, route
    guard, title, locale, error handler, theme) have returned.  On a page
    whose local storage cannot be accessed the source does not get here:
    [getSavedTheme] throws at line 935. *)
Definition bootstrap : Async unit :=
  fun w =>
    let localDisabledApps := getDisabledApps w in
    if negb isLocalhost then
      (let* serverToggle := getServerToggleState in
       effect (onServerToggle localDisabledApps serverToggle)) w
    else
      match readAvailabilityCache w with
      | Some cached =>
          let localDisabledApps := getDisabledApps w in
          let disabledApps :=
            sanitizeDisabledApps (snap_disabled cached ++ localDisabledApps) in
          let w := setRuntimeDisabledApps disabledApps w in
          let w := emitAvailability (snap_available cached) w in
          let w := emitDisabledApps (snap_disabled cached) localDisabledApps
                     (snap_disabledMode cached) w in
          let w :=
            activate
              (List.filter
                 (fun app => Set_has ALWAYS_ON_APPS app || Set_has (snap_available cached) app)
                 allApplications)
              w in
          let refreshDelay := Z.max AVAILABILITY_CACHE_TTL 15000 in
          (Resolved tt, set_recheckTimer (Some refreshDelay) w)
      | None => runAvailabilityCheck None w
      end.

(** The signals that can ask for a page reload. *)
Inductive Signal :=
| StorageEvent (key : option string)
| BroadcastMessage (data : option JSON)
| RecheckSettled (cached : Snapshot) (availability : list (string * bool))
    (serverToggle : ToggleState)
| PollSettled (o : FetchOutcome)
| PollTimer
| VisibilityChange (h : bool).

Definition deliver (w : World) (s : Signal) : World :=
  match s with
  | StorageEvent key => onStorage key w
  | BroadcastMessage data => onBroadcast data w
  | RecheckSettled cached availability serverToggle =>
      onAvailabilityChecked (Some cached) availability serverToggle w
  | PollSettled o => poll_settled o w
  | PollTimer => poll w
  | VisibilityChange h => onVisibility h w
  end.

Definition deliver_all (signals : list Signal) (w : World) : World :=
  foldl deliver w signals.

(** *** Script loader under concurrent callers *)

Inductive LoaderStep :=
| CallLoad (url : string)
| ClockTick (ms : Z)
| LoadEvent (p : nat)
| ErrorEvent (url cacheKey : string) (p : nat).

(** Runs the steps in order and collects the promise each call returned. *)
Fixpoint run_loader (steps : list LoaderStep) (w : World) : list nat * World :=
  match steps with
  | [] => ([], w)
  | CallLoad url :: rest =>
      let (p, w) := loadUmdScript url w in
      let (ps, w) := run_loader rest w in
      (p :: ps, w)
  | ClockTick ms :: rest => run_loader rest (set_clock (clock w + ms)%Z w)
  | LoadEvent p :: rest => run_loader rest (script_onload p w)
  | ErrorEvent url cacheKey p :: rest => run_loader rest (script_onerror url cacheKey p w)
  end.

(** The script insertions recorded in a request log. *)
Definition script_insertions (cacheKey : string) (log : list Request) : nat :=
  length (List.filter (fun r => match r with
                                | ReqScript s => String.eqb s cacheKey
                                | _ => false
                                end) log).

(** *** Route guards *)

Definition AUTH_LOGIN_PATH : string := "/auth/login".
Definition AUTH_RETURN_PARAM : string := "returnTo".

Definition AUTH_REQUIRED_PREFIXES : list string :=
  ["/playground-angular"; "/playground-react"; "/playground-vue";
   "/playground-vanilla"; "/playground-svelte"].

Fixpoint all_slashes (s : string) : bool :=
  match s with
  | EmptyString => true
  | String c s' => Ascii.eqb c "/" && all_slashes s'
  end.

(** [value.replace(/\/+$/, "")]: the match starts at the leftmost position
    from which slashes, and at least one of them, run to the end. *)
Fixpoint dropTrailingSlashes (value : string) : string :=
  match value with
  | EmptyString => EmptyString
  | String c s' =>
      if Ascii.eqb c "/" && all_slashes s' then EmptyString
      else String c (dropTrailingSlashes s')
  end.

Definition normalizePath (value : string) : string :=
  let trimmed := dropTrailingSlashes value in
  if (0 <? String.length trimmed)%nat then trimmed else "/".

(** [s.startsWith(p)] *)
Definition startsWith (s p : string) : bool := String.prefix p s.

Definition isAuthPath (path : string) : bool := startsWith (normalizePath path) "/auth".

Definition isProtectedPath (path : string) : bool :=
  let normalized := normalizePath path in
  existsb (fun prefix_ => startsWith normalized prefix_) AUTH_REQUIRED_PREFIXES.

(** The serialisation of one query value by [URLSearchParams]. *)
Variable encodeQueryValue : string -> string.

(** The path and the query of [new URL(AUTH_LOGIN_PATH, origin)] once its
    [returnTo] parameter is set. *)
Definition buildLoginUrl (returnTo : string) : string :=
  AUTH_LOGIN_PATH ++ "?" ++ AUTH_RETURN_PARAM ++ "=" ++ encodeQueryValue returnTo.

(** [ensureAuthForPath(path)] of [bootstrap]: the URL handed to
    [navigateToUrl], if any. *)
Definition ensureAuthForPath (isAuthenticated : bool) (path : string) : option string :=
  if isAuthenticated then None
  else if isAuthPath path then None
  else if negb (isProtectedPath path) then None
  else Some (buildLoginUrl path).

(** *** Auth build poller ([watchAuthBuild]) *)

(** The closure variables of [watchAuthBuild]. *)
Record BuildWatch := {
  lastBuildId : option string;
  buildTimer : option Z;
  buildInFlight : bool
}.

Definition authBuildUrl : string := "http://localhost:9010/mfe-auth-dev.json".
Definition buildIntervalMs : Z := 2000.
Definition buildHiddenIntervalMs : Z := 8000.

(** The pattern of a build id, between its anchors: one digit or more. *)
Definition digits : regex := Cat digit (Star digit).

(** [String(raw)] for a number [raw]: its decimal digits for an integer
    below 1e21 that the number holds exactly, the exponent form from there
    on.  The function is the platform's. *)
Variable Number_toString : Z -> string.

(** The [next] of the poll callback: [String(raw)] for a number, [raw] for a
    string of decimal digits, else [null]. *)
Definition buildIdOf (data : JSON) : option string :=
  match prop "buildId" (Some data) with
  | Some (JNum raw) => Some (Number_toString raw)
  | Some (JStr raw) => if accepts digits (list_ascii_of_string raw) then Some raw else None
  | _ => None
  end.

Definition scheduleBuild (ms : Z) (b : BuildWatch) : BuildWatch :=
  {| lastBuildId := lastBuildId b; buildTimer := Some ms; buildInFlight := buildInFlight b |}.

(** [poll()] up to the moment its request is sent. *)
Definition buildPoll (s : BuildWatch * World) : BuildWatch * World :=
  let (b, w) := s in
  if buildInFlight b then (scheduleBuild buildIntervalMs b, w)
  else if hidden w then (scheduleBuild buildHiddenIntervalMs b, w)
  else
    ({| lastBuildId := lastBuildId b; buildTimer := buildTimer b; buildInFlight := true |},
     set_requests (requests w ++ [ReqFetch authBuildUrl "GET" None (Some 1200%Z)]) w).

(** The promise chain of [poll()] once its request has settled with [o].
    Only a poll in flight has a chain to settle: a result delivered to an
    idle poller is dropped. *)
Definition buildPoll_settled (o : FetchOutcome) (s : BuildWatch * World)
  : BuildWatch * World :=
  let (b, w) := s in
  if negb (buildInFlight b) then s
  else
    let parsed : Async JSON :=
      let* res := fetched o in
      if ok res then json res else resolve JNull in
    let (b, w) :=
      match parsed w with
      | (Resolved data, w) =>
          if negb (truthy (Some data)) || negb (typeof_object (Some data)) then (b, w)
          else
            match buildIdOf data with
            | None => (b, w)
            | Some next =>
                if String.eqb next "" then (b, w)
                else if match lastBuildId b with
                        | Some last_ => negb (String.eqb last_ "") && negb (String.eqb next last_)
                        | None => false
                        end
                then (b, safeReload w)
                else ({| lastBuildId := Some next; buildTimer := buildTimer b;
                         buildInFlight := buildInFlight b |}, w)
            end
      | (Rejected _, w) => (b, w)
      end in
    (scheduleBuild buildIntervalMs
       {| lastBuildId := lastBuildId b; buildTimer := buildTimer b; buildInFlight := false |},
     w).

(** The [visibilitychange] listener, after [document.hidden] became [h]. *)
Definition buildOnVisibility (h : bool) (s : BuildWatch * World) : BuildWatch * World :=
  let s := (s.1, set_hidden h s.2) in
  if negb h then buildPoll s else s.

(** [watchAuthBuild()]: nothing off localhost, else the poller and its
    first poll. *)
Definition watchAuthBuild (w : World) : option BuildWatch * World :=
  if negb isLocalhost then (None, w)
  else
    let (b, w) := buildPoll ({| lastBuildId := None; buildTimer := None;
                                buildInFlight := false |}, w) in
    (Some b, w).

(** What reaches the poller: the result of its request, its timer and a
    [visibilitychange] event. *)
Inductive BuildSignal :=
| BuildSettled (o : FetchOutcome)
| BuildTimer
| BuildVisibility (h : bool).

Definition buildDeliver (s : BuildWatch * World) (e : BuildSignal) : BuildWatch * World :=
  match e with
  | BuildSettled o => buildPoll_settled o s
  | BuildTimer => buildPoll s
  | BuildVisibility h => buildOnVisibility h s
  end.

(** *** Layout assembly ([applyLayoutSection]) *)

Fixpoint trimStart_chars (s : list ascii) : list ascii :=
  match s with
  | c :: s' => if is_space c then trimStart_chars s' else s
  | [] => []
  end.

(** [s.trim()] *)
Definition trim (s : string) : string :=
  string_of_list_ascii
    (rev (trimStart_chars (rev (trimStart_chars (list_ascii_of_string s))))).

(** [s.split(sep)] for a separator of at least one character: the pieces
    between successive occurrences of [sep], found from the left.  [skip]
    counts the characters of an occurrence still to pass over and [piece]
    holds the current piece, last character first. *)
Fixpoint split_chars (sep : list ascii) (skip : nat) (piece : list ascii) (s : list ascii)
  : list (list ascii) :=
  match s with
  | [] => [rev piece]
  | c :: s' =>
      match skip with
      | S n => split_chars sep n piece s'
      | O =>
          if is_prefix sep s then rev piece :: split_chars sep (length sep - 1) [] s'
          else split_chars sep 0 (c :: piece) s'
      end
  end.

Definition split (sep s : string) : list string :=
  map string_of_list_ascii (split_chars (list_ascii_of_string sep) 0 [] (list_ascii_of_string s)).

(** [pieces.join(sep)] *)
Fixpoint Array_join (sep : string) (pieces : list string) : string :=
  match pieces with
  | [] => ""
  | [p] => p
  | p :: rest => p ++ sep ++ Array_join sep rest
  end.

Definition applyLayoutSection (template marker content : string) : string :=
  let needle := "<!-- " ++ marker ++ " -->" in
  if negb (includes template needle) then template
  else Array_join (trim content) (split needle template).

(** *** Application error reports (the [addErrorHandler] callback) *)

(** The fields of a single-spa error the handler reads. *)
Record AppError := {
  appOrParcelName : option string;
  err_appName : option string;
  err_applicationName : option string;
  err_message : option string
}.

(** [a || b] on optional strings. *)
Definition or_string (a b : option string) : option string :=
  match a with
  | Some s => if String.eqb s "" then b else a
  | None => b
  end.

Inductive Report :=
| MfeError (name message : string)
| AvailabilityChanged (available : list string).

(** The closure variables of [bootstrap] the handler works on, and the
    events it dispatched. *)
Record ErrorState := {
  failedApps : list string;
  currentAvailableApps : option (list string);
  reports : list Report
}.

Definition onAppError (err : AppError) (s : ErrorState) : ErrorState :=
  match or_string (appOrParcelName err)
          (or_string (err_appName err) (err_applicationName err)) with
  | None => s
  | Some appName =>
      if String.eqb appName "" || Set_has (failedApps s) appName then s
      else
        let failed := Set_add appName (failedApps s) in
        let message := default "Module failed to load"
                         (or_string (err_message err) None) in
        let sent_ := (reports s ++ [MfeError appName message])%list in
        match currentAvailableApps s with
        | Some available =>
            if Set_has available appName then
              let available :=
                List.filter (fun name => negb (String.eqb name appName)) available in
              {| failedApps := failed; currentAvailableApps := Some available;
                 reports := (sent_ ++ [AvailabilityChanged available])%list |}
            else {| failedApps := failed; currentAvailableApps := Some available;
                    reports := sent_ |}
        | None => {| failedApps := failed; currentAvailableApps := None; reports := sent_ |}
        end
  end.

(** *** Theme ([setThemeMode], [getSavedTheme], [applySystemTheme],
    [persistThemeMode]) *)

Inductive ThemeMode := light | dark.

Definition ThemeMode_eqb (a b : ThemeMode) : bool :=
  match a, b with
  | light, light | dark, dark => true
  | _, _ => false
  end.

Definition theme_name (m : ThemeMode) : string :=
  match m with light => "light" | dark => "dark" end.

(** [target.getAttribute("data-theme") === "dark" ? "dark" : "light"] *)
Definition themeOf (attr : option string) : ThemeMode :=
  match attr with
  | Some v => if String.eqb v "dark" then dark else light
  | None => light
  end.

(** [setThemeMode(mode, target)] on the [data-theme] attribute of the
    target. *)
Definition setThemeMode (mode : ThemeMode) (attr : option string) : option string :=
  let current := themeOf attr in
  if ThemeMode_eqb current mode then attr
  else match mode with
       | dark => Some "dark"
       | light => None
       end.

Definition getSavedTheme (storageKey : string) (store : gmap string string)
  : option ThemeMode :=
  match store !! storageKey with
  | Some saved =>
      if String.eqb saved "dark" then Some dark
      else if String.eqb saved "light" then Some light
      else None
  | None => None
  end.

(** [applySystemTheme()], with [prefersDark] the answer of the
    [prefers-color-scheme: dark] media query. *)
Definition applySystemTheme (prefersDark : bool) (storageKey : string)
    (store : gmap string string) (attr : option string) : option string :=
  match getSavedTheme storageKey store with
  | Some _ => attr
  | None => setThemeMode (if prefersDark then dark else light) attr
  end.

(** [persistThemeMode()] up to the registration of its observer. *)
Definition persistThemeMode (storageKey : string) (store : gmap string string)
    (attr : option string) : option string :=
  match getSavedTheme storageKey store with
  | Some saved => setThemeMode saved attr
  | None => attr
  end.

(** The observer of [persistThemeMode], called after the attribute
    changed. *)
Definition onThemeMutation (storageKey : string) (attr : option string)
    (store : gmap string string) : gmap string string :=
  <[storageKey := theme_name (themeOf attr)]> store.

(** The theme part of [bootstrap]. *)
Definition startTheme (prefersDark : bool) (store : gmap string string)
    (attr : option string) : option string :=
  persistThemeMode "ds-theme" store (applySystemTheme prefersDark "ds-theme" store attr).

(** *** Document title ([setTitleForPath]) *)

Definition baseTitle : string := "System Platform".

Definition titleMap : list (string * string) :=
  [("/playground-angular", "Playground Angular");
   ("/playground-react", "Playground React");
   ("/playground-vue", "Playground Vue");
   ("/playground-vanilla", "Playground Vanilla");
   ("/playground-svelte", "Playground Svelte");
   ("/dashboard", "Dashboard")].

(** The separator of the title: a middle dot, code unit 183, between two
    spaces. *)
Definition titleSeparator : string := String " " (String (ascii_of_nat 183) " ").

(** [setTitleForPath()] on [window.location.pathname] and [document.title].
    A pathname is empty or starts with a slash, so [titleMap[path]] reads an
    own property or nothing; every mapped title is a non-empty literal. *)
Definition setTitleForPath (pathname title : string) : string :=
  let path := dropTrailingSlashes pathname in
  match obj_get path titleMap with
  | Some next => next ++ titleSeparator ++ baseTitle
  | None => if String.eqb title "" || String.eqb title baseTitle then baseTitle else title
  end.

(** ** Vocabulary of the statements *)

(** The world after a request was sent and answered. *)
Definition sent (req : Request) (w : World) : World :=
  set_net (tail (net w)) (set_requests (requests w ++ [req]) w).

(** The answer the next request will get. *)
Definition next_outcome (w : World) : FetchOutcome :=
  match net w with
  | o :: _ => o
  | [] => NetworkError
  end.

(** What [getServerToggleState] makes of an outcome. *)
Definition serverToggleOf (o : FetchOutcome) : ToggleState :=
  match o with
  | Answer res =>
      if ok res then
        match body res with
        | Some s =>
            match JSON_parse s with
            | Some data => toggleStateOf (Some data)
            | None => {| disabled := []; disabledMode := None |}
            end
        | None => {| disabled := []; disabledMode := None |}
        end
      else {| disabled := []; disabledMode := None |}
  | NetworkError => {| disabled := []; disabledMode := None |}
  end.

(** The parsed body of a 2xx answer, when there is one. *)
Definition payload (o : FetchOutcome) : option JSON :=
  match o with
  | Answer res => if ok res then body res ≫= JSON_parse else None
  | NetworkError => None
  end.

(** The guard flag and the number of reloads issued so far. *)
Definition guard (w : World) : bool * nat := (reloadScheduled w, reloads w).

(** A handler either leaves the guard alone or goes through [safeReload]. *)
Definition guarded (w w' : World) : Prop :=
  guard w' = guard w ∨ guard w' = guard (safeReload w).

(** The serialisation of a poll result that [poll] accepts: a 2xx answer
    whose body parses to an object or an array. *)
Definition valid_payload (o : FetchOutcome) : option string :=
  match payload o with
  | Some data =>
      if truthy (Some data) && typeof_object (Some data)
      then Some (JSON_stringify data) else None
  | None => None
  end.

(** The baseline the poller has recorded ([last]); empty before the first
    accepted payload and before the poller exists. *)
Definition baseline (w : World) : string := from_option last "" (toggleWatch w).

(** The signals of the poller, and the accepted payloads they carry. *)
Definition poller_signal (s : Signal) : bool :=
  match s with
  | PollSettled _ | PollTimer | VisibilityChange _ => true
  | _ => false
  end.

Definition accepted_payloads (signals : list Signal) : list string :=
  omap (fun s => match s with
                 | PollSettled o => valid_payload o
                 | _ => None
                 end) signals.

(** The probe request of [detectModuleFormat] and its full-body follow-up. *)
Definition probeRequest (url : string) (w : World) : Request :=
  ReqFetch (withCacheBust url w) "GET" (Some "bytes=0-8191")
    (Some (if isLocalhost then 1200 else 3000)%Z).

Definition fullRequest (url : string) (w : World) : Request :=
  ReqFetch (withCacheBust url w) "GET" None
    (Some (if isLocalhost then 2200 else 5000)%Z).

(** The markers [analyzeSource] looks for in a head alone. *)
Definition hasSystemRegister (head : string) : bool :=
  test_at_start system_register_preamble head.

Definition hasUmdWrapper (head : string) : bool :=
  test (lit "typeof exports") head
  && test (lit "define.amd") head
  && test (Alt (lit "module.exports") (lit "exports[")) head.

Definition hasEsmSyntaxIn (source : string) : bool :=
  test_at_line_start esm_statement source
  || includes source (String newline "export{")
  || includes source (String newline "export {").


(** The entity [escapeHtml] writes for a character, or the character. *)
Definition entity (a : ascii) : string :=
  if Ascii.eqb a "&" then "&amp;"
  else if Ascii.eqb a "<" then "&lt;"
  else if Ascii.eqb a ">" then "&gt;"
  else if Ascii.eqb a dquote then "&quot;"
  else if Ascii.eqb a "'" then "&#39;"
  else String a "".

(** One pass over a text that writes each character's entity. *)
Fixpoint escape_each (s : string) : string :=
  match s with
  | EmptyString => EmptyString
  | String a s' => entity a ++ escape_each s'
  end.

(** The characters markup gives a meaning to, the ampersand apart. *)
Definition is_markup (a : ascii) : bool :=
  Ascii.eqb a "<" || Ascii.eqb a ">" || Ascii.eqb a dquote || Ascii.eqb a "'".

(** Whether the answer to a reachability probe counts as reachable. *)
Definition reachable (o : FetchOutcome) : bool :=
  match o with
  | Answer res => ok res || opaque res
  | NetworkError => false
  end.

(** The document [writeAvailabilityCache] serialises. *)
Definition cache_document (timestamp : Z) (available disabled_ : list string)
    (disabledMode_ : option ModeConfig) : JSON :=
  JObj ([("timestamp", JNum timestamp);
         ("available", JArr (map JStr available));
         ("disabled", JArr (map JStr disabled_))]
        ++ match disabledMode_ with
           | Some m => [("disabledMode", ModeConfig_value m)]
           | None => []
           end).

(** The order [sort_entries] sorts by. *)
Definition key_le (a b : string) : Prop := (localeCompare a b <= 0)%Z.

(** A promise chain that records no performance entry. *)
Definition keeps_marks {A} (p : Async A) : Prop := ∀ w, marks (p w).2 = marks w.

(** A promise chain that resolves whatever the world it runs in. *)
Definition always_resolves {A} (p : Async A) : Prop := ∀ w, ∃ a, (p w).1 = Resolved a.

(** The performance entries of a completed load of [name]. *)
Definition load_entries (name : string) : list PerfEntry :=
  [Mark ("mfe:" ++ name ++ ":load:start");
   Mark ("mfe:" ++ name ++ ":load:end");
   Measure ("mfe:" ++ name ++ ":load")
     ("mfe:" ++ name ++ ":load:start") ("mfe:" ++ name ++ ":load:end")].

(** The build id a poll result carries, when the poller accepts it: the
    answer is 2xx, its body parses to an object or an array, and its
    [buildId] is a number or a string of digits. *)
Definition build_id (o : FetchOutcome) : option string :=
  match payload o with
  | Some data =>
      if truthy (Some data) && typeof_object (Some data) then
        match buildIdOf data with
        | Some next => if String.eqb next "" then None else Some next
        | None => None
        end
      else None
  | None => None
  end.

(** Whether a build id differs from the recorded one. *)
Definition build_changed (recorded : option string) (next : string) : bool :=
  match recorded with
  | Some last_ => negb (String.eqb last_ "") && negb (String.eqb next last_)
  | None => false
  end.

(** The applications named by the error events among some reports. *)
Definition reported_errors (rs : list Report) : list string :=
  omap (fun r => match r with
                 | MfeError name _ => Some name
                 | AvailabilityChanged _ => None
                 end) rs.

(** What the handler keeps true: an application is reported once, only
    failed applications are reported, and no failed one is still listed as
    available. *)
Definition reports_consistent (s : ErrorState) : Prop :=
  NoDup (reported_errors (reports s))
  ∧ (∀ name, name ∈ reported_errors (reports s) → name ∈ failedApps s)
  ∧ (∀ available name,
       currentAvailableApps s = Some available → name ∈ failedApps s → name ∉ available).

(** The origins of a local development server: [http] or [https], the host
    [localhost] or [127.0.0.1], and no port or a port of one to five
    digits. *)
Definition local_dev_origin (origin : string) : Prop :=
  ∃ (scheme host : string) (port : list ascii),
    (scheme = "http" ∨ scheme = "https")
    ∧ (host = "localhost" ∨ host = "127.0.0.1")
    ∧ (length port <= 5)%nat
    ∧ Forall (fun c => is_digit c = true) port
    ∧ (origin = scheme ++ "://" ++ host
       ∨ (port ≠ [] ∧ origin = scheme ++ "://" ++ host ++ ":" ++ string_of_list_ascii port)).

(** The names stored under [mfe-disabled], as far as they can be read. *)
Definition stored_names (w : World) : list string :=
  match localStorage w with
  | Some store =>
      match getItem store "mfe-disabled" with
      | Some raw =>
          match JSON_parse raw with
          | Some (JArr l) => filter_strings l
          | _ => []
          end
      | None => []
      end
  | None => []
  end.

(** The handle [wrapModuleLifecycles] builds for a loaded module. *)
Definition wrapped (appName : string) (m : Module) : AppHandle :=
  {| h_bootstrap := wrapLifecycle appName Bootstrap (mod_bootstrap m);
     h_mount := wrapLifecycle appName Mount (mod_mount m);
     h_unmount := wrapLifecycle appName Unmount (mod_unmount m) |}.

(** Whether the answer to the probe of [detectModuleFormat] leads to a
    second request: a 206 answer whose readable head shows no marker. *)
Definition needs_full_fetch (o : FetchOutcome) : bool :=
  match o with
  | Answer res =>
      (status res =? 206)%Z
      && match body res with
         | Some head => ModuleFormat_eqb (analyzeSource head "" None) unknown
         | None => false
         end
  | NetworkError => false
  end.

(** Two worlds that differ in their performance entries only. *)
Definition same_but_marks (w w' : World) : Prop := ∃ m, w' = set_marks m w.

(** The number of requests for the auth build file in a request log. *)
Definition build_requests (log : list Request) : nat :=
  length (List.filter (fun r => match r with
                                | ReqFetch url _ _ _ => String.eqb url authBuildUrl
                                | _ => false
                                end) log).

(** The poll results among some signals of the auth build poller. *)
Definition build_results (signals : list BuildSignal) : list FetchOutcome :=
  omap (fun e => match e with BuildSettled o => Some o | _ => None end) signals.

(** The entries whose key is an array index, and the order JS enumerates
    them in. *)
Definition is_index {V} (kv : string * V) : Prop := is_Some (array_index kv.1).

Definition index_lt {V} (x y : string * V) : Prop :=
  match array_index x.1, array_index y.1 with
  | Some n, Some n' => (n < n')%N
  | _, _ => False
  end.

(** The order in which an object lists its own keys: the array indices by
    value, then the other keys. *)
Definition own_key_order {V} (o : list (string * V)) : Prop :=
  ∃ ix nx,
    o = (ix ++ nx)%list
    ∧ Forall is_index ix
    ∧ StronglySorted index_lt ix
    ∧ Forall (fun kv => ¬ is_index kv) nx.

(** The shape of an object filled by assignments in [localeCompare] order:
    its array indices [ix] in ascending order, then its other keys [nx] in
    [localeCompare] order, none of them [__proto__]. *)
Definition assigned_in_order (ix nx : list (string * DisabledMode)) : Prop :=
  Forall is_index ix
  ∧ StronglySorted index_lt ix
  ∧ Forall (fun kv => ¬ is_index kv) nx
  ∧ ("__proto__" ∉ map fst nx)
  ∧ NoDup (map fst nx)
  ∧ StronglySorted (fun x y => key_le x.1 y.1) nx.


(** * Properties *)

Set Default Proof Using "Type".

(** Drops the environment functions a goal does not mention, so that the
    decision procedures do not take them for implications. *)
Ltac drop_env :=
  repeat match goal with
         | H : ?T |- _ =>
             lazymatch type of T with
             | Prop => fail
             | _ => lazymatch T with _ → _ => clear H end
             end
         end.

(** ** Sets and sanitisation *)

Lemma Set_has_true (s : list string) x : Set_has s x = true ↔ x ∈ s.
Proof. unfold Set_has. apply bool_decide_eq_true. Qed.

Lemma Set_has_false (s : list string) x : Set_has s x = false ↔ x ∉ s.
Proof. unfold Set_has. apply bool_decide_eq_false. Qed.

Lemma elem_of_Set_add x y (s : list string) : x ∈ Set_add y s ↔ x = y ∨ x ∈ s.
Proof.
  unfold Set_add. destruct (Set_has s y) eqn:E.
  - apply Set_has_true in E. split; [auto | intros [->|]; auto].
  - rewrite elem_of_app, list_elem_of_singleton. (drop_env; tauto).
Qed.

Lemma elem_of_foldl_Set_add (l acc : list string) x :
  x ∈ foldl (fun s y => Set_add y s) acc l ↔ x ∈ acc ∨ x ∈ l.
Proof.
  revert acc. induction l as [|y l IH]; intros acc; simpl.
  - rewrite elem_of_nil. (drop_env; tauto).
  - rewrite IH, elem_of_Set_add, elem_of_cons. (drop_env; tauto).
Qed.

Lemma elem_of_Set_from (l : list string) x : x ∈ Set_from l ↔ x ∈ l.
Proof.
  unfold Set_from. rewrite elem_of_foldl_Set_add, elem_of_nil. (drop_env; tauto).
Qed.

Lemma NoDup_Set_add y (s : list string) : NoDup s → NoDup (Set_add y s).
Proof.
  intros Hs. unfold Set_add. destruct (Set_has s y) eqn:E; [done|].
  apply Set_has_false in E. apply NoDup_app. repeat split; [done | | apply NoDup_singleton].
  intros x Hx ->%list_elem_of_singleton. done.
Qed.

Lemma NoDup_Set_from (l : list string) : NoDup (Set_from l).
Proof.
  unfold Set_from. generalize (NoDup_nil_2 (A:=string)). generalize (@nil string).
  induction l as [|y l IH]; intros acc Hacc; simpl; [done|].
  apply IH, NoDup_Set_add, Hacc.
Qed.

(** A set built from a duplicate-free list is that list. *)
Lemma Set_from_NoDup_app (acc l : list string) :
  NoDup (acc ++ l)%list → foldl (fun s y => Set_add y s) acc l = (acc ++ l)%list.
Proof.
  revert acc. induction l as [|y l IH]; intros acc Hnd; simpl.
  - by rewrite app_nil_r.
  - assert (Set_add y acc = (acc ++ [y])%list) as ->.
    { unfold Set_add. destruct (Set_has acc y) eqn:E; [|done].
      apply Set_has_true in E. apply NoDup_app in Hnd as (_ & Hd & _).
      exfalso. apply (Hd y E). left. }
    rewrite IH; rewrite <- app_assoc; done.
Qed.

Lemma Set_from_NoDup (l : list string) : NoDup l → Set_from l = l.
Proof. intros H. unfold Set_from. by rewrite Set_from_NoDup_app. Qed.

Lemma elem_of_sanitizeDisabledApps names x :
  x ∈ sanitizeDisabledApps names ↔ x ∈ names ∧ x ∉ ALWAYS_ON_APPS.
Proof.
  unfold sanitizeDisabledApps.
  rewrite elem_of_Set_from, list_elem_of_In, filter_In, <- list_elem_of_In.
  rewrite negb_true_iff, Set_has_false. (drop_env; tauto).
Qed.

(** [setRuntimeDisabledApps] rebuilds one field and touches nothing else. *)
Lemma setRuntimeDisabledApps_eq disabled_ w :
  setRuntimeDisabledApps disabled_ w =
  set_runtimeDisabledApps
    (foldl (fun s name => if negb (Set_has ALWAYS_ON_APPS name) then Set_add name s else s)
           [] disabled_)
    w.
Proof.
  unfold setRuntimeDisabledApps.
  assert (∀ l w0,
    foldl (fun w name =>
             if negb (Set_has ALWAYS_ON_APPS name)
             then set_runtimeDisabledApps (Set_add name (runtimeDisabledApps w)) w
             else w) w0 l
    = set_runtimeDisabledApps
        (foldl (fun s name =>
                  if negb (Set_has ALWAYS_ON_APPS name) then Set_add name s else s)
               (runtimeDisabledApps w0) l) w0) as H.
  { induction l as [|name l IH]; intros w0; simpl; [by destruct w0|].
    rewrite IH. by destruct (negb (Set_has ALWAYS_ON_APPS name)). }
  by rewrite H.
Qed.

Lemma elem_of_setRuntimeDisabledApps disabled_ w x :
  x ∈ runtimeDisabledApps (setRuntimeDisabledApps disabled_ w)
  ↔ x ∈ disabled_ ∧ x ∉ ALWAYS_ON_APPS.
Proof.
  rewrite setRuntimeDisabledApps_eq. cbn.
  assert (∀ acc, x ∈ foldl (fun s name =>
                    if negb (Set_has ALWAYS_ON_APPS name) then Set_add name s else s)
                    acc disabled_
                 ↔ x ∈ acc ∨ (x ∈ disabled_ ∧ x ∉ ALWAYS_ON_APPS)) as H.
  { induction disabled_ as [|name l IH]; intros acc; simpl.
    - rewrite elem_of_nil. (drop_env; tauto).
    - rewrite IH, elem_of_cons. destruct (Set_has ALWAYS_ON_APPS name) eqn:E; simpl.
      + apply Set_has_true in E. split; [(drop_env; tauto)|].
        intros [|[[->|]]]; (drop_env; tauto).
      + apply Set_has_false in E. rewrite elem_of_Set_add.
        split; [intros [[->|]|]; (drop_env; tauto) | (drop_env; tauto)]. }
  rewrite H, elem_of_nil. (drop_env; tauto).
Qed.

(** ** The remote toggle state *)

Lemma fetch_eq url method range timeoutMs w :
  fetch url method range timeoutMs w
  = fetched (next_outcome w) (sent (ReqFetch url method range timeoutMs) w).
Proof.
  unfold fetch, next_outcome, sent. cbn.
  destruct (net w) as [|o rest] eqn:E; cbn; [|done].
  f_equal. destruct w; cbn in *. by subst.
Qed.

Lemma sanitizeDisabledApps_nil : sanitizeDisabledApps [] = [].
Proof. reflexivity. Qed.

Lemma getServerToggleState_eq w :
  getServerToggleState w
  = (Resolved (serverToggleOf (next_outcome w)),
     sent (ReqFetch toggleUrl "GET" None None) w).
Proof.
  unfold getServerToggleState, catch, andThen. rewrite fetch_eq.
  destruct (next_outcome w) as [res|]; cbn; [|done].
  destruct (ok res); cbn; [|done].
  unfold json, text, andThen. destruct (body res) as [s|]; cbn; [|done].
  destruct (JSON_parse s); done.
Qed.

Lemma serverToggleOf_payload o :
  serverToggleOf o =
  match payload o with
  | Some data => toggleStateOf (Some data)
  | None => {| disabled := []; disabledMode := None |}
  end.
Proof.
  destruct o as [res|]; cbn; [|done].
  destruct (ok res); [|done]. destruct (body res) as [s|]; cbn; [|done].
  by destruct (JSON_parse s).
Qed.

Lemma elem_of_filter_strings (l : list JSON) x : x ∈ filter_strings l ↔ JStr x ∈ l.
Proof.
  unfold filter_strings. rewrite list_elem_of_omap. split.
  - intros (v & Hv & Hs). destruct v; try done. by simplify_eq.
  - intros H. by exists (JStr x).
Qed.

Lemma NoDup_sanitizeDisabledApps names : NoDup (sanitizeDisabledApps names).
Proof. apply NoDup_Set_from. Qed.

(** C8 (as amended).  [getServerToggleState] never rejects.  A failed
    request, a non-2xx answer, an unreadable or unparseable body and a body
    that is not a plain object all give the state with an empty disabled
    list and no disabled mode.  A plain object is not emptied as a whole:
    its pieces are judged one by one.  A [disabled] field that is not an
    array gives an empty list; of an array exactly the string entries
    outside the exemption set are kept, once each, every other entry being
    dropped, so that the list is empty only when no such entry is left; and
    the disabled mode is the normal form of the [disabledMode] field,
    whatever the [disabled] field is.  The state is the empty one when no
    string entry and no valid disabled mode remain. *)
Theorem getServerToggleState_lenient w :
  ∃ state,
    (getServerToggleState w).1 = Resolved state
    ∧ (payload (next_outcome w) = None →
       state = {| disabled := []; disabledMode := None |})
    ∧ (∀ data, payload (next_outcome w) = Some data →
         (∀ fields, data ≠ JObj fields) →
         state = {| disabled := []; disabledMode := None |})
    ∧ (∀ fields, payload (next_outcome w) = Some (JObj fields) →
         disabledMode state = normalizeDisabledModeConfig (obj_get "disabledMode" fields)
         ∧ NoDup (disabled state)
         ∧ ((∀ names, obj_get "disabled" fields ≠ Some (JArr names)) →
            disabled state = [])
         ∧ (∀ names, obj_get "disabled" fields = Some (JArr names) →
            (filter_strings names = [] → disabled state = [])
            ∧ ∀ x, x ∈ disabled state ↔ JStr x ∈ names ∧ x ∉ ALWAYS_ON_APPS)
         ∧ (normalizeDisabledModeConfig (obj_get "disabledMode" fields) = None →
            (∀ names, obj_get "disabled" fields = Some (JArr names) →
                      filter_strings names = []) →
            state = {| disabled := []; disabledMode := None |})).
Proof.
  rewrite getServerToggleState_eq. cbn [fst].
  eexists; split; [reflexivity|]. rewrite serverToggleOf_payload.
  split; [by intros ->|]. split.
  - intros data -> Hno. unfold toggleStateOf.
    destruct data as [|b|n|s|l|fs]; cbn; rewrite ?orb_true_r; try done.
    by destruct (Hno fs).
  - intros fields ->. cbn. split; [done|].
    destruct (obj_get "disabled" fields) as [[| | | |items|]|] eqn:E; cbn;
      try (split; [apply NoDup_nil_2
                  | split; [done | split; [by intros names [=]
                                          | by intros ->]]]).
    split; [apply NoDup_sanitizeDisabledApps|]. split.
    + intros Hno. by destruct (Hno items).
    + split.
      * intros names [= <-]. split.
        -- by intros ->.
        -- intros x. by rewrite elem_of_sanitizeDisabledApps, elem_of_filter_strings.
      * intros -> Hall. by rewrite (Hall items eq_refl).
Qed.

(** ** Frame facts for the runtime-disabled set *)

Lemma safeReload_runtimeDisabledApps w :
  runtimeDisabledApps (safeReload w) = runtimeDisabledApps w.
Proof. unfold safeReload. by destruct (reloadScheduled w). Qed.

Lemma poll_runtimeDisabledApps w :
  runtimeDisabledApps (poll w) = runtimeDisabledApps w.
Proof.
  unfold poll, schedule, set_inFlight, update_poller.
  destruct (toggleWatch w) as [p|]; [|done].
  destruct (inFlight p); [done|]. by destruct (hidden w).
Qed.

Lemma activate_runtimeDisabledApps applications w :
  runtimeDisabledApps (activate applications w) = runtimeDisabledApps w.
Proof. unfold activate, watchServerToggle. by rewrite poll_runtimeDisabledApps. Qed.

Lemma emitDisabledApps_runtimeDisabledApps server local mode w :
  runtimeDisabledApps (emitDisabledApps server local mode w) = runtimeDisabledApps w.
Proof.
  unfold emitDisabledApps, localStorage_setItem. cbn.
  destruct mode; cbn; [|done]. by destruct (localStorage w).
Qed.

Lemma emitDisabledApps_dispatched server local mode w :
  dispatched (emitDisabledApps server local mode w)
  = (dispatched w
     ++ [MfeToggle (sanitizeDisabledApps
                      (sanitizeDisabledApps server ++ sanitizeDisabledApps local))
                   mode])%list.
Proof.
  unfold emitDisabledApps, localStorage_setItem. cbn.
  destruct mode; cbn; [|done]. by destruct (localStorage w).
Qed.

Lemma emitDisabledApps_mfeServerDisabled server local mode w :
  mfeServerDisabled (emitDisabledApps server local mode w)
  = Some (sanitizeDisabledApps server).
Proof.
  unfold emitDisabledApps, localStorage_setItem. cbn.
  destruct mode; cbn; [|done]. by destruct (localStorage w).
Qed.

Lemma writeAvailabilityCache_runtimeDisabledApps a d m w :
  runtimeDisabledApps (writeAvailabilityCache a d m w) = runtimeDisabledApps w.
Proof.
  unfold writeAvailabilityCache, sessionStorage_setItem. by destruct (sessionStorage w).
Qed.

Lemma onAvailabilityChecked_runtimeDisabledApps cached availability serverToggle w :
  runtimeDisabledApps (onAvailabilityChecked cached availability serverToggle w)
  = runtimeDisabledApps
      (setRuntimeDisabledApps
         (sanitizeDisabledApps
            (Set_from (disabled serverToggle) ++ getDisabledApps w)) w).
Proof.
  unfold onAvailabilityChecked.
  destruct cached as [cached|].
  - match goal with |- context [if ?b then _ else _] => destruct b end;
      rewrite ?safeReload_runtimeDisabledApps, emitDisabledApps_runtimeDisabledApps;
      cbn; by rewrite writeAvailabilityCache_runtimeDisabledApps.
  - rewrite activate_runtimeDisabledApps, emitDisabledApps_runtimeDisabledApps.
    cbn. by rewrite writeAvailabilityCache_runtimeDisabledApps.
Qed.

(** Probes never reject, so neither does a batch of them. *)
Lemma isUrlAvailable_resolves url timeoutMs w :
  ∃ b w', isUrlAvailable url timeoutMs w = (Resolved b, w').
Proof.
  unfold isUrlAvailable. destruct (URL_protocol url) as [protocol|]; [|by eexists _, _].
  destruct (_ && _); [by eexists _, _|].
  unfold catch, andThen. rewrite fetch_eq.
  destruct (next_outcome w); cbn; by eexists _, _.
Qed.

Lemma all_resolves {A} (ps : list (Async A)) :
  Forall (fun p => ∀ w, ∃ a w', p w = (Resolved a, w')) ps →
  ∀ w, ∃ l w', all ps w = (Resolved l, w').
Proof.
  induction 1 as [|p ps Hp _ IH]; intros w; cbn; [by eexists _, _|].
  unfold andThen at 1. destruct (Hp w) as (a & w1 & ->).
  unfold andThen at 1. destruct (IH w1) as (l & w2 & ->). by eexists _, _.
Qed.

Lemma runAvailabilityCheck_eq cached w :
  ∃ availability serverToggle w',
    runAvailabilityCheck cached w
    = (Resolved tt, onAvailabilityChecked cached availability serverToggle w').
Proof.
  unfold runAvailabilityCheck. unfold andThen at 1.
  edestruct (all_resolves
               (map (fun entry =>
                       let* ok_ := isUrlAvailable entry.2 700 in resolve (entry.1, ok_))
                    localAppUrls)) as (availability & w1 & ->).
  { apply Forall_forall. intros p (entry & -> & _)%list_elem_of_fmap w0.
    unfold andThen. destruct (isUrlAvailable_resolves entry.2 700 w0) as (b & w' & ->).
    by eexists _, _. }
  unfold andThen. rewrite getServerToggleState_eq. by eexists _, _, _.
Qed.

Lemma set_recheckTimer_runtimeDisabledApps v w :
  runtimeDisabledApps (set_recheckTimer v w) = runtimeDisabledApps w.
Proof. reflexivity. Qed.

Lemma emitAvailability_runtimeDisabledApps a w :
  runtimeDisabledApps (emitAvailability a w) = runtimeDisabledApps w.
Proof. reflexivity. Qed.

(** Every start-up path ends with the set installed by
    [setRuntimeDisabledApps]. *)
Lemma bootstrap_runtimeDisabledApps w :
  ∃ disabled_ w',
    runtimeDisabledApps (bootstrap w).2
    = runtimeDisabledApps (setRuntimeDisabledApps disabled_ w').
Proof.
  unfold bootstrap. destruct isLocalhost; unfold negb.
  - destruct (readAvailabilityCache w) as [cached|].
    + unfold snd. rewrite set_recheckTimer_runtimeDisabledApps,
        activate_runtimeDisabledApps, emitDisabledApps_runtimeDisabledApps,
        emitAvailability_runtimeDisabledApps. by eexists _, _.
    + destruct (runAvailabilityCheck_eq None w) as (a & t & w' & ->). unfold snd.
      rewrite onAvailabilityChecked_runtimeDisabledApps. by eexists _, _.
  - unfold andThen. rewrite getServerToggleState_eq. unfold effect, snd, onServerToggle.
    rewrite activate_runtimeDisabledApps, emitDisabledApps_runtimeDisabledApps.
    by eexists _, _.
Qed.

(** C1.  No sanitising step lets an always-on name through: not
    [sanitizeDisabledApps] on any input, not the set installed by
    [setRuntimeDisabledApps], not the lists published by
    [emitDisabledApps], and so not the runtime-disabled set left by the
    start-up reconciliation or by a later re-probe, whatever the remote
    service, the local storage and the probes answered. *)
Theorem always_on_never_disabled :
  (∀ names, Forall (fun x => x ∉ ALWAYS_ON_APPS) (sanitizeDisabledApps names))
  ∧ (∀ disabled_ w,
       Forall (fun x => x ∉ ALWAYS_ON_APPS)
              (runtimeDisabledApps (setRuntimeDisabledApps disabled_ w)))
  ∧ (∀ server local mode w,
       ∃ published exposed,
         dispatched (emitDisabledApps server local mode w)
         = (dispatched w ++ [MfeToggle published mode])%list
         ∧ mfeServerDisabled (emitDisabledApps server local mode w) = Some exposed
         ∧ Forall (fun x => x ∉ ALWAYS_ON_APPS) published
         ∧ Forall (fun x => x ∉ ALWAYS_ON_APPS) exposed)
  ∧ (∀ w, Forall (fun x => x ∉ ALWAYS_ON_APPS) (runtimeDisabledApps (bootstrap w).2))
  ∧ (∀ cached availability serverToggle w,
       Forall (fun x => x ∉ ALWAYS_ON_APPS)
              (runtimeDisabledApps
                 (onAvailabilityChecked cached availability serverToggle w))).
Proof.
  assert (∀ names, Forall (fun x => x ∉ ALWAYS_ON_APPS) (sanitizeDisabledApps names)) as Hs.
  { intros names. apply Forall_forall. by intros x [_ ?]%elem_of_sanitizeDisabledApps. }
  assert (∀ disabled_ w,
       Forall (fun x => x ∉ ALWAYS_ON_APPS)
              (runtimeDisabledApps (setRuntimeDisabledApps disabled_ w))) as Hr.
  { intros d w. apply Forall_forall. by intros x [_ ?]%elem_of_setRuntimeDisabledApps. }
  assert (∀ cached availability serverToggle w,
       Forall (fun x => x ∉ ALWAYS_ON_APPS)
              (runtimeDisabledApps
                 (onAvailabilityChecked cached availability serverToggle w))) as Hc.
  { intros. rewrite onAvailabilityChecked_runtimeDisabledApps. apply Hr. }
  repeat split; try done.
  - intros server local mode w.
    exists (sanitizeDisabledApps
              (sanitizeDisabledApps server ++ sanitizeDisabledApps local)),
           (sanitizeDisabledApps server).
    rewrite emitDisabledApps_dispatched, emitDisabledApps_mfeServerDisabled.
    repeat split; try done; apply Hs.
  - intros w. destruct (bootstrap_runtimeDisabledApps w) as (d & w' & ->). apply Hr.
Qed.

(** ** The disabled short-circuit of the application loader *)

Lemma poll_dispatched w : dispatched (poll w) = dispatched w.
Proof.
  unfold poll, schedule, set_inFlight, update_poller.
  destruct (toggleWatch w) as [p|]; [|done].
  destruct (inFlight p); [done|]. by destruct (hidden w).
Qed.

Lemma activate_dispatched applications w :
  dispatched (activate applications w) = dispatched w.
Proof. unfold activate, watchServerToggle. by rewrite poll_dispatched. Qed.

(** A name in the runtime-disabled set is answered at once with the no-op
    handle; only performance entries are recorded. *)
Lemma loadApp_disabled name w :
  name ∈ runtimeDisabledApps w →
  loadApp name w
  = (Resolved (createUnavailableApp name),
     finalizeLoadMetrics name (performance_mark ("mfe:" ++ name ++ ":load:start") w)).
Proof.
  intros Hin. unfold loadApp, andThen, effect, peek.
  assert (Set_has (runtimeDisabledApps
                     (performance_mark ("mfe:" ++ name ++ ":load:start") w)) name = true)
    as ->; [|done].
  apply Set_has_true. unfold performance_mark. by destruct hasPerformance.
Qed.

Lemma finalizeLoadMetrics_marks_only name w :
  ∃ m, finalizeLoadMetrics name w = set_marks m w.
Proof.
  unfold finalizeLoadMetrics, performance_measure, performance_mark.
  destruct hasPerformance; [eexists; unfold set_marks; cbn; reflexivity|].
  exists (marks w). by destruct w.
Qed.

Lemma performance_mark_marks_only name w :
  ∃ m, performance_mark name w = set_marks m w.
Proof.
  unfold performance_mark.
  destruct hasPerformance; [eexists; unfold set_marks; cbn; reflexivity|].
  exists (marks w). by destruct w.
Qed.

(** C4.  With an empty exemption set, a remote answer whose body parses to
    an object with the single disabled name [@org/catalog] and an empty
    device-local list: the remote state is that one name; the callback of
    the production start-up and the one of the development probe both
    install exactly that name as the runtime-disabled set, and the former
    publishes exactly that name; and [loadApp] for a runtime-disabled name
    resolves at once to the no-op handle, whose three lifecycle functions
    resolve without any effect, leaving every part of the world but the
    performance entries as it was, the request log included. *)
Theorem disabled_catalog_is_short_circuited w res s :
  ALWAYS_ON_APPS = [] →
  next_outcome w = Answer res →
  ok res = true →
  body res = Some s →
  JSON_parse s = Some (JObj [("disabled", JArr [JStr "@org/catalog"])]) →
  (getServerToggleState w).1
  = Resolved {| disabled := ["@org/catalog"]; disabledMode := None |}
  ∧ (∀ w0,
       runtimeDisabledApps
         (onServerToggle [] {| disabled := ["@org/catalog"]; disabledMode := None |} w0)
       = ["@org/catalog"]
       ∧ dispatched
           (onServerToggle [] {| disabled := ["@org/catalog"]; disabledMode := None |} w0)
         = (dispatched w0 ++ [MfeToggle ["@org/catalog"] None])%list)
  ∧ (∀ cached availability w0,
       getDisabledApps w0 = [] →
       runtimeDisabledApps
         (onAvailabilityChecked cached availability
            {| disabled := ["@org/catalog"]; disabledMode := None |} w0)
       = ["@org/catalog"])
  ∧ (∀ w1, "@org/catalog" ∈ runtimeDisabledApps w1 →
       ∃ m,
         loadApp "@org/catalog" w1
         = (Resolved (createUnavailableApp "@org/catalog"), set_marks m w1)
         ∧ requests (set_marks m w1) = requests w1)
  ∧ h_bootstrap (createUnavailableApp "@org/catalog") = LOne NoopFn
  ∧ h_mount (createUnavailableApp "@org/catalog") = LOne NoopFn
  ∧ h_unmount (createUnavailableApp "@org/catalog") = LOne NoopFn
  ∧ (∀ w2, invoke NoopFn w2 = (Resolved tt, w2)).
Proof.
  intros Hon Hnext Hok Hbody Hparse.
  assert (serverToggleOf (next_outcome w)
          = {| disabled := ["@org/catalog"]; disabledMode := None |}) as Hst.
  { rewrite Hnext. cbn. rewrite Hok, Hbody, Hparse. unfold toggleStateOf. cbn.
    unfold sanitizeDisabledApps. by rewrite Hon. }
  assert (∀ w0, runtimeDisabledApps
                  (setRuntimeDisabledApps (sanitizeDisabledApps ["@org/catalog"]) w0)
                = ["@org/catalog"]) as Hset.
  { intros w0. rewrite setRuntimeDisabledApps_eq. unfold sanitizeDisabledApps.
    by rewrite Hon. }
  split; [by rewrite getServerToggleState_eq, Hst|].
  split; [|split; [|split]].
  - intros w0. unfold onServerToggle. cbn [disabled disabledMode app].
    rewrite activate_runtimeDisabledApps, emitDisabledApps_runtimeDisabledApps,
      activate_dispatched, emitDisabledApps_dispatched.
    split; [apply Hset|]. rewrite setRuntimeDisabledApps_eq.
    unfold sanitizeDisabledApps. by rewrite Hon.
  - intros cached availability w0 Hl0.
    rewrite onAvailabilityChecked_runtimeDisabledApps, Hl0. apply Hset.
  - intros w1 Hin. rewrite loadApp_disabled by done.
    destruct (performance_mark_marks_only ("mfe:" ++ "@org/catalog" ++ ":load:start") w1)
      as [m1 ->].
    destruct (finalizeLoadMetrics_marks_only "@org/catalog" (set_marks m1 w1)) as [m2 ->].
    by exists m2.
  - done.
Qed.

(** ** The reload guard *)

Lemma guarded_refl w : guarded w w.
Proof. by left. Qed.

Lemma guarded_safeReload w : guarded w (safeReload w).
Proof. by right. Qed.

Lemma guarded_then_frame w w1 w' :
  guarded w w1 → guard w' = guard w1 → guarded w w'.
Proof. unfold guarded. intros [H|H] E; [left|right]; congruence. Qed.

Lemma guard_safeReload_congr w1 w :
  guard w1 = guard w → guard (safeReload w1) = guard (safeReload w).
Proof.
  unfold guard, safeReload. intros [= Hs Hr]. rewrite Hs.
  destruct (reloadScheduled w) eqn:E; cbn; congruence.
Qed.

Lemma guard_setRuntimeDisabledApps d w : guard (setRuntimeDisabledApps d w) = guard w.
Proof. by rewrite setRuntimeDisabledApps_eq. Qed.

Lemma guard_writeAvailabilityCache a d m w : guard (writeAvailabilityCache a d m w) = guard w.
Proof.
  unfold writeAvailabilityCache, sessionStorage_setItem. by destruct (sessionStorage w).
Qed.

Lemma guard_emitDisabledApps server local mode w :
  guard (emitDisabledApps server local mode w) = guard w.
Proof.
  unfold emitDisabledApps, localStorage_setItem. cbn.
  destruct mode; cbn; [|done]. by destruct (localStorage w).
Qed.

Lemma guard_poll w : guard (poll w) = guard w.
Proof.
  unfold poll, schedule, set_inFlight, update_poller.
  destruct (toggleWatch w) as [p|]; [|done].
  destruct (inFlight p); [done|]. by destruct (hidden w).
Qed.

Lemma guarded_onStorage key w : guarded w (onStorage key w).
Proof.
  unfold onStorage. destruct key as [k|]; [|apply guarded_refl].
  destruct (_ || _); [apply guarded_safeReload | apply guarded_refl].
Qed.

Lemma guarded_onBroadcast data w : guarded w (onBroadcast data w).
Proof.
  unfold onBroadcast. destruct (_ && _); [apply guarded_safeReload | apply guarded_refl].
Qed.

(** What [onAvailabilityChecked] does to the guard when a snapshot was used. *)
Lemma guard_onAvailabilityChecked cached availability serverToggle w :
  guard (onAvailabilityChecked (Some cached) availability serverToggle w)
  = if diverged cached (Set_from (map fst (List.filter snd availability)))
         (Set_from (disabled serverToggle)) (disabledMode serverToggle)
    then guard (safeReload w) else guard w.
Proof.
  unfold onAvailabilityChecked.
  set (w1 := emitDisabledApps _ _ _ _).
  assert (guard w1 = guard w) as Hw1.
  { unfold w1. rewrite guard_emitDisabledApps. unfold emitAvailability, guard. cbn.
    fold (guard (writeAvailabilityCache
                   (Set_from (map fst (List.filter snd availability)))
                   (Set_from (disabled serverToggle)) (disabledMode serverToggle)
                   (setRuntimeDisabledApps
                      (sanitizeDisabledApps
                         (Set_from (disabled serverToggle) ++ getDisabledApps w)) w))).
    by rewrite guard_writeAvailabilityCache, guard_setRuntimeDisabledApps. }
  destruct (diverged _ _ _ _); [|done]. by apply guard_safeReload_congr.
Qed.

Lemma guarded_onAvailabilityChecked cached availability serverToggle w :
  guarded w (onAvailabilityChecked (Some cached) availability serverToggle w).
Proof.
  unfold guarded. rewrite guard_onAvailabilityChecked. destruct (diverged _ _ _ _); auto.
Qed.

Lemma guard_update_poller f w : guard (update_poller f w) = guard w.
Proof. reflexivity. Qed.

Lemma guarded_poll_settled o w : guarded w (poll_settled o w).
Proof.
  unfold poll_settled. destruct (toggleWatch w) as [p|] eqn:Hp; [|apply guarded_refl].
  destruct (inFlight p); cbn [negb]; [|apply guarded_refl].
  unfold finally, catch, andThen, fetched.
  destruct o as [res|]; cbn; [|by left].
  destruct (ok res); cbn.
  - unfold json, text, andThen. destruct (body res) as [s|]; cbn; [|by left].
    destruct (JSON_parse s) as [data|]; cbn; [|by left].
    destruct (_ || _); cbn; [by left|].
    rewrite Hp. cbn.
    destruct (_ && _); cbn.
    + eapply guarded_then_frame; [apply guarded_safeReload|].
      unfold safeReload. by destruct (reloadScheduled w).
    + by left.
  - by left.
Qed.

Lemma guarded_deliver w s : guarded w (deliver w s).
Proof.
  destruct s; cbn.
  - apply guarded_onStorage.
  - apply guarded_onBroadcast.
  - apply guarded_onAvailabilityChecked.
  - apply guarded_poll_settled.
  - left. apply guard_poll.
  - unfold onVisibility. cbn. destruct h; cbn; [by left|].
    left. by rewrite guard_poll.
Qed.

(** Once a reload is scheduled, no signal issues another one. *)
Lemma deliver_all_scheduled signals w :
  reloadScheduled w = true → guard (deliver_all signals w) = guard w.
Proof.
  revert w. induction signals as [|s signals IH]; intros w Hw; [done|].
  change (deliver_all (s :: signals) w) with (deliver_all signals (deliver w s)).
  assert (guard (deliver w s) = guard w) as E.
  { destruct (guarded_deliver w s) as [H|H]; [done|].
    rewrite H. unfold guard, safeReload. rewrite Hw. cbn. by rewrite Hw. }
  rewrite IH; [done|]. unfold guard in E. injection E as E1 E2. congruence.
Qed.

(** At most one reload is ever issued. *)
Lemma deliver_all_at_most_once signals w :
  reloadScheduled w = false →
  (reloads (deliver_all signals w) ≤ S (reloads w))%nat.
Proof.
  revert w. induction signals as [|s signals IH]; intros w Hw; [cbn; lia|].
  change (deliver_all (s :: signals) w) with (deliver_all signals (deliver w s)).
  destruct (guarded_deliver w s) as [H|H].
  - unfold guard in H. injection H as Hs Hr. rewrite <- Hr. apply IH. congruence.
  - unfold guard, safeReload in H. rewrite Hw in H. cbn in H. injection H as Hs Hr.
    pose proof (deliver_all_scheduled signals (deliver w s) Hs) as E.
    unfold guard in E. injection E as _ E. rewrite E, Hr. lia.
Qed.

(** C5.  A cached snapshot with available set [{A, B}] and no disabled
    name, against a fresh probe with available set [{A}] and no disabled
    name: the comparison finds the divergence, the check issues one reload,
    and whatever signals follow (storage events, broadcast messages, further
    checks, poll results) the number of reloads issued stays at that one. *)
Theorem divergence_reloads_exactly_once
    (A B : string) cached availability serverToggle w signals :
  snap_available cached = [A; B] →
  snap_disabled cached = [] →
  Set_from (map fst (List.filter snd availability)) = [A] →
  disabled serverToggle = [] →
  reloadScheduled w = false →
  diverged cached [A] [] (disabledMode serverToggle) = true
  ∧ reloads (onAvailabilityChecked (Some cached) availability serverToggle w)
    = S (reloads w)
  ∧ reloads (deliver_all signals
               (onAvailabilityChecked (Some cached) availability serverToggle w))
    = S (reloads w).
Proof.
  intros Ha Hd Hfresh Hsrv Hw.
  assert (diverged cached [A] [] (disabledMode serverToggle) = true) as Hdiv.
  { unfold diverged. by rewrite Ha. }
  set (w' := onAvailabilityChecked (Some cached) availability serverToggle w).
  assert (guard w' = (true, S (reloads w))) as G.
  { unfold w'. rewrite guard_onAvailabilityChecked, Hfresh, Hsrv.
    change (Set_from []) with (@nil string). rewrite Hdiv.
    unfold guard, safeReload. by rewrite Hw. }
  unfold guard in G. injection G as Gs Gr. split; [done|]. split; [done|].
  pose proof (deliver_all_scheduled signals w' Gs) as E.
  unfold guard in E. injection E as _ E. by rewrite E.
Qed.

(** ** The remote toggle poller *)

Lemma baseline_poll w : baseline (poll w) = baseline w.
Proof.
  unfold baseline, poll, schedule, set_inFlight, update_poller.
  destruct (toggleWatch w) as [p|] eqn:Hp; rewrite ?Hp; [|done].
  destruct (inFlight p); cbn; rewrite ?Hp; [done|].
  destruct (hidden w); cbn; by rewrite ?Hp.
Qed.

Lemma baseline_onVisibility h w : baseline (onVisibility h w) = baseline w.
Proof.
  unfold onVisibility. cbn. destruct h; cbn; [done|]. by rewrite baseline_poll.
Qed.

Lemma guard_onVisibility h w : guard (onVisibility h w) = guard w.
Proof.
  unfold onVisibility. cbn. destruct h; cbn; [done|]. by rewrite guard_poll.
Qed.

Lemma poll_settled_idle o w :
  (∀ p, toggleWatch w = Some p → inFlight p = false) → poll_settled o w = w.
Proof.
  intros H. unfold poll_settled. destruct (toggleWatch w) as [p|]; [|done].
  by rewrite (H p eq_refl).
Qed.

(** One settled poll request: what becomes of the baseline and of the guard. *)
Lemma poll_settled_spec o w p :
  toggleWatch w = Some p →
  inFlight p = true →
  baseline (poll_settled o w)
  = match valid_payload o with
    | Some next => next
    | None => last p
    end
  ∧ guard (poll_settled o w)
    = match valid_payload o with
      | Some next =>
          if negb (String.eqb (last p) "") && negb (String.eqb next (last p))
          then guard (safeReload w) else guard w
      | None => guard w
      end.
Proof.
  intros Hp Hf. unfold poll_settled, valid_payload, payload. rewrite Hp, Hf.
  unfold finally, catch, andThen, fetched, baseline, negb at 1.
  destruct o as [res|]; cbn -[truthy typeof_object];
    [|rewrite ?Hp; split; reflexivity].
  destruct (ok res);
    [cbn -[truthy typeof_object] | cbn; rewrite ?Hp; split; reflexivity].
  unfold json, text, andThen.
  destruct (body res) as [s|]; cbn -[truthy typeof_object];
    [|rewrite ?Hp; split; reflexivity].
  destruct (JSON_parse s) as [data|]; cbn -[truthy typeof_object];
    [|rewrite ?Hp; split; reflexivity].
  rewrite <- negb_andb.
  destruct (truthy (Some data) && typeof_object (Some data)); cbn;
    [|rewrite ?Hp; split; reflexivity].
  rewrite ?Hp. cbn.
  destruct (negb (String.eqb (last p) "") && negb (String.eqb (JSON_stringify data) (last p)));
    cbn.
  - unfold safeReload. destruct (reloadScheduled w); cbn; rewrite ?Hp; split; reflexivity.
  - rewrite ?Hp; split; reflexivity.
Qed.

(** A poll result that is not accepted changes neither baseline nor guard;
    an accepted one met without a baseline only records it. *)
Lemma poll_settled_quiet o w :
  valid_payload o = None ∨ baseline w = "" →
  guard (poll_settled o w) = guard w
  ∧ (valid_payload o = None → baseline (poll_settled o w) = baseline w).
Proof.
  intros H. destruct (toggleWatch w) as [p|] eqn:Hp.
  - destruct (inFlight p) eqn:Hf.
    + destruct (poll_settled_spec o w p Hp Hf) as [Hb Hg]. rewrite Hb, Hg.
      unfold baseline in *. rewrite Hp in *. cbn in *.
      destruct (valid_payload o) as [next|]; [|done].
      destruct H as [H|H]; [done|]. by rewrite H.
    + rewrite poll_settled_idle; [done|]. intros p' Hp'. congruence.
  - rewrite poll_settled_idle; [done|]. intros p' Hp'. congruence.
Qed.

Lemma accepted_payloads_cons s signals :
  accepted_payloads (s :: signals)
  = (match s with
     | PollSettled o => option_list (valid_payload o)
     | _ => []
     end ++ accepted_payloads signals)%list.
Proof.
  unfold accepted_payloads. cbn [omap list_omap]. destruct s as [| | |o| |]; try done.
  by destruct (valid_payload o).
Qed.

(** When every accepted payload carried by the poller's signals serialises
    to the same text, and the baseline is empty or that text already, the
    guard is never touched. *)
Lemma same_payloads_never_reload signals b w :
  Forall (fun s => poller_signal s = true) signals →
  Forall (fun x => x = b) (accepted_payloads signals) →
  baseline w = "" ∨ baseline w = b →
  guard (deliver_all signals w) = guard w.
Proof.
  intros Hsig. revert w. induction Hsig as [|s signals Hs _ IH]; intros w Hall Hb; [done|].
  change (deliver_all (s :: signals) w) with (deliver_all signals (deliver w s)).
  rewrite accepted_payloads_cons in Hall. apply Forall_app in Hall as [Hhead Hall].
  destruct s as [| | |o| |h]; try done; cbn [deliver].
  - destruct (toggleWatch w) as [p|] eqn:Hp.
    + destruct (inFlight p) eqn:Hf.
      * destruct (poll_settled_spec o w p Hp Hf) as [Hbase Hg].
        unfold baseline in Hb. rewrite Hp in Hb. simpl in Hb.
        destruct (valid_payload o) as [next|]; cbn in Hhead.
        -- apply Forall_cons in Hhead as [-> _].
           rewrite IH, Hg; [|done|by right].
           destruct Hb as [Hb | Hb]; rewrite Hb; [done|].
           by rewrite String.eqb_refl, andb_false_r.
        -- rewrite IH, Hg; [done..|]. by rewrite Hbase.
      * rewrite poll_settled_idle; [|intros p' Hp'; congruence]. by apply IH.
    + rewrite poll_settled_idle; [|intros p' Hp'; congruence]. by apply IH.
  - rewrite IH, guard_poll; [done..|]. by rewrite baseline_poll.
  - rewrite IH, guard_onVisibility; [done..|]. by rewrite baseline_onVisibility.
Qed.

Lemma baseline_watchServerToggle w : baseline (watchServerToggle w) = "".
Proof. unfold watchServerToggle. by rewrite baseline_poll. Qed.

(** C10.  A settled poll request whose result is not accepted (failed,
    non-2xx, unparseable, or not an object) leaves baseline and reload guard
    alone; an accepted payload becomes the baseline, and asks for a reload
    only when a baseline was already recorded and serialises differently.
    So from the start of the poller, signals whose accepted payloads all
    serialise alike, a single first payload in particular, never issue a
    reload. *)
Theorem poller_first_payload_only_records_baseline :
  (∀ o w p,
     toggleWatch w = Some p →
     inFlight p = true →
     match valid_payload o with
     | None =>
         baseline (poll_settled o w) = last p
         ∧ guard (poll_settled o w) = guard w
     | Some next =>
         baseline (poll_settled o w) = next
         ∧ guard (poll_settled o w)
           = if negb (String.eqb (last p) "") && negb (String.eqb next (last p))
             then guard (safeReload w) else guard w
     end)
  ∧ (∀ signals b w0,
       Forall (fun s => poller_signal s = true) signals →
       Forall (fun x => x = b) (accepted_payloads signals) →
       reloads (deliver_all signals (watchServerToggle w0)) = reloads w0
       ∧ reloadScheduled (deliver_all signals (watchServerToggle w0))
         = reloadScheduled w0)
  ∧ (∀ signals w0,
       Forall (fun s => poller_signal s = true) signals →
       (length (accepted_payloads signals) ≤ 1)%nat →
       reloads (deliver_all signals (watchServerToggle w0)) = reloads w0).
Proof.
  assert (∀ signals b w0,
       Forall (fun s => poller_signal s = true) signals →
       Forall (fun x => x = b) (accepted_payloads signals) →
       reloads (deliver_all signals (watchServerToggle w0)) = reloads w0
       ∧ reloadScheduled (deliver_all signals (watchServerToggle w0))
         = reloadScheduled w0) as Hsame.
  { intros signals b w0 Hsig Hall.
    pose proof (same_payloads_never_reload signals b (watchServerToggle w0) Hsig Hall) as G.
    rewrite baseline_watchServerToggle in G. specialize (G (or_introl eq_refl)).
    assert (guard (watchServerToggle w0) = guard w0) as G0.
    { unfold watchServerToggle. by rewrite guard_poll. }
    rewrite G0 in G. unfold guard in G. injection G as G1 G2. by split. }
  split; [|split; [exact Hsame|]].
  - intros o w p Hp Hf. destruct (poll_settled_spec o w p Hp Hf) as [Hb Hg].
    rewrite Hb, Hg. by destruct (valid_payload o).
  - intros signals w0 Hsig Hle.
    destruct (accepted_payloads signals) as [|x [|y l]] eqn:E; cbn in Hle; [| |lia].
    + apply (Hsame signals "" w0 Hsig). by rewrite E.
    + apply (Hsame signals x w0 Hsig). rewrite E. by repeat constructor.
Qed.

(** ** Regular expressions: derivatives decide the language *)

Lemma lang_void_inv u : lang Void u → False.
Proof. inversion 1. Qed.

Lemma lang_eps_inv u : lang Eps u → u = [].
Proof. by inversion 1. Qed.

Lemma lang_chr_inv p u : lang (Chr p) u → ∃ c, u = [c] ∧ p c = true.
Proof. inversion 1; subst. by eexists. Qed.

Lemma lang_cat_inv r s u :
  lang (Cat r s) u → ∃ u1 u2, u = (u1 ++ u2)%list ∧ lang r u1 ∧ lang s u2.
Proof. inversion 1; subst. by eexists _, _. Qed.

Lemma lang_alt_inv r s u : lang (Alt r s) u → lang r u ∨ lang s u.
Proof. inversion 1; subst; auto. Qed.

(** A non-empty word of a star starts with a non-empty word of its body. *)
Lemma lang_star_inv r u :
  lang (Star r) u →
  u = [] ∨ ∃ c u1 u2, u = (c :: u1 ++ u2)%list ∧ lang r (c :: u1) ∧ lang (Star r) u2.
Proof.
  intros H. remember (Star r) as sr eqn:E. revert E.
  induction H as [| | | | | |r' u v Hu _ Hv IHv]; intros E; try discriminate.
  - by left.
  - injection E as ->. destruct u as [|c u1].
    + by apply IHv.
    + right. by exists c, u1, v.
Qed.

Lemma nullable_lang r : nullable r = true ↔ lang r [].
Proof.
  induction r as [| |p|r IHr s IHs|r IHr s IHs|r IHr]; cbn.
  - split; [done|]. by intros ?%lang_void_inv.
  - split; [constructor|done].
  - split; [done|]. intros (c & ? & _)%lang_chr_inv. done.
  - rewrite andb_true_iff, IHr, IHs. split.
    + intros [Hr Hs]. by apply (lang_cat r s [] []).
    + intros (u1 & u2 & E & Hr & Hs)%lang_cat_inv.
      symmetry in E. apply app_eq_nil in E as [-> ->]. done.
  - rewrite orb_true_iff, IHr, IHs. split.
    + intros [H|H]; [by apply lang_alt_l | by apply lang_alt_r].
    + apply lang_alt_inv.
  - split; [constructor|done].
Qed.

Lemma lang_cat_smart r s u : lang (cat r s) u ↔ lang (Cat r s) u.
Proof.
  assert (∀ r' s', lang (Cat r' s') u → r' ≠ Void ∧ s' ≠ Void) as Hnv.
  { intros r' s' (u1 & u2 & _ & H1 & H2)%lang_cat_inv.
    split; intros ->; by eapply lang_void_inv. }
  assert (∀ s', lang s' u ↔ lang (Cat Eps s') u) as Heps.
  { intros s'. split.
    - intros H. apply (lang_cat Eps s' [] u); [constructor|done].
    - intros (u1 & u2 & -> & ->%lang_eps_inv & H2)%lang_cat_inv. done. }
  destruct r; destruct s; cbn; try done; try apply Heps;
    (split; [by intros ?%lang_void_inv | intros H; destruct (Hnv _ _ H); done]).
Qed.

Lemma lang_alt_smart r s u : lang (alt r s) u ↔ lang (Alt r s) u.
Proof.
  assert (∀ r', lang r' u ↔ lang (Alt Void r') u) as Hl.
  { intros r'. split; [apply lang_alt_r|].
    intros [?%lang_void_inv|]%lang_alt_inv; done. }
  assert (∀ r', lang r' u ↔ lang (Alt r' Void) u) as Hr.
  { intros r'. split; [apply lang_alt_l|].
    intros [|?%lang_void_inv]%lang_alt_inv; done. }
  destruct r; destruct s; cbn; try done; try apply Hl; try apply Hr.
Qed.

Lemma deriv_lang r c u : lang (deriv c r) u ↔ lang r (c :: u).
Proof.
  revert u. induction r as [| |p|r IHr s IHs|r IHr s IHs|r IHr]; intros u; cbn.
  - split; by intros ?%lang_void_inv.
  - split; [by intros ?%lang_void_inv | by intros ?%lang_eps_inv].
  - destruct (p c) eqn:Hp.
    + split.
      * intros ->%lang_eps_inv. by constructor.
      * intros (c' & [= -> ->] & _)%lang_chr_inv. constructor.
    + split; [by intros ?%lang_void_inv|].
      intros (c' & [= -> ->] & ?)%lang_chr_inv. congruence.
  - assert (lang (Cat (deriv c r) s) u ∨ (nullable r = true ∧ lang (deriv c s) u)
            ↔ lang (Cat r s) (c :: u)) as Hmain.
    { split.
      - intros [(u1 & u2 & -> & H1 & H2)%lang_cat_inv | [Hn Hs]].
        + apply IHr in H1. by apply (lang_cat r s (c :: u1) u2).
        + apply nullable_lang in Hn. apply IHs in Hs.
          by apply (lang_cat r s [] (c :: u)).
      - intros (u1 & u2 & E & H1 & H2)%lang_cat_inv. destruct u1 as [|c' u1].
        + cbn in E. subst u2. right. split; [by apply nullable_lang | by apply IHs].
        + injection E as -> ->. left. apply lang_cat; [by apply IHr | done]. }
    destruct (nullable r) eqn:Hn.
    + rewrite lang_alt_smart, <- Hmain. split.
      * intros [H|H]%lang_alt_inv; [left; by apply lang_cat_smart | by right].
      * intros [H|[_ H]]; [apply lang_alt_l; by apply lang_cat_smart | by apply lang_alt_r].
    + rewrite lang_cat_smart, <- Hmain. split; [by left | by intros [|[? _]]].
  - rewrite lang_alt_smart. split.
    + intros [H|H]%lang_alt_inv; [apply lang_alt_l, IHr | apply lang_alt_r, IHs]; done.
    + intros [H|H]%lang_alt_inv; [apply lang_alt_l, IHr | apply lang_alt_r, IHs]; done.
  - rewrite lang_cat_smart. split.
    + intros (u1 & u2 & -> & H1 & H2)%lang_cat_inv. apply IHr in H1.
      by apply (lang_star_cons r (c :: u1) u2).
    + intros [|(c' & u1 & u2 & [= -> ->] & H1 & H2)]%lang_star_inv; [done|].
      apply lang_cat; [by apply IHr | done].
Qed.

Lemma accepts_lang r u : accepts r u = true ↔ lang r u.
Proof.
  revert r. induction u as [|c u IH]; intros r; cbn.
  - apply nullable_lang.
  - by rewrite IH, deriv_lang.
Qed.

Lemma lang_any_star u : lang (Star any_char) u.
Proof.
  induction u as [|c u IH]; [constructor|].
  apply (lang_star_cons any_char [c] u); [by constructor | done].
Qed.

Lemma lang_star_class p u : Forall (fun c => p c = true) u → lang (Star (Chr p)) u.
Proof.
  induction 1 as [|c u Hc _ IH]; [constructor|].
  apply (lang_star_cons (Chr p) [c] u); [by constructor | done].
Qed.

Lemma lang_lit_chars u : lang (lit_chars u) u.
Proof.
  induction u as [|c u IH]; cbn; [constructor|].
  apply (lang_cat _ _ [c] u); [|done]. constructor. apply Ascii.eqb_refl.
Qed.

(** An anchored pattern matches a text as soon as it matches a prefix. *)
Lemma test_at_start_prefix r u rest :
  lang r u → test_at_start r (string_of_list_ascii (u ++ rest)) = true.
Proof.
  intros H. unfold test_at_start. rewrite list_ascii_of_string_of_list_ascii.
  apply accepts_lang, lang_cat; [done | apply lang_any_star].
Qed.

(** ** The module format detector *)

Lemma detectModuleFormat_cached url fmt w :
  moduleFormatCache w !! url = Some fmt →
  detectModuleFormat url w = (Resolved fmt, w).
Proof. intros H. unfold detectModuleFormat. by rewrite H. Qed.

Lemma withCacheBust_sent url req w : withCacheBust url (sent req w) = withCacheBust url w.
Proof. reflexivity. Qed.

Local Ltac log_tac :=
  cbn -[analyzeSource]; rewrite <- ?app_assoc; reflexivity.

(** On a cache miss the call resolves after sending its probe, and either
    stores its result or ends in [unknown] with the cache untouched. *)
Lemma detectModuleFormat_miss url w :
  moduleFormatCache w !! url = None →
  ∃ fmt w1 more,
    detectModuleFormat url w = (Resolved fmt, w1)
    ∧ requests w1 = (requests w ++ probeRequest url w :: more)%list
    ∧ (moduleFormatCache w1 = <[url := fmt]> (moduleFormatCache w)
       ∨ (fmt = unknown ∧ moduleFormatCache w1 = moduleFormatCache w)).
Proof.
  intros Hmiss. unfold detectModuleFormat. rewrite Hmiss.
  unfold catch, andThen, fetchWithTimeout. rewrite fetch_eq.
  assert (∀ l : list Request, l = (l ++ [])%list) as Hnil by (intros; by rewrite app_nil_r).
  destruct (next_outcome w) as [res|]; cbn -[analyzeSource];
    [|eexists _, _, []; split; [reflexivity|split; [log_tac|by right]]].
  destruct (negb (ok res) && negb (status res =? 206)%Z); cbn -[analyzeSource];
    [eexists _, _, []; split; [reflexivity|split; [log_tac|by right]]|].
  destruct (status res =? 206)%Z.
  - unfold text. destruct (body res) as [head|]; cbn -[analyzeSource];
      [|eexists _, _, []; split; [reflexivity|split; [log_tac|by right]]].
    destruct (negb (ModuleFormat_eqb (analyzeSource head "" None) unknown));
      cbn -[analyzeSource];
      [eexists _, _, []; split; [reflexivity|split; [log_tac|by left]]|].
    rewrite fetch_eq.
    destruct (next_outcome _) as [r|]; cbn -[analyzeSource];
      [|eexists _, _, [_]; split; [reflexivity|split; [log_tac|by right]]].
    destruct (ok r); cbn -[analyzeSource].
    + destruct (body r) as [full|]; cbn -[analyzeSource];
        eexists _, _, [_]; (split; [reflexivity|split; [log_tac|]]);
        [by left|by right].
    + eexists _, _, [_]; split; [reflexivity|split; [log_tac|by left]].
  - unfold text. destruct (body res) as [source|]; cbn -[analyzeSource];
      eexists _, _, []; (split; [reflexivity|split; [log_tac|]]); [by left|by right].
Qed.

(** A failed or refused probe stores nothing and sends only the probe. *)
Lemma detectModuleFormat_probe_failed url w :
  moduleFormatCache w !! url = None →
  next_outcome w = NetworkError ∨ (∃ res, next_outcome w = Answer res ∧ ok res = false) →
  detectModuleFormat url w = (Resolved unknown, sent (probeRequest url w) w).
Proof.
  intros Hmiss Hfail. unfold detectModuleFormat. rewrite Hmiss.
  unfold catch, andThen, fetchWithTimeout. rewrite fetch_eq.
  destruct Hfail as [->|(res & -> & Hok)]; [done|]. cbn -[analyzeSource].
  rewrite Hok. cbn -[analyzeSource].
  destruct (status res =? 206)%Z eqn:E; [|done].
  apply Z.eqb_eq in E. unfold ok in Hok. rewrite E in Hok. done.
Qed.

(** A probe that is answered 2xx, with every body the call needs readable,
    ends with its result in the cache. *)
Lemma detectModuleFormat_stores url w res head :
  moduleFormatCache w !! url = None →
  next_outcome w = Answer res →
  ok res = true →
  body res = Some head →
  (status res = 206%Z → analyzeSource head "" None = unknown →
   ∃ r, next_outcome (sent (probeRequest url w) w) = Answer r
        ∧ (ok r = false ∨ ∃ full, body r = Some full)) →
  ∃ fmt w1,
    detectModuleFormat url w = (Resolved fmt, w1)
    ∧ moduleFormatCache w1 !! url = Some fmt.
Proof.
  intros Hmiss Hnext Hok Hbody Hfull. unfold detectModuleFormat. rewrite Hmiss.
  unfold catch, andThen, fetchWithTimeout. rewrite fetch_eq, Hnext.
  cbn -[analyzeSource]. rewrite Hok. cbn -[analyzeSource].
  destruct (status res =? 206)%Z eqn:H206.
  - apply Z.eqb_eq in H206. unfold text. rewrite Hbody. cbn -[analyzeSource].
    destruct (analyzeSource head "" None) eqn:Hfmt; cbn -[analyzeSource];
      try (eexists _, _; split; [reflexivity|]; cbn; apply lookup_insert_eq).
    destruct (Hfull H206 eq_refl) as (r & Hr & Hread).
    rewrite fetch_eq. unfold probeRequest in Hr. rewrite Hr. cbn -[analyzeSource].
    destruct (ok r); cbn -[analyzeSource].
    + destruct Hread as [?|[full Hb]]; [done|]. rewrite Hb. cbn -[analyzeSource].
      eexists _, _; split; [reflexivity|]. cbn -[analyzeSource]. apply lookup_insert_eq.
    + eexists _, _; split; [reflexivity|]. cbn -[analyzeSource]. apply lookup_insert_eq.
  - unfold text. rewrite Hbody. cbn -[analyzeSource].
    eexists _, _; split; [reflexivity|]. cbn -[analyzeSource]. apply lookup_insert_eq.
Qed.

(** C2 (as amended).  [detect] always resolves.  Either its result is in
    the per-URL cache when it returns, and then a second call returns the
    same value and leaves the world, request log included, exactly as the
    first call left it; or the call ended in [unknown] without storing
    anything.  The result is stored whenever the probe is answered 2xx (206
    included) and every body the call needs can be read: the body of the
    probe and, after a 206 head without marker, the body of a full answer
    that is 2xx; a second call then returns the stored value, [unknown]
    included, without a request.  Nothing is stored after a failed probe or
    a non-2xx answer: the cache stays as it was and a second call sends a
    new probe. *)
Theorem detect_twice_when_cached url w :
  ∃ fmt,
    (detectModuleFormat url w).1 = Resolved fmt
    ∧ ((moduleFormatCache (detectModuleFormat url w).2 !! url = Some fmt
        ∧ detectModuleFormat url (detectModuleFormat url w).2 = detectModuleFormat url w)
       ∨ (fmt = unknown
          ∧ moduleFormatCache w !! url = None
          ∧ moduleFormatCache (detectModuleFormat url w).2 = moduleFormatCache w))
    ∧ (∀ res head,
         moduleFormatCache w !! url = None →
         next_outcome w = Answer res →
         ok res = true →
         body res = Some head →
         (status res = 206%Z → analyzeSource head "" None = unknown →
          ∃ r, next_outcome (sent (probeRequest url w) w) = Answer r
               ∧ (ok r = false ∨ ∃ full, body r = Some full)) →
         moduleFormatCache (detectModuleFormat url w).2 !! url = Some fmt
         ∧ detectModuleFormat url (detectModuleFormat url w).2
           = (Resolved fmt, (detectModuleFormat url w).2))
    ∧ (moduleFormatCache w !! url = None →
       next_outcome w = NetworkError
       ∨ (∃ res, next_outcome w = Answer res ∧ ok res = false) →
       fmt = unknown
       ∧ (detectModuleFormat url w).2 = sent (probeRequest url w) w
       ∧ ∃ more,
           requests (detectModuleFormat url (detectModuleFormat url w).2).2
           = (requests (detectModuleFormat url w).2
              ++ probeRequest url (detectModuleFormat url w).2 :: more)%list).
Proof.
  destruct (moduleFormatCache w !! url) as [cached|] eqn:Hc.
  - rewrite (detectModuleFormat_cached url cached w Hc). cbn [fst snd].
    exists cached. split; [done|]. split; [|split; [done|done]]. left.
    split; [done|]. by apply detectModuleFormat_cached.
  - destruct (detectModuleFormat_miss url w Hc) as (fmt & w1 & more & E & _ & Hcase).
    rewrite E. cbn [fst snd]. exists fmt. split; [done|]. split; [|split].
    + destruct Hcase as [Hs|[-> Hs]].
      * left. assert (moduleFormatCache w1 !! url = Some fmt) as H1.
        { rewrite Hs. apply lookup_insert_eq. }
        split; [done|]. by apply detectModuleFormat_cached.
      * by right.
    + intros res head _ Hnext Hok Hbody Hfull.
      destruct (detectModuleFormat_stores url w res head Hc Hnext Hok Hbody Hfull)
        as (fmt' & w1' & E' & Hst).
      rewrite E in E'. injection E' as <- <-.
      split; [done|]. by apply detectModuleFormat_cached.
    + intros _ Hfail.
      rewrite (detectModuleFormat_probe_failed url w Hc Hfail) in E.
      injection E as <- <-. split; [done|]. split; [done|].
      assert (moduleFormatCache (sent (probeRequest url w) w) !! url = None) as Hc' by done.
      destruct (detectModuleFormat_miss url _ Hc') as (fmt' & w2 & more' & E' & Hreq & _).
      rewrite E'. cbn [snd]. by exists more'.
Qed.

(** ** Detection of the legacy-registration format *)

Lemma lang_line_comment t :
  Forall (fun a => Ascii.eqb a newline = false) t →
  lang line_comment (comment_chars (LineComment t)).
Proof.
  intros Ht. unfold line_comment, comment_chars.
  apply lang_cat; [apply lang_lit_chars|]. apply lang_cat.
  - apply lang_star_class. eapply Forall_impl; [exact Ht|]. cbn. by intros a ->.
  - constructor. apply Ascii.eqb_refl.
Qed.

Lemma lang_block_comment t : lang block_comment (comment_chars (BlockComment t)).
Proof.
  unfold block_comment, comment_chars.
  apply lang_cat; [apply lang_lit_chars|]. apply lang_cat; [apply lang_any_star|].
  apply lang_lit_chars.
Qed.

Lemma lang_comments (cs : list (Comment * list ascii)) :
  Forall (fun cw => comment_ok cw.1 ∧ Forall (fun a => is_space a = true) cw.2) cs →
  lang (Star (Cat (Alt line_comment block_comment) (Star space)))
       (concat (map (fun cw => (comment_chars cw.1 ++ cw.2)%list) cs)).
Proof.
  induction 1 as [|[c ws] cs [Hc Hws] _ IH]; cbn [map concat]; [constructor|].
  apply lang_star_cons; [|done]. apply lang_cat.
  - destruct c as [t|t]; [apply lang_alt_l, lang_line_comment, Hc
                         | apply lang_alt_r, lang_block_comment].
  - by apply lang_star_class.
Qed.

Lemma lang_system_register_preamble p :
  preamble_ok p →
  lang system_register_preamble
       (preamble_chars p ++ list_ascii_of_string "System.register(")%list.
Proof.
  intros (Hs & Hc & Hd). unfold system_register_preamble, preamble_chars.
  rewrite <- !app_assoc. apply lang_cat; [by apply lang_star_class|].
  apply lang_cat; [by apply lang_comments|].
  unfold opt. destruct (pre_strict p) as [ws|].
  - rewrite <- app_assoc. rewrite (app_assoc (list_ascii_of_string use_strict)).
    apply lang_cat; [|apply lang_lit_chars].
    apply lang_alt_l, lang_cat; [apply lang_lit_chars | by apply lang_star_class].
  - apply (lang_cat _ _ []); [apply lang_alt_r; constructor | apply lang_lit_chars].
Qed.

Lemma analyzeSource_system p rest tail full :
  preamble_ok p →
  analyzeSource
    (string_of_list_ascii
       (preamble_chars p ++ list_ascii_of_string "System.register(" ++ rest)%list)
    tail full
  = system.
Proof.
  intros Hp. unfold analyzeSource. rewrite app_assoc.
  by rewrite test_at_start_prefix by by apply lang_system_register_preamble.
Qed.

(** C6.  When the range probe is answered with status 206 and the text it
    returns starts, after white space, comments and at most one use-strict
    directive, with the registration call, [detect] resolves to the
    legacy-registration format, stores it for the URL, and the probe is the
    only request it sends. *)
Theorem system_register_detected_by_probe_alone url w res p rest :
  preamble_ok p →
  moduleFormatCache w !! url = None →
  next_outcome w = Answer res →
  status res = 206%Z →
  body res
  = Some (string_of_list_ascii
            (preamble_chars p ++ list_ascii_of_string "System.register(" ++ rest)%list) →
  (detectModuleFormat url w).1 = Resolved system
  ∧ requests (detectModuleFormat url w).2 = (requests w ++ [probeRequest url w])%list
  ∧ moduleFormatCache (detectModuleFormat url w).2 !! url = Some system.
Proof.
  intros Hp Hmiss Hnext Hst Hbody.
  pose proof (analyzeSource_system p rest "" None Hp) as Hsys.
  revert Hbody Hsys. generalize (string_of_list_ascii
    (preamble_chars p ++ list_ascii_of_string "System.register(" ++ rest)%list).
  intros head Hbody Hsys. unfold detectModuleFormat. rewrite Hmiss.
  unfold catch, andThen, fetchWithTimeout. rewrite fetch_eq, Hnext.
  cbn -[analyzeSource]. unfold ok. rewrite Hst. cbn -[analyzeSource].
  unfold text. rewrite Hbody. cbn -[analyzeSource].
  rewrite Hsys. cbn.
  split; [done|]. split; [done|]. apply lookup_insert_eq.
Qed.

(** ** Detection of the native format after the full-body fetch *)

Lemma analyzeSource_eq head tail full :
  analyzeSource head tail full
  = if hasSystemRegister head then system
    else if hasUmdWrapper head then umd
    else if hasEsmSyntaxIn (default head full)
            || includes tail "export{" || includes tail "export {"
    then esm else unknown.
Proof.
  unfold analyzeSource, hasSystemRegister, hasUmdWrapper, hasEsmSyntaxIn.
  destruct (test_at_start _ _); [done|].
  destruct (_ && _); [done|]. by rewrite <- !orb_assoc.
Qed.

(** C7 (as amended).  The range probe is answered with status 206 and the
    first 8 KiB of the content, in which [analyzeSource] finds none of its
    markers: no registration preamble, no universal-module token triple and
    no ESM syntax (no line starting with an import or export statement, no
    export brace at a line start).  The full-body request is answered 2xx
    with the content, whose last 4 KiB contain an export brace.  Then
    [detect] sends exactly the probe and one full-body request, resolves to
    the native format and stores it. *)
Theorem esm_detected_after_one_full_fetch url w res r content :
  moduleFormatCache w !! url = None →
  next_outcome w = Answer res →
  status res = 206%Z →
  body res = Some (slice_first 8192 content) →
  hasSystemRegister (slice_first 8192 content) = false →
  hasUmdWrapper (slice_first 8192 content) = false →
  hasEsmSyntaxIn (slice_first 8192 content) = false →
  next_outcome (sent (probeRequest url w) w) = Answer r →
  ok r = true →
  body r = Some content →
  includes (slice_last 4096 content) "export{" = true →
  (detectModuleFormat url w).1 = Resolved esm
  ∧ requests (detectModuleFormat url w).2
    = (requests w ++ [probeRequest url w; fullRequest url w])%list
  ∧ moduleFormatCache (detectModuleFormat url w).2 !! url = Some esm.
Proof.
  intros Hmiss Hnext Hst Hbody Hsys Humd Hesm Hnext2 Hok2 Hbody2 Htail.
  assert (analyzeSource (slice_first 8192 content) "" None = unknown) as Hhead.
  { rewrite analyzeSource_eq, Hsys, Humd. cbn [default]. by rewrite Hesm. }
  assert (analyzeSource (slice_first 8192 content) (slice_last 4096 content) (Some content)
          = esm) as Hfull.
  { rewrite analyzeSource_eq, Hsys, Humd, Htail. by rewrite orb_true_r. }
  assert (detectModuleFormat url w
          = (Resolved esm,
             moduleFormatCache_set url esm
               (sent (fullRequest url w) (sent (probeRequest url w) w)))) as ->.
  { unfold detectModuleFormat. rewrite Hmiss.
    unfold catch, andThen, fetchWithTimeout. rewrite fetch_eq, Hnext.
    cbn -[analyzeSource slice_first slice_last]. unfold ok at 1. rewrite Hst.
    cbn -[analyzeSource slice_first slice_last].
    unfold text at 1. rewrite Hbody. cbn -[analyzeSource slice_first slice_last].
    rewrite Hhead. cbn -[analyzeSource slice_first slice_last].
    rewrite fetch_eq.
    change (next_outcome (sent _ w)) with (next_outcome (sent (probeRequest url w) w)).
    rewrite Hnext2. cbn -[analyzeSource slice_first slice_last].
    rewrite Hok2. unfold text. rewrite Hbody2. cbn -[analyzeSource slice_first slice_last].
    by rewrite Hfull. }
  cbn. split; [done|]. split; [by rewrite <- app_assoc|]. apply lookup_insert_eq.
Qed.

(** ** The script loader *)



Lemma script_insertions_app k l1 l2 :
  script_insertions k (l1 ++ l2) = (script_insertions k l1 + script_insertions k l2)%nat.
Proof. unfold script_insertions. by rewrite List.filter_app, length_app. Qed.

Lemma script_insertions_one k : script_insertions k [ReqScript k] = 1%nat.
Proof. unfold script_insertions. cbn. by rewrite String.eqb_refl. Qed.










(** ** The disabled-mode reader of the shell UI *)

Lemma obj_get_obj_set {V} k k' (v : V) o :
  obj_get k (obj_set k' v o) = if String.eqb k k' then Some v else obj_get k o.
Proof.
  induction o as [|[k0 v0] o IH]; cbn.
  - by destruct (String.eqb k k').
  - destruct (String.eqb k' k0) eqn:E'; cbn.
    + apply String.eqb_eq in E' as ->. by destruct (String.eqb k k0).
    + destruct (String.eqb k k0) eqn:E; [|done].
      apply String.eqb_eq in E as ->.
      by rewrite String.eqb_sym, E'.
Qed.

Lemma obj_get_None {V} k (o : list (string * V)) : k ∉ map fst o → obj_get k o = None.
Proof.
  induction o as [|[k0 v0] o IH]; cbn; [done|].
  intros H. apply not_elem_of_cons in H as [Hne Hnin].
  apply String.eqb_neq in Hne as ->. by apply IH.
Qed.

Lemma obj_set_keys {V} k (v : V) o x :
  x ∈ map fst (obj_set k v o) ↔ x = k ∨ x ∈ map fst o.
Proof.
  induction o as [|[k0 v0] o IH]; cbn.
  - rewrite list_elem_of_singleton, elem_of_nil. (drop_env; tauto).
  - destruct (String.eqb k k0) eqn:E; cbn.
    + apply String.eqb_eq in E as ->. rewrite !elem_of_cons. (drop_env; tauto).
    + rewrite !elem_of_cons, IH. (drop_env; tauto).
Qed.

Lemma obj_set_NoDup {V} k (v : V) o : NoDup (map fst o) → NoDup (map fst (obj_set k v o)).
Proof.
  induction o as [|[k0 v0] o IH]; cbn; intros Hnd.
  - apply NoDup_singleton.
  - apply NoDup_cons in Hnd as [Hnin Hnd]. destruct (String.eqb k k0) eqn:E; cbn.
    + apply String.eqb_eq in E as ->. by apply NoDup_cons.
    + apply NoDup_cons. split; [|by apply IH].
      rewrite obj_set_keys. intros [->|?]; [|done].
      by rewrite String.eqb_refl in E.
Qed.

(** The spread [{...a, ...b}] reads [b] first and [a] otherwise. *)
Lemma obj_get_spread {V} k (a b : list (string * V)) :
  NoDup (map fst b) →
  obj_get k (obj_spread a b)
  = match obj_get k b with
    | Some v => Some v
    | None => obj_get k a
    end.
Proof.
  unfold obj_spread. revert a. induction b as [|[k0 v0] b IH]; intros a Hnd; cbn; [done|].
  apply NoDup_cons in Hnd as [Hnin Hnd]. rewrite IH by done.
  rewrite obj_get_obj_set. destruct (String.eqb k k0) eqn:E; [|done].
  apply String.eqb_eq in E as ->. by rewrite obj_get_None.
Qed.

Lemma normalized_apps_NoDup config :
  NoDup (map fst (ShellUi.apps (ShellUi.normalizeDisabledModeConfig config))).
Proof.
  unfold ShellUi.normalizeDisabledModeConfig.
  destruct (negb (truthy config)); [apply NoDup_nil_2|].
  destruct (as_mode config); [apply NoDup_nil_2|]. cbn -[as_mode].
  destruct (_ && _); [|apply NoDup_nil_2].
  generalize (Object_entries (prop "apps" config)).
  assert (NoDup (map fst (@nil (string * DisabledMode)))) as H0 by apply NoDup_nil_2.
  revert H0. generalize (@nil (string * DisabledMode)).
  intros acc Hacc l. revert acc Hacc.
  induction l as [|[k v] l IH]; intros acc Hacc; cbn -[as_mode]; [done|].
  apply IH. destruct (as_mode (Some v)); [by apply obj_set_NoDup | done].
Qed.






(** ** Escaping *)

(** Unfolds appends whose first text starts with a known character. *)
Ltac app_norm :=
  repeat match goal with
         | |- context [String.append (String ?a ?s) ?t] =>
             change (String.append (String a s) t) with (String a (String.append s t))
         | |- context [String.append EmptyString ?t] =>
             change (String.append EmptyString t) with t
         end.

Ltac app_norm_in H :=
  repeat match type of H with
         | context [String.append (String ?a ?s) ?t] =>
             change (String.append (String a s) t) with (String a (String.append s t)) in H
         | context [String.append EmptyString ?t] =>
             change (String.append EmptyString t) with t in H
         end.

Lemma string_app_assoc (a b c : string) : (a ++ b) ++ c = a ++ (b ++ c).
Proof. induction a as [|x a IH]; [done|]. app_norm. by rewrite IH. Qed.

Lemma replace_char_app c by_ s t :
  replace_char c by_ (s ++ t) = replace_char c by_ s ++ replace_char c by_ t.
Proof.
  induction s as [|a s IH]; [done|].
  change (String a s ++ t) with (String a (s ++ t)). cbn [replace_char].
  destruct (Ascii.eqb a c); rewrite IH; [|done]. symmetry. apply string_app_assoc.
Qed.

Lemma escapeHtml_cons a s : escapeHtml (String a s) = entity a ++ escapeHtml s.
Proof.
  unfold escapeHtml, entity.
  destruct (Ascii.eqb a "&") eqn:E1.
  { apply Ascii.eqb_eq in E1 as ->.
    change (replace_char "&" "&amp;" (String "&" s))
      with ("&amp;" ++ replace_char "&" "&amp;" s).
    by rewrite !replace_char_app. }
  destruct (Ascii.eqb a "<") eqn:E2.
  { apply Ascii.eqb_eq in E2 as ->.
    change (replace_char "&" "&amp;" (String "<" s))
      with ("<" ++ replace_char "&" "&amp;" s).
    by rewrite !replace_char_app. }
  destruct (Ascii.eqb a ">") eqn:E3.
  { apply Ascii.eqb_eq in E3 as ->.
    change (replace_char "&" "&amp;" (String ">" s))
      with (">" ++ replace_char "&" "&amp;" s).
    by rewrite !replace_char_app. }
  destruct (Ascii.eqb a dquote) eqn:E4.
  { apply Ascii.eqb_eq in E4 as ->.
    change (replace_char "&" "&amp;" (String dquote s))
      with (String dquote "" ++ replace_char "&" "&amp;" s).
    by rewrite !replace_char_app. }
  destruct (Ascii.eqb a "'") eqn:E5.
  { apply Ascii.eqb_eq in E5 as ->.
    change (replace_char "&" "&amp;" (String "'" s))
      with ("'" ++ replace_char "&" "&amp;" s).
    by rewrite !replace_char_app. }
  cbn [replace_char]. rewrite E1. cbn [replace_char]. rewrite E2.
  cbn [replace_char]. rewrite E3. cbn [replace_char]. rewrite E4.
  cbn [replace_char]. by rewrite E5.
Qed.

Lemma escapeHtml_escape_each s : escapeHtml s = escape_each s.
Proof.
  induction s as [|a s IH]; [done|]. rewrite escapeHtml_cons. cbn [escape_each].
  by rewrite IH.
Qed.

Lemma entity_no_markup a c :
  c ∈ list_ascii_of_string (entity a) → is_markup c = false.
Proof.
  unfold entity.
  destruct (Ascii.eqb a "&") eqn:E1;
    [cbn; intros H; repeat (apply elem_of_cons in H as [->|H]; [done|]);
     by apply elem_of_nil in H|].
  destruct (Ascii.eqb a "<") eqn:E2;
    [cbn; intros H; repeat (apply elem_of_cons in H as [->|H]; [done|]);
     by apply elem_of_nil in H|].
  destruct (Ascii.eqb a ">") eqn:E3;
    [cbn; intros H; repeat (apply elem_of_cons in H as [->|H]; [done|]);
     by apply elem_of_nil in H|].
  destruct (Ascii.eqb a dquote) eqn:E4;
    [cbn; intros H; repeat (apply elem_of_cons in H as [->|H]; [done|]);
     by apply elem_of_nil in H|].
  destruct (Ascii.eqb a "'") eqn:E5;
    [cbn; intros H; repeat (apply elem_of_cons in H as [->|H]; [done|]);
     by apply elem_of_nil in H|].
  cbn. intros [->|H]%elem_of_cons; [|by apply elem_of_nil in H].
  unfold is_markup. by rewrite E2, E3, E4, E5.
Qed.

Lemma list_ascii_of_string_app (s t : string) :
  list_ascii_of_string (s ++ t)
  = (list_ascii_of_string s ++ list_ascii_of_string t)%list.
Proof.
  induction s as [|a s IH]; [done|]. app_norm. cbn [list_ascii_of_string]. by rewrite IH.
Qed.

(** Two characters with the same entity followed by the same text are the
    same character. *)
Lemma entity_app_inj a b s t :
  entity a ++ s = entity b ++ t → a = b ∧ s = t.
Proof.
  unfold entity.
  destruct (Ascii.eqb a "&") eqn:A1; [apply Ascii.eqb_eq in A1 as ->|];
  [|destruct (Ascii.eqb a "<") eqn:A2; [apply Ascii.eqb_eq in A2 as ->|];
    [|destruct (Ascii.eqb a ">") eqn:A3; [apply Ascii.eqb_eq in A3 as ->|];
      [|destruct (Ascii.eqb a dquote) eqn:A4; [apply Ascii.eqb_eq in A4 as ->|];
        [|destruct (Ascii.eqb a "'") eqn:A5; [apply Ascii.eqb_eq in A5 as ->|]]]]];
  (destruct (Ascii.eqb b "&") eqn:B1; [apply Ascii.eqb_eq in B1 as ->|];
   [|destruct (Ascii.eqb b "<") eqn:B2; [apply Ascii.eqb_eq in B2 as ->|];
     [|destruct (Ascii.eqb b ">") eqn:B3; [apply Ascii.eqb_eq in B3 as ->|];
       [|destruct (Ascii.eqb b dquote) eqn:B4; [apply Ascii.eqb_eq in B4 as ->|];
         [|destruct (Ascii.eqb b "'") eqn:B5; [apply Ascii.eqb_eq in B5 as ->|]]]]]);
  app_norm; intros H; try discriminate H;
  injection H; intros; subst; try done; exfalso;
  repeat match goal with
         | E : Ascii.eqb _ _ = false |- _ => vm_compute in E; try discriminate E; clear E
         end.
Qed.

Lemma escape_each_inj s t : escape_each s = escape_each t → s = t.
Proof.
  revert t. induction s as [|a s IH]; intros [|b t]; cbn; [done| | |].
  - unfold entity. intros H.
    destruct (Ascii.eqb b "&"), (Ascii.eqb b "<"), (Ascii.eqb b ">"),
      (Ascii.eqb b dquote), (Ascii.eqb b "'"); discriminate H.
  - unfold entity. intros H.
    destruct (Ascii.eqb a "&"), (Ascii.eqb a "<"), (Ascii.eqb a ">"),
      (Ascii.eqb a dquote), (Ascii.eqb a "'"); discriminate H.
  - intros [-> H]%entity_app_inj. by rewrite (IH t H).
Qed.

(** X1.  The five replacements of [escapeHtml], made one after the other,
    amount to a single pass that writes each character's entity: the
    ampersands of the entities written for the other four characters are not
    escaped again.  The result holds no angle bracket and no quote, and
    different texts have different results. *)
Theorem escapeHtml_single_pass :
  (∀ s, escapeHtml s = escape_each s)
  ∧ (∀ s c, c ∈ list_ascii_of_string (escapeHtml s) → is_markup c = false)
  ∧ (∀ s t, escapeHtml s = escapeHtml t → s = t).
Proof.
  split; [apply escapeHtml_escape_each|]. split.
  - intros s c. rewrite escapeHtml_escape_each.
    induction s as [|a s IH]; cbn; [by intros ?%elem_of_nil|].
    rewrite list_ascii_of_string_app. intros [H|H]%elem_of_app; [|by apply IH].
    by apply (entity_no_markup a).
  - intros s t. rewrite !escapeHtml_escape_each. apply escape_each_inj.
Qed.

(** ** Reachability probes and the availability cache *)

(** X2.  A reachability probe never rejects.  For a URL that does not parse
    or whose scheme is neither [http:] nor [https:] it answers [false]
    without touching the network or anything else; for the other URLs it
    sends exactly one [HEAD] request with the given timeout and answers
    whether the response was 2xx or opaque. *)
Theorem isUrlAvailable_probes_only_http url timeoutMs w :
  (∃ b, (isUrlAvailable url timeoutMs w).1 = Resolved b)
  ∧ (URL_protocol url ≠ Some "http:" ∧ URL_protocol url ≠ Some "https:" →
     isUrlAvailable url timeoutMs w = (Resolved false, w))
  ∧ (URL_protocol url = Some "http:" ∨ URL_protocol url = Some "https:" →
     isUrlAvailable url timeoutMs w
     = (Resolved (reachable (next_outcome w)),
        sent (ReqFetch url "HEAD" None (Some timeoutMs)) w)).
Proof.
  split; [|split].
  - destruct (isUrlAvailable_resolves url timeoutMs w) as (b & w' & ->). by exists b.
  - intros [H1 H2]. unfold isUrlAvailable.
    destruct (URL_protocol url) as [protocol|]; [|done].
    destruct (String.eqb protocol "http:") eqn:E1;
      [apply String.eqb_eq in E1; by subst|].
    destruct (String.eqb protocol "https:") eqn:E2;
      [apply String.eqb_eq in E2; by subst|].
    done.
  - intros H. unfold isUrlAvailable.
    assert (∃ protocol, URL_protocol url = Some protocol
              ∧ negb (String.eqb protocol "http:") && negb (String.eqb protocol "https:")
                = false) as (protocol & -> & ->).
    { destruct H as [->| ->]; by eexists. }
    unfold catch, andThen. rewrite fetch_eq.
    by destruct (next_outcome w).
Qed.

Lemma filter_strings_map_JStr (l : list string) : filter_strings (map JStr l) = l.
Proof.
  unfold filter_strings. induction l as [|x l IH]; [done|]. cbn. by rewrite IH.
Qed.

(** X3.  A snapshot written by [writeAvailabilityCache] is read back by
    [readAvailabilityCache] for as long as it is at most 30000 ms old, and
    not afterwards: the names come back as written, duplicates dropped, and
    the mode comes back as its own normal form. *)
Theorem availability_cache_round_trip available disabled_ mode w store dt :
  sessionStorage w = Some store →
  JSON_stringify (cache_document (clock w) available disabled_ mode) ≠ "" →
  JSON_parse (JSON_stringify (cache_document (clock w) available disabled_ mode))
  = Some (cache_document (clock w) available disabled_ mode) →
  ((dt <= AVAILABILITY_CACHE_TTL)%Z →
   readAvailabilityCache
     (set_clock (clock w + dt) (writeAvailabilityCache available disabled_ mode w))
   = Some {| snap_available := Set_from available;
             snap_disabled := Set_from disabled_;
             snap_disabledMode :=
               mode ≫= (fun m => normalizeDisabledModeConfig (Some (ModeConfig_value m))) |})
  ∧ ((AVAILABILITY_CACHE_TTL < dt)%Z →
     readAvailabilityCache
       (set_clock (clock w + dt) (writeAvailabilityCache available disabled_ mode w))
     = None).
Proof.
  intros Hstore Hne Hparse.
  assert (readAvailabilityCache
            (set_clock (clock w + dt) (writeAvailabilityCache available disabled_ mode w))
          = if (dt >? AVAILABILITY_CACHE_TTL)%Z then None
            else Some {| snap_available := Set_from available;
                         snap_disabled := Set_from disabled_;
                         snap_disabledMode :=
                           mode ≫= (fun m =>
                             normalizeDisabledModeConfig (Some (ModeConfig_value m))) |})
    as E.
  { unfold readAvailabilityCache, writeAvailabilityCache, sessionStorage_setItem.
    rewrite Hstore. cbn [sessionStorage set_clock set_sessionStorage clock].
    unfold getItem. rewrite lookup_insert_eq.
    fold (cache_document (clock w) available disabled_ mode).
    apply String.eqb_neq in Hne. rewrite Hne, Hparse.
    unfold cache_document.
    cbn [truthy typeof_object Array_isArray negb orb prop obj_get app].
    change (String.eqb "timestamp" "timestamp") with true. cbn iota.
    replace (clock w + dt - clock w)%Z with dt by lia.
    destruct (dt >? AVAILABILITY_CACHE_TTL)%Z; [done|].
    change (String.eqb "available" "timestamp") with false.
    change (String.eqb "available" "available") with true.
    change (String.eqb "disabled" "timestamp") with false.
    change (String.eqb "disabled" "available") with false.
    change (String.eqb "disabled" "disabled") with true.
    change (String.eqb "disabledMode" "timestamp") with false.
    change (String.eqb "disabledMode" "available") with false.
    change (String.eqb "disabledMode" "disabled") with false.
    cbn iota. rewrite !filter_strings_map_JStr. do 2 f_equal.
    destruct mode as [m|]; cbn [app obj_get mbind option_bind];
      [by change (String.eqb "disabledMode" "disabledMode") with true|done]. }
  rewrite E. split; intros H.
  - destruct (dt >? AVAILABILITY_CACHE_TTL)%Z eqn:Hc; [lia|done].
  - destruct (dt >? AVAILABILITY_CACHE_TTL)%Z eqn:Hc; [done|lia].
Qed.

(** ** Normal forms of the mode configuration *)

Lemma as_mode_mode_name m : as_mode (Some (JStr (mode_name m))) = Some m.
Proof. by destruct m. Qed.

Lemma obj_set_fresh {V} k (v : V) o :
  k ∉ map fst o → obj_set k v o = (o ++ [(k, v)])%list.
Proof.
  induction o as [|[k0 v0] o IH]; cbn; [done|].
  intros [Hne Hnin]%not_elem_of_cons.
  apply String.eqb_neq in Hne as ->. by rewrite IH.
Qed.

(** Entries with distinct keys and valid modes are stored as they come. *)
Lemma valid_entries_fold (l acc : list (string * DisabledMode)) :
  NoDup (map fst (acc ++ l)) →
  foldl (fun apps (entry : string * JSON) =>
           match as_mode (Some entry.2) with
           | Some mode => obj_set entry.1 mode apps
           | None => apps
           end)
        acc (map (fun kv => (kv.1, JStr (mode_name kv.2))) l)
  = (acc ++ l)%list.
Proof.
  revert acc. induction l as [|[k m] l IH]; intros acc Hnd; [by rewrite app_nil_r|].
  cbn [map foldl fst snd]. rewrite as_mode_mode_name.
  assert (k ∉ map fst acc) as Hk.
  { rewrite map_app in Hnd. apply NoDup_app in Hnd as (_ & Hd & _).
    intros Hin. apply (Hd k Hin). cbn. apply elem_of_cons. by left. }
  rewrite obj_set_fresh by done. rewrite IH; [by rewrite <- app_assoc|].
  by rewrite <- app_assoc.
Qed.

(** *** Assignment in enumeration order *)

#[local] Instance is_index_dec {V} (kv : string * V) : Decision (is_index kv).
Proof. unfold is_index. apply _. Defined.

Lemma array_index_pretty k n : array_index k = Some n → k = pretty n.
Proof.
  unfold array_index. destruct k as [|a k]; [done|].
  destruct (decimal_value 0 (String a k)) as [m|]; [|done].
  destruct (String.eqb (pretty m) (String a k)) eqn:E; cbn [andb]; [|done].
  destruct (m <? 4294967295)%N; [|done]. intros [= <-]. by apply String.eqb_eq in E.
Qed.

Lemma array_index_inj k k' n :
  array_index k = Some n → array_index k' = Some n → k = k'.
Proof. intros ->%array_index_pretty ->%array_index_pretty. done. Qed.

Lemma not_is_index {V} (kv : string * V) : ¬ is_index kv ↔ array_index kv.1 = None.
Proof.
  unfold is_index. destruct (array_index kv.1); split; try done.
  intros H. destruct H. by eexists.
Qed.

Lemma obj_put_nonindex {V} k (v : V) o :
  array_index k = None → obj_put k v o = obj_set k v o.
Proof.
  intros Hi. induction o as [|[k0 v0] o IH]; cbn; [done|].
  destruct (String.eqb k k0); [done|]. unfold key_before. rewrite Hi. by rewrite IH.
Qed.

Lemma elem_of_obj_put {V} k (v : V) o x :
  x ∈ obj_put k v o → x = (k, v) ∨ x ∈ o.
Proof.
  induction o as [|[k0 v0] o IH]; cbn.
  - intros ->%list_elem_of_singleton. by left.
  - destruct (String.eqb k k0).
    + intros [->|H]%elem_of_cons; [by left|]. right. apply elem_of_cons. by right.
    + destruct (key_before k k0).
      * intros [->|H]%elem_of_cons; [by left | by right].
      * intros [->|H]%elem_of_cons; [right; apply elem_of_cons; by left|].
        destruct (IH H) as [->|H']; [by left|]. right. apply elem_of_cons. by right.
Qed.

Lemma obj_put_Permutation {V} k (v : V) o :
  k ∉ map fst o → obj_put k v o ≡ₚ (k, v) :: o.
Proof.
  induction o as [|[k0 v0] o IH]; cbn; [done|].
  intros [Hne Hnin]%not_elem_of_cons. apply String.eqb_neq in Hne as ->.
  destruct (key_before k k0); [done|].
  rewrite IH by done. apply Permutation_swap.
Qed.

Lemma obj_set_app_l {V} k (v : V) a b :
  k ∉ map fst a → obj_set k v (a ++ b)%list = (a ++ obj_set k v b)%list.
Proof.
  induction a as [|[k0 v0] a IH]; cbn; [done|].
  intros [Hne Hnin]%not_elem_of_cons. apply String.eqb_neq in Hne as ->.
  by rewrite IH.
Qed.

(** A new array index goes into the run of indices at the front. *)
Lemma obj_put_index_app {V} k n (v : V) a b :
  array_index k = Some n →
  Forall (fun kv => ¬ is_index kv) b →
  obj_put k v (a ++ b)%list = (obj_put k v a ++ b)%list.
Proof.
  intros Hi Hb. induction a as [|[k0 v0] a IH]; cbn.
  - destruct b as [|[k1 v1] b]; [done|]. cbn.
    apply Forall_cons in Hb as [H1%not_is_index _]. cbn in H1.
    assert (String.eqb k k1 = false) as ->.
    { apply String.eqb_neq. intros ->. by rewrite Hi in H1. }
    unfold key_before. by rewrite Hi, H1.
  - destruct (String.eqb k k0); [done|]. destruct (key_before k k0); [done|].
    by rewrite IH.
Qed.

Lemma obj_put_index_sorted {V} k n (v : V) o :
  array_index k = Some n →
  Forall is_index o →
  StronglySorted index_lt o →
  StronglySorted index_lt (obj_put k v o).
Proof.
  intros Hi. induction o as [|[k0 v0] o IH]; cbn; intros Hall Hs.
  - apply SSorted_cons; [apply SSorted_nil | apply Forall_nil_2].
  - apply StronglySorted_cons in Hs as [H0 Hs].
    apply Forall_cons in Hall as [[n0 Hi0] Hall]. cbn in Hi0.
    destruct (String.eqb k k0) eqn:E.
    + apply String.eqb_eq in E as ->. apply SSorted_cons; [done|].
      eapply Forall_impl; [exact H0|]. by intros [??].
    + unfold key_before. rewrite Hi, Hi0.
      destruct (n <? n0)%N eqn:Hb.
      * apply N.ltb_lt in Hb. apply SSorted_cons; [by apply SSorted_cons|].
        apply Forall_cons. split; [unfold index_lt; cbn; by rewrite Hi, Hi0|].
        eapply Forall_impl; [exact H0|]. intros [k1 v1]. unfold index_lt. cbn.
        rewrite Hi, Hi0. destruct (array_index k1); [lia|done].
      * apply N.ltb_ge in Hb. apply SSorted_cons; [by apply IH|].
        apply Forall_forall. intros x Hin.
        apply elem_of_obj_put in Hin as [->|Hin].
        -- unfold index_lt. cbn. rewrite Hi, Hi0. assert (n ≠ n0); [|lia].
           intros ->. apply String.eqb_neq in E. apply E. by eapply array_index_inj.
        -- by apply (proj1 (Forall_forall _ _) H0 x).
Qed.

Lemma obj_put_index_all {V} k n (v : V) o :
  array_index k = Some n → Forall is_index o → Forall is_index (obj_put k v o).
Proof.
  intros Hi Hall. apply Forall_forall. intros x [->|Hin]%elem_of_obj_put.
  - by exists n.
  - by apply (proj1 (Forall_forall _ _) Hall x).
Qed.

Lemma index_sorted_NoDup {V} (o : list (string * V)) :
  StronglySorted index_lt o → NoDup (map fst o).
Proof.
  induction o as [|[k v] o IH]; cbn; [intros _; apply NoDup_nil_2|].
  intros [H0 Hs]%StronglySorted_cons. apply NoDup_cons. split; [|by apply IH].
  intros ([k1 v1] & Hk & Hin)%list_elem_of_fmap. cbn in Hk. subst k1.
  pose proof (proj1 (Forall_forall _ _) H0 (k, v1) Hin) as H. unfold index_lt in H. cbn in H.
  destruct (array_index k); [lia|done].
Qed.

(** Assignments in any order: the indices end up in ascending order at the
    front, the other keys after them in the order of the assignments. *)
Lemma assign_all_shape (L ia na : list (string * DisabledMode)) :
  Forall is_index ia →
  Forall (fun kv => ¬ is_index kv) na →
  "__proto__" ∉ map fst L →
  NoDup (map fst (na ++ L)%list) →
  foldl (fun acc kv => obj_assign kv.1 kv.2 acc) (ia ++ na)%list L
  = (foldl (fun acc kv => obj_put kv.1 kv.2 acc) ia (filter is_index L)
     ++ (na ++ filter (fun kv => ¬ is_index kv) L))%list.
Proof.
  revert ia na. induction L as [|[k v] L IH]; intros ia na Hia Hna Hp Hnd.
  { cbn. by rewrite app_nil_r. }
  cbn [map fst] in Hp. apply not_elem_of_cons in Hp as [Hk Hp].
  cbn [foldl fst snd]. unfold obj_assign at 2.
  assert (String.eqb k "__proto__" = false) as -> by by apply String.eqb_neq.
  destruct (array_index k) as [n|] eqn:Hi.
  - rewrite (obj_put_index_app k n) by done.
    rewrite IH; [|by eapply obj_put_index_all|done|done|].
    + rewrite filter_cons_True by by exists n.
      rewrite filter_cons_False; [done|]. intros H. apply H. by exists n.
    + rewrite map_app in *. cbn in Hnd. apply NoDup_app in Hnd as (H1 & H2 & H3).
      apply NoDup_cons in H3 as [_ H3]. apply NoDup_app. split; [done|]. split; [|done].
      intros x Hx Hx'. apply (H2 x Hx). apply elem_of_cons. by right.
  - rewrite obj_put_nonindex by done.
    assert (k ∉ map fst ia) as Hkia.
    { intros ([k1 v1] & -> & Hin)%list_elem_of_fmap.
      destruct (proj1 (Forall_forall _ _) Hia _ Hin) as [n Hn]. cbn in *. congruence. }
    assert (k ∉ map fst na) as Hkna.
    { rewrite map_app in Hnd. apply NoDup_app in Hnd as (_ & H2 & _).
      intros Hin. apply (H2 k Hin). cbn. apply elem_of_cons. by left. }
    rewrite obj_set_app_l, obj_set_fresh by done.
    rewrite IH; [|done| |done|].
    + rewrite filter_cons_False by (intros [n Hn]; cbn in *; congruence).
      rewrite filter_cons_True by (apply not_is_index; done).
      by rewrite <- app_assoc.
    + apply Forall_app. split; [done|]. apply Forall_singleton. by apply not_is_index.
    + by rewrite <- app_assoc.
Qed.

Lemma put_all_sorted (L ia : list (string * DisabledMode)) :
  Forall is_index L → Forall is_index ia → StronglySorted index_lt ia →
  StronglySorted index_lt (foldl (fun acc kv => obj_put kv.1 kv.2 acc) ia L).
Proof.
  revert ia. induction L as [|[k v] L IH]; intros ia HL Hia Hs; [done|].
  apply Forall_cons in HL as [[n Hn] HL]. cbn in Hn. cbn [foldl fst snd].
  apply IH; [done|by eapply obj_put_index_all|by eapply obj_put_index_sorted].
Qed.

Lemma put_all_Permutation (L ia : list (string * DisabledMode)) :
  NoDup (map fst (ia ++ L)%list) →
  foldl (fun acc kv => obj_put kv.1 kv.2 acc) ia L ≡ₚ (ia ++ L)%list.
Proof.
  revert ia. induction L as [|[k v] L IH]; intros ia Hnd; [by rewrite app_nil_r|].
  cbn [foldl fst snd].
  assert (k ∉ map fst ia) as Hk.
  { rewrite map_app in Hnd. apply NoDup_app in Hnd as (_ & H2 & _).
    intros Hin. apply (H2 k Hin). cbn. apply elem_of_cons. by left. }
  rewrite IH.
  - rewrite obj_put_Permutation by done. cbn. apply Permutation_middle.
  - rewrite map_app. rewrite (fmap_Permutation _ _ _ (obj_put_Permutation k v ia Hk)).
    rewrite map_app in Hnd. cbn in *.
    by rewrite <- Permutation_middle in Hnd.
Qed.

Section ConsistentOrder.

(** [localeCompare] orders the keys: any two are comparable, and the
    comparison is transitive. *)
Hypothesis key_le_total : ∀ a b, key_le a b ∨ key_le b a.
Hypothesis key_le_trans : ∀ a b c, key_le a b → key_le b c → key_le a c.

Let entry_le {V} (x y : string * V) : Prop := key_le x.1 y.1.

Lemma insert_entry_Permutation {V} (x : string * V) l : insert_entry x l ≡ₚ x :: l.
Proof.
  induction l as [|y l IH]; cbn; [done|].
  destruct (localeCompare x.1 y.1 <=? 0)%Z; [done|].
  rewrite IH. apply Permutation_swap.
Qed.

Lemma insert_entry_sorted {V} (x : string * V) l :
  StronglySorted entry_le l → StronglySorted entry_le (insert_entry x l).
Proof using key_le_total key_le_trans.
  induction l as [|y l IH]; cbn; intros Hs.
  - apply SSorted_cons; [apply SSorted_nil | apply Forall_nil_2].
  - apply StronglySorted_cons in Hs as [Hy Hs].
    destruct (localeCompare x.1 y.1 <=? 0)%Z eqn:E.
    + apply Z.leb_le in E. apply SSorted_cons.
      * by apply SSorted_cons.
      * apply Forall_cons. split; [exact E|].
        eapply Forall_impl; [exact Hy|]. intros z Hz. unfold entry_le in *.
        by eapply key_le_trans.
    + apply Z.leb_gt in E. apply SSorted_cons; [by apply IH|].
      rewrite insert_entry_Permutation. apply Forall_cons. split; [|done].
      unfold entry_le. destruct (key_le_total y.1 x.1) as [H|H]; [done|].
      unfold key_le in H. lia.
Qed.

Lemma sort_entries_sorted {V} (l : list (string * V)) :
  StronglySorted entry_le (sort_entries l).
Proof using key_le_total key_le_trans.
  unfold sort_entries. induction l as [|x l IH]; cbn; [apply SSorted_nil|].
  by apply insert_entry_sorted.
Qed.

(** Sorting a sorted list changes nothing. *)
Lemma sort_entries_fixed {V} (l : list (string * V)) :
  StronglySorted entry_le l → sort_entries l = l.
Proof.
  unfold sort_entries. induction l as [|x l IH]; cbn; [done|].
  intros [Hx Hs]%StronglySorted_cons. rewrite IH by done.
  destruct l as [|y l]; [done|]. cbn.
  apply Forall_cons in Hx as [Hxy _]. unfold entry_le, key_le in Hxy.
  by apply Z.leb_le in Hxy as ->.
Qed.

Lemma obj_set_sorted k (v : DisabledMode) o :
  StronglySorted entry_le o → Forall (fun x => key_le x.1 k) o →
  StronglySorted entry_le (obj_set k v o).
Proof using key_le_trans.
  induction o as [|[k0 v0] o IH]; cbn; intros Hs Hle.
  - apply SSorted_cons; [apply SSorted_nil | apply Forall_nil_2].
  - apply StronglySorted_cons in Hs as [H0 Hs]. apply Forall_cons in Hle as [Hk0 Hle].
    destruct (String.eqb k k0) eqn:E.
    + apply String.eqb_eq in E as ->. by apply SSorted_cons.
    + apply SSorted_cons; [by apply IH|].
      apply Forall_forall. intros [k1 v1] Hin.
      assert (k1 ∈ map fst (obj_set k v o)) as Hin'.
      { apply list_elem_of_fmap. by exists (k1, v1). }
      apply obj_set_keys in Hin' as [->|Hin']; [exact Hk0|].
      apply list_elem_of_fmap in Hin' as ([k2 v2] & -> & Hin2).
      by apply (proj1 (Forall_forall _ _) H0 (k2, v2)).
Qed.


Lemma sort_entries_Permutation {V} (l : list (string * V)) : sort_entries l ≡ₚ l.
Proof.
  unfold sort_entries. induction l as [|x l IH]; cbn; [done|].
  by rewrite insert_entry_Permutation, IH.
Qed.

(** Sorting looks at the keys only. *)
Lemma sort_entries_fmap {V W} (f : V → W) (l : list (string * V)) :
  sort_entries (map (fun kv => (kv.1, f kv.2)) l)
  = map (fun kv => (kv.1, f kv.2)) (sort_entries l).
Proof.
  unfold sort_entries. induction l as [|x l IH]; cbn; [done|]. rewrite IH.
  generalize (foldr insert_entry [] l). intros s.
  induction s as [|y s IHs]; cbn; [done|].
  destruct (localeCompare x.1 y.1 <=? 0)%Z; [done|]. by rewrite IHs.
Qed.

(** A stable sort keeps the order of the entries it is not asked about. *)
Lemma filter_insert_entry {V} (P : string * V → Prop) `{∀ x, Decision (P x)} x l :
  StronglySorted entry_le l →
  filter P (insert_entry x l)
  = if decide (P x) then insert_entry x (filter P l) else filter P l.
Proof using key_le_trans.
  induction l as [|y l IH]; intros Hs.
  - cbn [insert_entry]. rewrite filter_cons, !filter_nil. by destruct (decide (P x)).
  - apply StronglySorted_cons in Hs as [Hy Hs]. cbn [insert_entry].
    destruct (localeCompare x.1 y.1 <=? 0)%Z eqn:E.
    + rewrite (filter_cons P x). destruct (decide (P x)) as [Hx|Hx]; [|done].
      rewrite (filter_cons P y). destruct (decide (P y)) as [Hy'|Hy'].
      * cbn [insert_entry]. by rewrite E.
      * apply Z.leb_le in E.
        assert (Forall (fun z => (localeCompare x.1 z.1 <= 0)%Z) (filter P l)) as Hall.
        { apply Forall_forall. intros z [_ Hz]%list_elem_of_filter.
          pose proof (proj1 (Forall_forall _ _) Hy z Hz) as Hyz.
          by apply (key_le_trans _ y.1). }
        destruct (filter P l) as [|z fl]; [done|]. cbn [insert_entry].
        apply Forall_cons in Hall as [Hz _]. by apply Z.leb_le in Hz as ->.
    + rewrite (filter_cons P y (insert_entry x l)), (filter_cons P y l), (IH Hs).
      destruct (decide (P y)) as [Hy'|Hy']; [|done].
      destruct (decide (P x)); [|done]. cbn [insert_entry]. by rewrite E.
Qed.

Lemma filter_sort_entries {V} (P : string * V → Prop) `{∀ x, Decision (P x)} l :
  filter P (sort_entries l) = sort_entries (filter P l).
Proof using key_le_total key_le_trans.
  unfold sort_entries. induction l as [|x l IH]; [done|]. cbn [foldr].
  rewrite filter_insert_entry by apply sort_entries_sorted.
  rewrite filter_cons. destruct (decide (P x)); [|done]. cbn [foldr]. by rewrite IH.
Qed.

(** What [normalizeDisabledModeConfig] builds from sorted entries has the
    shape of an object filled in that order. *)
Lemma valid_entries_shape (es : list (string * JSON)) ix nx :
  StronglySorted entry_le es →
  assigned_in_order ix nx →
  (∀ a e, a ∈ nx → e ∈ es → key_le a.1 e.1) →
  ∃ ix' nx',
    foldl (fun apps (entry : string * JSON) =>
             match as_mode (Some entry.2) with
             | Some mode => obj_assign entry.1 mode apps
             | None => apps
             end) (ix ++ nx)%list es
    = (ix' ++ nx')%list
    ∧ assigned_in_order ix' nx'.
Proof using key_le_total key_le_trans.
  revert ix nx. induction es as [|[k v] es IH]; intros ix nx Hes Hsh Hle.
  { by exists ix, nx. }
  apply StronglySorted_cons in Hes as [Hk Hes]. cbn -[as_mode].
  assert (∀ a e, a ∈ nx → e ∈ es → key_le a.1 e.1) as Hle'.
  { intros a e Ha He. apply (Hle a e Ha). apply elem_of_cons. by right. }
  destruct (as_mode (Some v)) as [mode|]; [|by apply IH].
  unfold obj_assign. destruct (String.eqb k "__proto__") eqn:Hp; [by apply IH|].
  apply String.eqb_neq in Hp.
  destruct Hsh as (Hix & Hixs & Hnx & Hnp & Hnd & Hnxs).
  destruct (array_index k) as [n|] eqn:Hi.
  - rewrite (obj_put_index_app k n) by done. apply IH; [done| |done].
    split; [by eapply obj_put_index_all|]. split; [by eapply obj_put_index_sorted|done].
  - rewrite obj_put_nonindex by done.
    assert (k ∉ map fst ix) as Hkix.
    { intros ([k1 v1] & -> & Hin)%list_elem_of_fmap.
      destruct (proj1 (Forall_forall _ _) Hix _ Hin) as [n Hn]. cbn in *. congruence. }
    rewrite obj_set_app_l by done. apply IH; [done| |].
    + split; [done|]. split; [done|]. split; [|split; [|split]].
      * apply Forall_forall. intros [k1 v1] Hin.
        assert (k1 ∈ map fst (obj_set k mode nx)) as Hin'.
        { apply list_elem_of_fmap. by exists (k1, v1). }
        apply obj_set_keys in Hin' as [->|Hin']; [by apply not_is_index|].
        apply list_elem_of_fmap in Hin' as ([k2 v2] & -> & Hin2).
        by apply (proj1 (Forall_forall _ _) Hnx (k2, v2)).
      * rewrite obj_set_keys. by intros [?|?].
      * by apply obj_set_NoDup.
      * apply obj_set_sorted; [done|].
        apply Forall_forall. intros a Ha. apply (Hle a (k, v) Ha). apply elem_of_cons. by left.
    + intros [k1 v1] e Ha He.
      assert (k1 ∈ map fst (obj_set k mode nx)) as Hin'.
      { apply list_elem_of_fmap. by exists (k1, v1). }
      apply obj_set_keys in Hin' as [->|Hin'].
      * by apply (proj1 (Forall_forall _ _) Hk e).
      * apply list_elem_of_fmap in Hin' as ([k2 v2] & -> & Hin2). by apply (Hle' (k2, v2) e).
Qed.

Lemma filter_all {A} (P : A → Prop) `{∀ x, Decision (P x)} l :
  Forall P l → filter P l = l.
Proof.
  induction l as [|x l IH]; [done|]. intros [Hx Hl]%Forall_cons.
  by rewrite filter_cons_True, IH.
Qed.

Lemma filter_none {A} (P : A → Prop) `{∀ x, Decision (P x)} l :
  Forall (fun x => ¬ P x) l → filter P l = [].
Proof.
  induction l as [|x l IH]; [done|]. intros [Hx Hl]%Forall_cons.
  by rewrite filter_cons_False, IH.
Qed.

(** An object of that shape is what its own entries, sorted and assigned
    again, build. *)
Lemma assigned_in_order_fixed ix nx :
  assigned_in_order ix nx →
  foldl (fun acc kv => obj_assign kv.1 kv.2 acc) [] (sort_entries (ix ++ nx)%list)
  = (ix ++ nx)%list.
Proof using key_le_total key_le_trans.
  intros (Hix & Hixs & Hnx & Hnp & Hnd & Hnxs).
  assert (NoDup (map fst (ix ++ nx)%list)) as Hndall.
  { rewrite map_app. apply NoDup_app. split; [by apply index_sorted_NoDup|]. split; [|done].
    intros k ([k1 v1] & -> & Hin)%list_elem_of_fmap ([k2 v2] & Hk & Hin2)%list_elem_of_fmap.
    cbn in Hk. subst k2.
    destruct (proj1 (Forall_forall _ _) Hix _ Hin) as [n Hn].
    apply (proj1 (Forall_forall _ _) Hnx _ Hin2). by exists n. }
  assert ("__proto__" ∉ map fst (ix ++ nx)%list) as Hnpall.
  { rewrite map_app, elem_of_app. intros [([k1 v1] & Hk & Hin)%list_elem_of_fmap|?]; [|done].
    cbn in Hk. subst k1.
    by destruct (proj1 (Forall_forall _ _) Hix _ Hin) as [n Hn]. }
  pose proof (sort_entries_Permutation (ix ++ nx)%list) as Hperm.
  set (L := sort_entries (ix ++ nx)%list) in *.
  assert (filter is_index (ix ++ nx)%list = ix) as Hfi.
  { rewrite filter_app, filter_all, filter_none by done. by rewrite app_nil_r. }
  assert (filter (fun kv => ¬ is_index kv) (ix ++ nx)%list = nx) as Hfn.
  { rewrite filter_app, (filter_all _ nx) by done.
    rewrite filter_none; [done|]. eapply Forall_impl; [exact Hix|]. by intros x Hx Hn. }
  change (@nil (string * DisabledMode)) with (@nil (string * DisabledMode) ++ [])%list at 1.
  rewrite assign_all_shape; [|done|done|by rewrite Hperm|by cbn; rewrite Hperm].
  cbn [app]. f_equal.
  - apply (StronglySorted_unique_strong index_lt); [| |done|].
    + intros x y _ _ Hxy Hyx. exfalso. unfold index_lt in *.
      destruct (array_index x.1), (array_index y.1); try done. lia.
    + apply put_all_sorted; [|done|apply SSorted_nil].
      apply Forall_forall. by intros x [? _]%list_elem_of_filter.
    + rewrite put_all_Permutation.
      * cbn [app]. by rewrite Hperm, Hfi.
      * cbn [app]. eapply sublist_NoDup; [|apply fmap_sublist, sublist_filter].
        by rewrite Hperm.
  - unfold L. rewrite filter_sort_entries, Hfn. by apply sort_entries_fixed.
Qed.

(** X4.  With a [localeCompare] that orders the keys, the normal form of a
    mode configuration is a fixed point: normalising the value of a
    normalised configuration gives that configuration back, entry for entry
    and in the same order, the order in which JS enumerates the entries:
    array indices first, ascending, then the other keys in [localeCompare]
    order. *)
Theorem normalizeDisabledModeConfig_idempotent value m :
  normalizeDisabledModeConfig value = Some m →
  normalizeDisabledModeConfig (Some (ModeConfig_value m)) = Some m
  ∧ ∃ ix nx, mc_apps m = (ix ++ nx)%list ∧ assigned_in_order ix nx.
Proof using key_le_total key_le_trans.
  intros Hm.
  assert (∃ ix nx, mc_apps m = (ix ++ nx)%list ∧ assigned_in_order ix nx) as Hshape.
  { assert (assigned_in_order [] []) as H0.
    { repeat split; try apply Forall_nil_2; try apply SSorted_nil;
        try apply NoDup_nil_2. by intros ?%elem_of_nil. }
    unfold normalizeDisabledModeConfig in Hm.
    destruct (as_mode value) as [d|].
    { injection Hm as <-. by exists [], []. }
    destruct (_ || _); [done|]. injection Hm as <-. cbn -[as_mode].
    destruct (_ && _); [|by exists [], []].
    apply (valid_entries_shape _ [] []); [apply sort_entries_sorted|done|].
    by intros a e ?%elem_of_nil. }
  split; [|done]. destruct Hshape as (ix & nx & Hm' & Hsh).
  destruct m as [d apps_]. cbn [mc_apps] in *. subst apps_.
  unfold normalizeDisabledModeConfig, ModeConfig_value. cbn [mc_default mc_apps].
  change (as_mode (Some (JObj ?f))) with (@None DisabledMode).
  cbn [truthy typeof_object Array_isArray negb orb andb prop obj_get].
  change (String.eqb "apps" "default") with false.
  change (String.eqb "apps" "apps") with true.
  change (String.eqb "default" "default") with true.
  cbn iota. cbn [truthy typeof_object Array_isArray negb andb Object_entries].
  rewrite as_mode_mode_name. do 2 f_equal.
  rewrite (sort_entries_fmap (fun m => JStr (mode_name m))).
  rewrite <- (assigned_in_order_fixed ix nx Hsh) at 2.
  generalize (sort_entries (ix ++ nx)%list). generalize (@nil (string * DisabledMode)).
  intros acc l. revert acc. induction l as [|[k md] l IH]; intros acc; [done|].
  cbn [map foldl fst snd]. by rewrite as_mode_mode_name, IH.
Qed.

End ConsistentOrder.

(** ** The divergence test of the re-probe *)

Lemma existsb_not_has (l k : list string) :
  existsb (fun name => negb (Set_has k name)) l = false ↔ (∀ x, x ∈ l → x ∈ k).
Proof.
  induction l as [|y l IH]; cbn.
  - split; [by intros _ x ?%elem_of_nil | done].
  - rewrite orb_false_iff, IH, negb_false_iff, Set_has_true. split.
    + intros [Hy Hl] x [->|Hx]%elem_of_cons; auto.
    + intros H. split; [apply H, elem_of_cons; by left|].
      intros x Hx. apply H, elem_of_cons. by right.
Qed.

Lemma same_length_subset (l k : list string) :
  NoDup l → length l = length k → (∀ x, x ∈ l → x ∈ k) → ∀ x, x ∈ k → x ∈ l.
Proof.
  intros Hnd Hlen Hsub x Hx.
  assert (l ≡ₚ k) as Hp.
  { apply submseteq_length_Permutation; [by apply NoDup_submseteq | lia]. }
  by rewrite Hp.
Qed.

(** X5.  On duplicate-free lists the test that decides on a reload, two
    size comparisons and two one-way inclusions, is an equality test: it
    finds no divergence exactly when the cached and the fresh snapshot have
    the same available names, the same disabled names and the same
    serialised mode. *)
Theorem no_divergence_iff_same_snapshot cached availableApps serverDisabledApps mode :
  NoDup (snap_available cached) →
  NoDup (snap_disabled cached) →
  NoDup availableApps →
  NoDup serverDisabledApps →
  diverged cached availableApps serverDisabledApps mode = false
  ↔ (∀ x, x ∈ snap_available cached ↔ x ∈ availableApps)
    ∧ (∀ x, x ∈ snap_disabled cached ↔ x ∈ serverDisabledApps)
    ∧ JSON_stringify (mode_or_null (snap_disabledMode cached))
      = JSON_stringify (mode_or_null mode).
Proof.
  intros Hca Hcd Ha Hd. unfold diverged.
  rewrite !orb_false_iff, !negb_false_iff, !existsb_not_has, !Nat.eqb_eq, String.eqb_eq.
  split.
  - intros ((((Hla & Hld) & Hm) & Hsa) & Hsd).
    split; [|split; [|done]]; intros x; split; auto.
    + by apply same_length_subset.
    + by apply same_length_subset.
  - intros (Hsa & Hsd & Hm).
    assert (snap_available cached ≡ₚ availableApps) as Hpa by by apply NoDup_Permutation.
    assert (snap_disabled cached ≡ₚ serverDisabledApps) as Hpd by by apply NoDup_Permutation.
    repeat split; try done.
    + by rewrite Hpa.
    + by rewrite Hpd.
    + intros x. apply Hsa.
    + intros x. apply Hsd.
Qed.

(** ** The application loader never fails *)

Lemma andThen_effect {B} k (f : unit → Async B) w : andThen (effect k) f w = f tt (k w).
Proof. done. Qed.

Lemma andThen_peek {A B} (g : World → A) (f : A → Async B) w :
  andThen (peek g) f w = f (g w) w.
Proof. done. Qed.

Lemma keeps_marks_resolve {A} (a : A) : keeps_marks (resolve a).
Proof. by intros w. Qed.

Lemma keeps_marks_reject {A} e : keeps_marks (@reject A e).
Proof. by intros w. Qed.

Lemma keeps_marks_peek {A} (g : World → A) : keeps_marks (peek g).
Proof. by intros w. Qed.

Lemma keeps_marks_andThen {A B} (p : Async A) (f : A → Async B) :
  keeps_marks p → (∀ a, keeps_marks (f a)) → keeps_marks (andThen p f).
Proof.
  intros Hp Hf w. unfold andThen. specialize (Hp w).
  destruct (p w) as [[a|e] w'] eqn:E; cbn in *; [|done].
  by rewrite (Hf a w').
Qed.

Lemma keeps_marks_catch {A} (p : Async A) h :
  keeps_marks p → (∀ e, keeps_marks (h e)) → keeps_marks (catch p h).
Proof.
  intros Hp Hh w. unfold catch. specialize (Hp w).
  destruct (p w) as [[a|e] w'] eqn:E; cbn in *; [done|].
  by rewrite (Hh e w').
Qed.

Lemma keeps_marks_fetch url method range timeoutMs :
  keeps_marks (fetch url method range timeoutMs).
Proof.
  intros w. rewrite fetch_eq. by destruct (next_outcome w).
Qed.

Lemma keeps_marks_text res : keeps_marks (text res).
Proof. intros w. unfold text. by destruct (body res). Qed.

Lemma keeps_marks_detectModuleFormat url : keeps_marks (detectModuleFormat url).
Proof.
  intros w. unfold detectModuleFormat.
  destruct (moduleFormatCache w !! url); [done|].
  apply keeps_marks_catch; [|intros; apply keeps_marks_resolve].
  apply keeps_marks_andThen; [apply keeps_marks_fetch|]. intros res.
  destruct (_ && _); [apply keeps_marks_resolve|].
  destruct (status res =? 206)%Z.
  - apply keeps_marks_andThen; [apply keeps_marks_text|]. intros head.
    destruct (negb _).
    + apply keeps_marks_andThen; [by intros ?|]. intros; apply keeps_marks_resolve.
    + apply keeps_marks_andThen; [apply keeps_marks_fetch|]. intros r.
      apply keeps_marks_andThen.
      { destruct (ok r); [apply keeps_marks_text | apply keeps_marks_resolve]. }
      intros full. apply keeps_marks_andThen; [by intros ?|].
      intros; apply keeps_marks_resolve.
  - apply keeps_marks_andThen; [apply keeps_marks_text|]. intros source.
    apply keeps_marks_andThen; [by intros ?|]. intros; apply keeps_marks_resolve.
Qed.

Lemma settle_marks p st w : marks (settle p st w) = marks w.
Proof. unfold settle. by destruct (promises w !! p) as [[| |]|]. Qed.

Lemma script_onerror_marks url k p w : marks (script_onerror url k p w) = marks w.
Proof.
  unfold script_onerror. cbn.
  destruct (promises w !! p) as [[| |]|]; try done. cbn. by rewrite settle_marks.
Qed.

Lemma loadUmdScript_marks url w : marks (loadUmdScript url w).2 = marks w.
Proof. unfold loadUmdScript. by destruct (umdLoads w !! _). Qed.

Lemma keeps_marks_awaitUmdScript url : keeps_marks (awaitUmdScript url).
Proof.
  intros w. unfold awaitUmdScript.
  pose proof (loadUmdScript_marks url w) as Hl.
  destruct (loadUmdScript url w) as [p w1]. cbn in Hl.
  destruct (promises w1 !! p) as [[| |]|]; cbn; try done;
    (destruct (scriptEvents w1) as [|[defines|] rest]; cbn;
     [by rewrite script_onerror_marks
     |unfold script_onload; by rewrite settle_marks
     |by rewrite script_onerror_marks]).
Qed.

Lemma keeps_marks_nativeImport specifier : keeps_marks (nativeImport specifier).
Proof. intros w. unfold nativeImport. cbn. by destruct (importResults w) as [|[|] ?]. Qed.

Lemma keeps_marks_systemImport specifier : keeps_marks (systemImport specifier).
Proof. intros w. unfold systemImport. cbn. by destruct (importResults w) as [|[|] ?]. Qed.

Lemma keeps_marks_systemImportByUrl url : keeps_marks (systemImportByUrl url).
Proof.
  unfold systemImportByUrl, importByUrl.
  destruct hasSystemImport; [apply keeps_marks_systemImport | apply keeps_marks_nativeImport].
Qed.

Lemma keeps_marks_wrapModuleLifecycles name mod_ :
  keeps_marks (wrapModuleLifecycles name mod_).
Proof. by destruct mod_. Qed.

Lemma always_resolves_catch {A} (p : Async A) h :
  (∀ e, always_resolves (h e)) → always_resolves (catch p h).
Proof.
  intros Hh w. unfold catch. destruct (p w) as [[a|e] w']; [by exists a|]. apply Hh.
Qed.

Lemma always_resolves_resolve {A} (a : A) : always_resolves (resolve a).
Proof. intros w. by exists a. Qed.

Create HintDb loader.

Local Hint Resolve keeps_marks_resolve keeps_marks_reject keeps_marks_peek
  keeps_marks_fetch keeps_marks_text keeps_marks_detectModuleFormat
  keeps_marks_awaitUmdScript keeps_marks_nativeImport keeps_marks_systemImport
  keeps_marks_systemImportByUrl keeps_marks_wrapModuleLifecycles
  always_resolves_resolve : loader.

(** [loadApp] is a chain that resolves and records nothing, between the
    start mark and the closing of the metrics. *)
Lemma loadApp_shape name w :
  ∃ chain : Async AppHandle,
    keeps_marks chain ∧ always_resolves chain
    ∧ loadApp name w
      = finally chain (finalizeLoadMetrics name)
          (performance_mark ("mfe:" ++ name ++ ":load:start") w).
Proof.
  unfold loadApp. rewrite andThen_effect, andThen_peek.
  destruct (Set_has _ name).
  { eexists. split; [|split; [|reflexivity]]; auto with loader. }
  destruct (obj_get name umdApps) as [app|].
  { eexists. split; [|split; [|reflexivity]].
    - apply keeps_marks_catch; [|auto with loader].
      apply keeps_marks_andThen; [auto with loader|]. intros _.
      apply keeps_marks_andThen; auto with loader.
    - apply always_resolves_catch. auto with loader. }
  destruct (Set_has systemFirstApps name).
  - eexists. split; [|split; [|reflexivity]].
    + apply keeps_marks_catch.
      * apply keeps_marks_andThen; [|auto with loader].
        destruct (if isLocalhost then obj_get name localAppUrls else None) as [localUrl|].
        -- apply keeps_marks_andThen; [auto with loader|]. intros format.
           apply keeps_marks_andThen; [auto with loader|]. intros importUrl.
           destruct format; cbv iota; auto with loader.
           ++ apply keeps_marks_andThen; [auto with loader|]. intros _.
              apply keeps_marks_andThen; [auto with loader|]. intros [m|]; auto with loader.
           ++ apply keeps_marks_catch; [unfold importByUrl|]; auto with loader.
        -- destruct hasSystemImport; auto with loader.
      * intros systemError. apply keeps_marks_catch; [|auto with loader].
        apply keeps_marks_andThen; [|auto with loader].
        destruct (if isLocalhost then obj_get name localAppUrls else None) as [localUrl|];
          [|auto with loader].
        apply keeps_marks_andThen; [auto with loader|]. intros bust.
        unfold importByUrl. auto with loader.
    + apply always_resolves_catch. intros e. apply always_resolves_catch. auto with loader.
  - eexists. split; [|split; [|reflexivity]].
    + apply keeps_marks_catch; [|auto with loader].
      apply keeps_marks_andThen; auto with loader.
    + apply always_resolves_catch. auto with loader.
Qed.

(** X6.  [loadApp] never rejects: for every name that [Object.prototype]
    does not define, and in every state of the page, of the network and of
    the module registry, it resolves with a lifecycle handle.  Where the
    performance API exists it records exactly the start mark, the end mark
    and the measure of that load, in this order, and nothing else; where it
    does not, it records nothing.  (For a name such as [constructor] the
    test [name in umdApps] of the source holds, and the call takes the
    script branch with an undefined URL.) *)
Theorem loadApp_never_rejects name w :
  name ∉ Object_prototype_keys →
  ∃ handle w',
    loadApp name w = (Resolved handle, w')
    ∧ marks w' = (marks w ++ if hasPerformance then load_entries name else [])%list.
Proof.
  intros _.
  destruct (loadApp_shape name w) as (chain & Hk & Hr & ->).
  unfold finally.
  set (w0 := performance_mark ("mfe:" ++ name ++ ":load:start") w).
  specialize (Hk w0). destruct (Hr w0) as [handle Hh].
  destruct (chain w0) as [r w1]. cbn in Hk, Hh. subst r.
  exists handle, (finalizeLoadMetrics name w1). split; [done|].
  unfold finalizeLoadMetrics, performance_measure, performance_mark, load_entries.
  unfold w0, performance_mark in Hk.
  destruct hasPerformance; cbn in *; rewrite Hk; [|by rewrite app_nil_r].
  by rewrite <- !app_assoc.
Qed.

(** ** Paths and route guards *)

Lemma all_slashes_app s t : all_slashes (s ++ t) = all_slashes s && all_slashes t.
Proof.
  induction s as [|c s IH]; [done|]. app_norm. cbn [all_slashes].
  by rewrite IH, andb_assoc.
Qed.

Lemma all_slashes_dropTrailingSlashes s :
  all_slashes (dropTrailingSlashes s) = all_slashes s.
Proof.
  induction s as [|c s IH]; [done|]. cbn [dropTrailingSlashes all_slashes].
  destruct (Ascii.eqb c "/" && all_slashes s) eqn:E; [done|].
  cbn [all_slashes]. by rewrite IH.
Qed.

Lemma dropTrailingSlashes_empty s :
  dropTrailingSlashes s = "" ↔ all_slashes s = true.
Proof.
  destruct s as [|c s]; [done|]. cbn [dropTrailingSlashes all_slashes].
  by destruct (Ascii.eqb c "/" && all_slashes s).
Qed.

Lemma dropTrailingSlashes_idemp s :
  dropTrailingSlashes (dropTrailingSlashes s) = dropTrailingSlashes s.
Proof.
  induction s as [|c s IH]; [done|]. cbn [dropTrailingSlashes].
  destruct (Ascii.eqb c "/" && all_slashes s) eqn:E; [done|].
  cbn [dropTrailingSlashes]. by rewrite all_slashes_dropTrailingSlashes, E, IH.
Qed.

Lemma dropTrailingSlashes_slash s :
  dropTrailingSlashes (s ++ "/") = dropTrailingSlashes s.
Proof.
  induction s as [|c s IH]; [done|]. app_norm. cbn [dropTrailingSlashes].
  rewrite all_slashes_app, IH. change (all_slashes "/") with true.
  by rewrite andb_true_r.
Qed.

Lemma dropTrailingSlashes_no_trailing_slash s t :
  dropTrailingSlashes s ≠ t ++ "/".
Proof.
  revert t. induction s as [|c s IH]; intros t; cbn [dropTrailingSlashes].
  - by destruct t.
  - destruct (Ascii.eqb c "/" && all_slashes s) eqn:E; [by destruct t|].
    destruct t as [|d t]; app_norm.
    + intros H. injection H as -> H. apply dropTrailingSlashes_empty in H.
      by rewrite H in E.
    + intros H. injection H as -> H. by apply IH in H.
Qed.

Lemma dropTrailingSlashes_split s :
  ∃ slashes, all_slashes slashes = true ∧ s = dropTrailingSlashes s ++ slashes.
Proof.
  induction s as [|c s (slashes & Hs & IH)]; [by exists ""|].
  cbn [dropTrailingSlashes]. destruct (Ascii.eqb c "/" && all_slashes s) eqn:E.
  - by exists (String c s).
  - exists slashes. split; [done|]. app_norm. by rewrite <- IH.
Qed.

Lemma normalizePath_eq path :
  normalizePath path
  = if all_slashes path then "/" else dropTrailingSlashes path.
Proof.
  unfold normalizePath. destruct (all_slashes path) eqn:E.
  - apply dropTrailingSlashes_empty in E. by rewrite E.
  - destruct (dropTrailingSlashes path) eqn:D; [|done].
    apply dropTrailingSlashes_empty in D. by rewrite D in E.
Qed.

(** X7.  [normalizePath] yields a canonical path: never empty, without a
    trailing slash unless it is the root itself, unchanged by a second
    normalisation and by a further slash at the end of its input; what it
    removes from its input are slashes at the end, all of them. *)
Theorem normalizePath_canonical path :
  normalizePath path ≠ ""
  ∧ (∀ s, normalizePath path = s ++ "/" → s = "")
  ∧ normalizePath (normalizePath path) = normalizePath path
  ∧ normalizePath (path ++ "/") = normalizePath path
  ∧ (∃ slashes, all_slashes slashes = true
       ∧ path = dropTrailingSlashes path ++ slashes).
Proof.
  rewrite !normalizePath_eq.
  split; [|split; [|split; [|split]]].
  - destruct (all_slashes path) eqn:E; [done|].
    intros H%dropTrailingSlashes_empty. by rewrite H in E.
  - intros s. destruct (all_slashes path).
    + destruct s as [|c [|d s]]; done.
    + by intros ?%dropTrailingSlashes_no_trailing_slash.
  - destruct (all_slashes path) eqn:E; [done|].
    by rewrite all_slashes_dropTrailingSlashes, E, dropTrailingSlashes_idemp.
  - rewrite all_slashes_app, dropTrailingSlashes_slash.
    change (all_slashes "/") with true. by rewrite andb_true_r.
  - apply dropTrailingSlashes_split.
Qed.

Lemma prefix_cons a p b s :
  String.prefix (String a p) (String b s) = Ascii.eqb a b && String.prefix p s.
Proof.
  cbn [String.prefix]. destruct (ascii_dec a b) as [->|Hne]; [by rewrite Ascii.eqb_refl|].
  by apply Ascii.eqb_neq in Hne as ->.
Qed.

Lemma auth_path_not_protected path :
  isAuthPath path = true → isProtectedPath path = false.
Proof.
  unfold isAuthPath, isProtectedPath, startsWith.
  destruct (normalizePath path) as [|c1 [|c2 n]]; [done| |].
  - rewrite prefix_cons. change (String.prefix "auth" "") with false.
    by rewrite andb_false_r.
  - rewrite !prefix_cons. intros [H1 [H2 _]%andb_true_iff]%andb_true_iff.
    apply Ascii.eqb_eq in H1 as <-. apply Ascii.eqb_eq in H2 as <-.
    unfold AUTH_REQUIRED_PREFIXES. cbn [existsb]. rewrite !prefix_cons.
    change (Ascii.eqb "p" "a") with false. change (Ascii.eqb "/" "/") with true.
    done.
Qed.

Lemma login_url_is_auth_path returnTo : isAuthPath (buildLoginUrl returnTo) = true.
Proof.
  unfold isAuthPath, buildLoginUrl, AUTH_LOGIN_PATH, AUTH_RETURN_PARAM.
  rewrite normalizePath_eq. app_norm. cbn [all_slashes dropTrailingSlashes].
  change (Ascii.eqb "/" "/") with true. change (Ascii.eqb "a" "/") with false.
  cbn [andb]. change (Ascii.eqb "/" "/") with true. change (Ascii.eqb "a" "/") with false.
  done.
Qed.

(** X8.  The route guard cannot loop.  No path of the login area is a
    protected path, the login URL the guard redirects to is itself a path of
    the login area, so a navigation to it is never redirected again; a
    signed-in visitor is never redirected; and a redirection happens only
    from a protected path, to the login URL that carries this path. *)
Theorem route_guard_never_loops :
  (∀ path, isAuthPath path = true → isProtectedPath path = false)
  ∧ (∀ isAuthenticated returnTo,
       ensureAuthForPath isAuthenticated (buildLoginUrl returnTo) = None)
  ∧ (∀ path, ensureAuthForPath true path = None)
  ∧ (∀ path target,
       ensureAuthForPath false path = Some target →
       target = buildLoginUrl path
       ∧ isProtectedPath path = true ∧ isAuthPath path = false).
Proof.
  split; [apply auth_path_not_protected|]. split; [|split; [done|]].
  - intros a returnTo. unfold ensureAuthForPath.
    rewrite login_url_is_auth_path. by destruct a.
  - intros path target. unfold ensureAuthForPath.
    destruct (isAuthPath path); [done|].
    destruct (isProtectedPath path); [|done]. cbn [negb]. by intros [= <-].
Qed.

(** ** The auth build poller *)

Lemma fetched_json_payload o w :
  (let* res := fetched o in if ok res then json res else resolve JNull) w
  = (match o with
     | Answer res =>
         if ok res then
           match payload o with
           | Some data => Resolved data
           | None =>
               match body res with
               | Some _ => Rejected "SyntaxError"
               | None => Rejected "body unreadable"
               end
           end
         else Resolved JNull
     | NetworkError => Rejected "fetch failed"
     end, w).
Proof.
  destruct o as [res|]; [|done]. unfold andThen, fetched, resolve, payload.
  destruct (ok res); [|done]. unfold json, text, andThen.
  destruct (body res) as [s|]; cbn; [|done]. by destruct (JSON_parse s).
Qed.

Lemma buildPoll_settled_in_flight o b w :
  buildInFlight b = true →
  buildPoll_settled o (b, w)
  = match build_id o with
    | None =>
        ({| lastBuildId := lastBuildId b; buildTimer := Some buildIntervalMs;
            buildInFlight := false |}, w)
    | Some next =>
        if build_changed (lastBuildId b) next
        then ({| lastBuildId := lastBuildId b; buildTimer := Some buildIntervalMs;
                 buildInFlight := false |}, safeReload w)
        else ({| lastBuildId := Some next; buildTimer := Some buildIntervalMs;
                 buildInFlight := false |}, w)
    end.
Proof.
  intros Hb. unfold buildPoll_settled, build_id, build_changed. rewrite Hb.
  cbn [negb]. rewrite fetched_json_payload.
  destruct o as [res|]; [|done]. unfold payload.
  destruct (ok res) eqn:Hok; [|done].
  destruct (body res ≫= JSON_parse) as [data|] eqn:Hp; [|by destruct (body res)].
  rewrite <- negb_andb.
  destruct (truthy (Some data) && typeof_object (Some data)); cbn [negb]; [|done].
  destruct (buildIdOf data) as [next|]; [|done].
  destruct (String.eqb next ""); [done|].
  by destruct (match lastBuildId b with Some _ => _ | None => _ end).
Qed.

(** X9.  The auth build poller exists on localhost only.  When a poll
    settles, the poller is idle again and the next poll is due in 2000 ms.
    A result that carries no build id changes nothing else.  The first
    build id is recorded without a reload; the recorded id again changes
    nothing; a different id asks for a reload through the guard and leaves
    the recorded id as it was. *)
Theorem auth_build_change_reloads :
  (isLocalhost = false → ∀ w, watchAuthBuild w = (None, w))
  ∧ (∀ o b w,
       buildInFlight b = true →
       buildPoll_settled o (b, w)
       = match build_id o with
         | None =>
             ({| lastBuildId := lastBuildId b; buildTimer := Some buildIntervalMs;
                 buildInFlight := false |}, w)
         | Some next =>
             if build_changed (lastBuildId b) next
             then ({| lastBuildId := lastBuildId b; buildTimer := Some buildIntervalMs;
                      buildInFlight := false |}, safeReload w)
             else ({| lastBuildId := Some next; buildTimer := Some buildIntervalMs;
                      buildInFlight := false |}, w)
         end).
Proof.
  split.
  - intros Hprod w. unfold watchAuthBuild. by rewrite Hprod.
  - intros o b w Hb. by apply buildPoll_settled_in_flight.
Qed.

Lemma build_requests_app log log' :
  build_requests (log ++ log') = (build_requests log + build_requests log')%nat.
Proof. unfold build_requests. by rewrite List.filter_app, length_app. Qed.

Lemma buildPoll_settled_requests o s :
  requests (buildPoll_settled o s).2 = requests s.2.
Proof.
  destruct s as [b w]. destruct (buildInFlight b) eqn:Hb.
  - rewrite buildPoll_settled_in_flight by done.
    destruct (build_id o) as [next|]; [|done].
    destruct (build_changed _ _); [|done].
    cbn [snd]. unfold safeReload. by destruct (reloadScheduled w).
  - unfold buildPoll_settled. by rewrite Hb.
Qed.

Lemma buildPoll_settled_idle o s :
  buildInFlight (buildPoll_settled o s).1 = false.
Proof.
  destruct s as [b w]. destruct (buildInFlight b) eqn:Hb.
  - rewrite buildPoll_settled_in_flight by done.
    destruct (build_id o) as [next|]; [|done]. by destruct (build_changed _ _).
  - unfold buildPoll_settled. by rewrite Hb.
Qed.

Lemma buildPoll_flight s :
  (build_requests (requests (buildPoll s).2)
   + (if buildInFlight (buildPoll s).1 then 0 else 1)
   = build_requests (requests s.2) + (if buildInFlight s.1 then 0 else 1))%nat.
Proof.
  destruct s as [b w]. unfold buildPoll.
  destruct (buildInFlight b) eqn:Hb; [by cbn; rewrite Hb|].
  destruct (hidden w); [by cbn; rewrite Hb|].
  cbn [fst snd buildInFlight]. destruct w. cbn [set_requests requests].
  rewrite build_requests_app, Hb. cbn. lia.
Qed.

Lemma set_hidden_requests h w : requests (set_hidden h w) = requests w.
Proof. by destruct w. Qed.

(** X25.  The auth build poller never has two requests out.  Whatever
    timers fire, results arrive and visibility changes follow one another,
    the requests sent for the build file exceed the results received by at
    most one, and by none while the poller is idle. *)
Theorem auth_build_single_flight signals (s : BuildWatch * World) :
  let s' := foldl buildDeliver s signals in
  (build_requests (requests s'.2) + (if buildInFlight s'.1 then 0 else 1)
   <= build_requests (requests s.2) + (if buildInFlight s.1 then 0 else 1)
      + length (build_results signals))%nat.
Proof.
  cbn zeta.
  induction signals as [|e signals IH] using rev_ind; [cbn; lia|].
  rewrite foldl_app. cbn [foldl]. unfold build_results in *. rewrite omap_app, length_app.
  set (s' := foldl buildDeliver s signals) in *.
  destruct e as [o| |h]; cbn [buildDeliver omap list_omap length].
  - rewrite buildPoll_settled_requests, buildPoll_settled_idle.
    destruct (buildInFlight s'.1); cbn [length] in *; lia.
  - rewrite buildPoll_flight. cbn [length]. lia.
  - unfold buildOnVisibility. cbn [length].
    destruct h; cbn [negb].
    + cbn [fst snd]. rewrite set_hidden_requests. lia.
    + rewrite buildPoll_flight. cbn [fst snd]. rewrite set_hidden_requests. lia.
Qed.

Lemma buildPoll_guard s : guard (buildPoll s).2 = guard s.2.
Proof.
  destruct s as [b w]. unfold buildPoll.
  destruct (buildInFlight b); [done|]. destruct (hidden w); [done|]. by destruct w.
Qed.

Lemma buildPoll_lastBuildId s : lastBuildId (buildPoll s).1 = lastBuildId s.1.
Proof.
  destruct s as [b w]. unfold buildPoll.
  destruct (buildInFlight b); [done|]. by destruct (hidden w).
Qed.

Lemma set_hidden_guard h w : guard (set_hidden h w) = guard w.
Proof. by destruct w. Qed.

(** X26.  A build id that stays the same never reloads the page.  When the
    poller has recorded no id or the id [v], and every poll result it
    accepts carries [v], then over any timers, results and visibility
    changes the reload guard and the reload count stay as they were and the
    recorded id stays absent or [v]. *)
Theorem auth_build_steady_id_never_reloads v signals (s : BuildWatch * World) :
  lastBuildId s.1 = None ∨ lastBuildId s.1 = Some v →
  Forall (fun o => build_id o = None ∨ build_id o = Some v) (build_results signals) →
  guard (foldl buildDeliver s signals).2 = guard s.2
  ∧ (lastBuildId (foldl buildDeliver s signals).1 = None
     ∨ lastBuildId (foldl buildDeliver s signals).1 = Some v).
Proof.
  intros Hb.
  induction signals as [|e signals IH] using rev_ind; [done|].
  unfold build_results. rewrite omap_app, Forall_app. intros [Hs He].
  destruct (IH Hs) as [Hg Hl]. clear IH. rewrite foldl_app. cbn [foldl].
  set (s' := foldl buildDeliver s signals) in *.
  destruct e as [o| |h]; cbn [buildDeliver].
  - cbn [omap list_omap] in He. rewrite Forall_singleton in He.
    destruct s' as [b' w']. cbn [fst snd] in *.
    destruct (buildInFlight b') eqn:Hf.
    + rewrite buildPoll_settled_in_flight by done.
      destruct He as [-> | ->]; [done|].
      assert (build_changed (lastBuildId b') v = false) as ->.
      { unfold build_changed. destruct Hl as [-> | ->]; [done|].
        by rewrite String.eqb_refl, andb_false_r. }
      cbn. split; [done|by right].
    + unfold buildPoll_settled. by rewrite Hf.
  - by rewrite buildPoll_guard, buildPoll_lastBuildId.
  - unfold buildOnVisibility. destruct h; cbn [negb].
    + cbn [fst snd]. by rewrite set_hidden_guard.
    + rewrite buildPoll_guard, buildPoll_lastBuildId. cbn [fst snd].
      by rewrite set_hidden_guard.
Qed.

(** ** Application error reports *)

Lemma elem_of_List_filter {A} (f : A → bool) l x :
  x ∈ List.filter f l ↔ x ∈ l ∧ f x = true.
Proof. by rewrite list_elem_of_In, filter_In, <- list_elem_of_In. Qed.

Lemma reported_errors_app rs rs' :
  reported_errors (rs ++ rs') = (reported_errors rs ++ reported_errors rs')%list.
Proof. apply omap_app. Qed.

Lemma onAppError_consistent err s :
  reports_consistent s → reports_consistent (onAppError err s).
Proof.
  intros (Hnd & Hin & Hav). unfold onAppError.
  destruct (or_string _ _) as [appName|]; [|done].
  destruct (String.eqb appName "" || Set_has (failedApps s) appName) eqn:E; [done|].
  apply orb_false_iff in E as [_ Hnew%Set_has_false].
  assert (NoDup (reported_errors (reports s) ++ [appName])) as Hnd'.
  { apply NoDup_app. split; [done|]. split; [|apply NoDup_singleton].
    intros x Hx ->%list_elem_of_singleton. by apply Hnew, Hin. }
  assert (∀ name, name ∈ (reported_errors (reports s) ++ [appName])%list →
                  name ∈ Set_add appName (failedApps s)) as Hin'.
  { intros name [H| ->%list_elem_of_singleton]%elem_of_app; apply elem_of_Set_add; auto. }
  destruct (currentAvailableApps s) as [available|] eqn:Hc.
  - destruct (Set_has available appName) eqn:Hh.
    + split; [|split]; cbn [reports failedApps currentAvailableApps].
      * rewrite !reported_errors_app. cbn. by rewrite app_nil_r.
      * intros name. rewrite !reported_errors_app. cbn. rewrite app_nil_r. apply Hin'.
      * intros available' name [= <-] [->|Hf]%elem_of_Set_add.
        -- intros [_ H]%elem_of_List_filter. by rewrite String.eqb_refl in H.
        -- intros [H _]%elem_of_List_filter. by apply (Hav available name).
    + split; [|split]; cbn [reports failedApps currentAvailableApps].
      * by rewrite reported_errors_app.
      * intros name. rewrite reported_errors_app. apply Hin'.
      * intros available' name [= <-] [->|Hf]%elem_of_Set_add.
        -- by apply Set_has_false.
        -- by apply Hav.
  - split; [|split]; cbn [reports failedApps currentAvailableApps]; [| |done].
    + by rewrite reported_errors_app.
    + intros name. rewrite reported_errors_app. apply Hin'.
Qed.

(** X10.  From a state without failures, whatever errors single-spa hands
    to the handler and in whatever order: every application is reported by
    at most one error event, exactly the applications recorded as failed
    are reported, and no failed application remains in the current
    available set. *)
Theorem app_error_reported_once errs available :
  let s := foldl (fun s err => onAppError err s)
             {| failedApps := []; currentAvailableApps := available; reports := [] |} errs in
  NoDup (reported_errors (reports s))
  ∧ (∀ name, name ∈ reported_errors (reports s) ↔ name ∈ failedApps s)
  ∧ (∀ remaining name,
       currentAvailableApps s = Some remaining → name ∈ failedApps s → name ∉ remaining).
Proof.
  cbn zeta.
  set (s0 := {| failedApps := []; currentAvailableApps := available; reports := [] |}).
  assert (reports_consistent s0
          ∧ ∀ name, name ∈ failedApps s0 → name ∈ reported_errors (reports s0)) as H0.
  { split; [|by intros name ?%elem_of_nil].
    split; [apply NoDup_nil_2|]. split; [by intros name ?%elem_of_nil|].
    by intros ? name _ ?%elem_of_nil. }
  revert H0. generalize s0. clear s0.
  induction errs as [|err errs IH]; intros s [Hc Hf]; cbn [foldl].
  - destruct Hc as (Hnd & Hin & Hav). split; [done|]. split; [|done].
    intros name. split; auto.
  - apply IH. split; [by apply onAppError_consistent|].
    unfold onAppError. destruct (or_string _ _) as [appName|]; [|done].
    destruct (String.eqb appName "" || Set_has (failedApps s) appName); [done|].
    assert (∀ name tail_, name ∈ Set_add appName (failedApps s) →
              name ∈ reported_errors
                       ((reports s ++ [MfeError appName
                           (default "Module failed to load"
                              (or_string (err_message err) None))]) ++ tail_)) as Hgoal.
    { intros name tail_ [->|H]%elem_of_Set_add; rewrite !reported_errors_app;
        apply elem_of_app; left; apply elem_of_app; [right|left; auto].
      cbn. apply elem_of_cons. by left. }
    destruct (currentAvailableApps s) as [cur|].
    + destruct (Set_has cur appName); cbn [reports failedApps]; intros name Hn.
      * by apply Hgoal.
      * specialize (Hgoal name [] Hn). by rewrite app_nil_r in Hgoal.
    + cbn [reports failedApps]. intros name Hn.
      specialize (Hgoal name [] Hn). by rewrite app_nil_r in Hgoal.
Qed.

(** ** Theme *)

Lemma themeOf_setThemeMode mode attr : themeOf (setThemeMode mode attr) = mode.
Proof.
  unfold setThemeMode. destruct (ThemeMode_eqb (themeOf attr) mode) eqn:E.
  - by destruct (themeOf attr), mode.
  - by destruct mode.
Qed.

Lemma getSavedTheme_onThemeMutation key attr store :
  getSavedTheme key (onThemeMutation key attr store) = Some (themeOf attr).
Proof.
  unfold getSavedTheme, onThemeMutation. rewrite lookup_insert_eq.
  by destruct (themeOf attr).
Qed.

(** X11.  At start-up a saved theme wins over the system preference, and
    the system preference decides only when nothing valid is saved.
    [setThemeMode] always ends in the mode asked for and does not touch the
    attribute when the element already shows that mode.  What the observer
    saves after a change of the attribute is what the next start-up
    restores, whatever the system prefers then. *)
Theorem saved_theme_wins :
  (∀ prefersDark store attr,
     themeOf (startTheme prefersDark store attr)
     = match getSavedTheme "ds-theme" store with
       | Some saved => saved
       | None => if prefersDark then dark else light
       end)
  ∧ (∀ mode attr, themeOf (setThemeMode mode attr) = mode)
  ∧ (∀ attr, setThemeMode (themeOf attr) attr = attr)
  ∧ (∀ prefersDark store attr attr',
       themeOf (startTheme prefersDark (onThemeMutation "ds-theme" attr store) attr')
       = themeOf attr).
Proof.
  assert (∀ prefersDark store attr,
     themeOf (startTheme prefersDark store attr)
     = match getSavedTheme "ds-theme" store with
       | Some saved => saved
       | None => if prefersDark then dark else light
       end) as H.
  { intros prefersDark store attr. unfold startTheme, persistThemeMode, applySystemTheme.
    destruct (getSavedTheme "ds-theme" store); apply themeOf_setThemeMode. }
  split; [done|]. split; [apply themeOf_setThemeMode|]. split.
  - intros attr. unfold setThemeMode. by destruct (themeOf attr).
  - intros. by rewrite H, getSavedTheme_onThemeMutation.
Qed.

(** ** Document title *)

(** X12.  The shell sets the title of a mapped route whatever the title
    was, slashes at the end of the path notwithstanding, and on the other
    routes it only fills in an empty title: a title a microfrontend has set
    is left alone.  Setting the title twice is setting it once. *)
Theorem setTitleForPath_keeps_app_titles pathname title :
  setTitleForPath (pathname ++ "/") title = setTitleForPath pathname title
  ∧ setTitleForPath pathname (setTitleForPath pathname title)
    = setTitleForPath pathname title
  ∧ (obj_get (dropTrailingSlashes pathname) titleMap = None →
     title ≠ "" → setTitleForPath pathname title = title)
  ∧ (∀ next, obj_get (dropTrailingSlashes pathname) titleMap = Some next →
             setTitleForPath pathname title = next ++ titleSeparator ++ baseTitle).
Proof.
  unfold setTitleForPath. rewrite dropTrailingSlashes_slash.
  split; [done|]. split; [|split].
  - destruct (obj_get _ titleMap); [done|].
    destruct (String.eqb title "") eqn:E1; [done|].
    destruct (String.eqb title baseTitle) eqn:E2; [done|]. cbn. by rewrite E1, E2.
  - intros -> Hne. apply String.eqb_neq in Hne as ->. cbn.
    destruct (String.eqb title baseTitle) eqn:E; [|done]. by apply String.eqb_eq in E.
  - by intros next ->.
Qed.

(** ** The stored mode configuration of the shell UI *)

Lemma shell_normalize_record (c : ShellUi.NormalizedMode) :
  NoDup (map fst (ShellUi.apps c)) →
  ShellUi.normalizeDisabledModeConfig (Some (ShellUi.NormalizedMode_value c)) = c.
Proof.
  intros Hnd. destruct c as [d a]. cbn [ShellUi.apps] in Hnd.
  unfold ShellUi.normalizeDisabledModeConfig, ShellUi.NormalizedMode_value,
    ShellUi.apps_value.
  cbn [ShellUi.default ShellUi.apps truthy negb as_mode].
  destruct d as [d|]; cbn [app prop obj_get].
  - change (String.eqb "apps" "default") with false.
    change (String.eqb "apps" "apps") with true.
    change (String.eqb "default" "default") with true.
    cbn [truthy typeof_object andb Object_entries]. rewrite as_mode_mode_name.
    f_equal. by apply (valid_entries_fold a []).
  - change (String.eqb "apps" "apps") with true.
    change (String.eqb "default" "apps") with false.
    cbn [truthy typeof_object andb Object_entries obj_get as_mode].
    f_equal. by apply (valid_entries_fold a []).
Qed.

Lemma shell_normalize_stored d a :
  NoDup (map fst a) →
  ShellUi.normalizeDisabledModeConfig (Some (ShellUi.stored_value d a))
  = {| ShellUi.default := Some (match d with Some placeholder => placeholder | _ => hide end);
       ShellUi.apps := a |}.
Proof.
  intros Hnd.
  unfold ShellUi.normalizeDisabledModeConfig, ShellUi.stored_value, ShellUi.apps_value.
  cbn [truthy negb as_mode prop obj_get].
  change (String.eqb "apps" "default") with false.
  change (String.eqb "apps" "apps") with true.
  change (String.eqb "default" "default") with true.
  cbn [truthy typeof_object andb Object_entries]. f_equal.
  - by destruct d as [[|]|].
  - by apply (valid_entries_fold a []).
Qed.

Lemma shell_storageConfig_setItem raw fields w store :
  localStorage w = Some store →
  raw ≠ "" →
  JSON_parse raw = Some (JObj fields) →
  ShellUi.storageConfig JSON_parse (ShellUi.setItem ShellUi.DISABLED_MODE_KEY raw w)
  = Some (JObj fields).
Proof.
  intros Hs Hne Hp. unfold ShellUi.storageConfig, ShellUi.setItem. rewrite Hs.
  cbn [localStorage set_localStorage]. rewrite lookup_insert_eq.
  apply String.eqb_neq in Hne. by rewrite Hne, Hp.
Qed.

Lemma shell_setItem_mfeDisabledMode key raw w :
  mfeDisabledMode (ShellUi.setItem key raw w) = mfeDisabledMode w.
Proof. unfold ShellUi.setItem. by destruct (localStorage w). Qed.

Lemma obj_spread_nil_l {V} (a : list (string * V)) :
  NoDup (map fst a) → obj_spread [] a = a.
Proof.
  intros Hnd. unfold obj_spread.
  assert (∀ acc, NoDup (map fst (acc ++ a)) →
            foldl (fun acc kv => obj_set kv.1 kv.2 acc) acc a = (acc ++ a)%list) as H.
  { clear Hnd. induction a as [|[k v] a IH]; intros acc Hnd; [by rewrite app_nil_r|].
    cbn [foldl fst snd]. rewrite obj_set_fresh.
    - rewrite IH; by rewrite <- app_assoc.
    - rewrite map_app in Hnd. apply NoDup_app in Hnd as (_ & Hd & _).
      intros Hin. apply (Hd k Hin). cbn. apply elem_of_cons. by left. }
  by apply (H []).
Qed.

(** What a written configuration reads back as, whatever the page has on
    [window]. *)
Lemma shell_read_written config w store :
  localStorage w = Some store →
  NoDup (map fst (ShellUi.apps config)) →
  JSON_stringify (ShellUi.stored_value (ShellUi.default config) (ShellUi.apps config)) ≠ "" →
  JSON_parse
    (JSON_stringify (ShellUi.stored_value (ShellUi.default config) (ShellUi.apps config)))
  = Some (ShellUi.stored_value (ShellUi.default config) (ShellUi.apps config)) →
  ShellUi.readDisabledModeConfig JSON_parse
    (ShellUi.writeDisabledModeConfig JSON_stringify config w)
  = {| ShellUi.default :=
         Some (match ShellUi.default config with Some placeholder => placeholder | _ => hide end);
       ShellUi.apps :=
         obj_spread (ShellUi.apps (ShellUi.normalizeDisabledModeConfig (mfeDisabledMode w)))
           (ShellUi.apps config) |}.
Proof.
  intros Hs Hnd Hne Hp.
  unfold ShellUi.readDisabledModeConfig, ShellUi.writeDisabledModeConfig.
  rewrite shell_normalize_record by done.
  unfold ShellUi.stored_value in *.
  erewrite shell_storageConfig_setItem by done.
  rewrite shell_setItem_mfeDisabledMode.
  fold (ShellUi.stored_value (ShellUi.default config) (ShellUi.apps config)).
  by rewrite shell_normalize_stored.
Qed.

(** X13.  A mode configuration written by [writeDisabledModeConfig] is what
    [readDisabledModeConfig] reads afterwards: the default comes back, as
    [hide] when none was given, and every application has the mode that
    was written for it; an application without a written mode keeps the
    mode the page-wide configuration on [window] gives it, and with no such
    configuration the per-app modes come back exactly as written. *)
Theorem written_mode_is_read_back config w store :
  localStorage w = Some store →
  NoDup (map fst (ShellUi.apps config)) →
  JSON_stringify (ShellUi.stored_value (ShellUi.default config) (ShellUi.apps config)) ≠ "" →
  JSON_parse
    (JSON_stringify (ShellUi.stored_value (ShellUi.default config) (ShellUi.apps config)))
  = Some (ShellUi.stored_value (ShellUi.default config) (ShellUi.apps config)) →
  let read :=
    ShellUi.readDisabledModeConfig JSON_parse
      (ShellUi.writeDisabledModeConfig JSON_stringify config w) in
  ShellUi.default read
  = Some (match ShellUi.default config with Some d => d | None => hide end)
  ∧ (∀ app,
       obj_get app (ShellUi.apps read)
       = match obj_get app (ShellUi.apps config) with
         | Some mode => Some mode
         | None =>
             obj_get app
               (ShellUi.apps (ShellUi.normalizeDisabledModeConfig (mfeDisabledMode w)))
         end)
  ∧ (mfeDisabledMode w = None → ShellUi.apps read = ShellUi.apps config).
Proof.
  intros Hs Hnd Hne Hp. cbn zeta. rewrite (shell_read_written config w store) by done.
  cbn [ShellUi.default ShellUi.apps]. split; [by destruct (ShellUi.default config) as [[|]|]|].
  split; [intros app; by apply obj_get_spread|].
  intros ->. by apply obj_spread_nil_l.
Qed.

Lemma obj_spread_NoDup {V} (a b : list (string * V)) :
  NoDup (map fst a) → NoDup (map fst (obj_spread a b)).
Proof.
  unfold obj_spread. revert a. induction b as [|[k v] b IH]; intros a Ha; [done|].
  cbn [foldl]. by apply IH, obj_set_NoDup.
Qed.

Lemma shell_read_apps_NoDup w :
  NoDup (map fst (ShellUi.apps (ShellUi.readDisabledModeConfig JSON_parse w))).
Proof. apply obj_spread_NoDup, normalized_apps_NoDup. Qed.

Lemma obj_delete_NoDup {V} k (o : list (string * V)) :
  NoDup (map fst o) → NoDup (map fst (ShellUi.obj_delete k o)).
Proof.
  unfold ShellUi.obj_delete. induction o as [|[k0 v0] o IH]; cbn; [done|].
  intros [Hnin Hnd]%NoDup_cons. destruct (negb (String.eqb k0 k)); [|by apply IH].
  cbn. apply NoDup_cons. split; [|by apply IH].
  intros ([k1 v1] & -> & [Hin _]%elem_of_List_filter)%list_elem_of_fmap.
  apply Hnin, list_elem_of_fmap. by exists (k1, v1).
Qed.

Lemma obj_get_obj_delete {V} k k' (o : list (string * V)) :
  obj_get k (ShellUi.obj_delete k' o) = if String.eqb k k' then None else obj_get k o.
Proof.
  unfold ShellUi.obj_delete. induction o as [|[k0 v0] o IH]; cbn.
  - by destruct (String.eqb k k').
  - destruct (String.eqb k0 k') eqn:E0; cbn.
    + apply String.eqb_eq in E0 as ->. rewrite IH. by destruct (String.eqb k k').
    + destruct (String.eqb k k0) eqn:E; [|done].
      apply String.eqb_eq in E as ->. by rewrite E0.
Qed.

Lemma shell_fallback_default app d :
  ShellUi.getFallbackDisabledMode app (Some (match d with Some m => m | None => hide end))
  = ShellUi.getFallbackDisabledMode app d.
Proof. unfold ShellUi.getFallbackDisabledMode. by destruct (obj_get app _), d. Qed.

Lemma obj_assign_ordinary {V} k (v : V) o :
  k ≠ "__proto__" → array_index k = None → obj_assign k v o = obj_set k v o.
Proof.
  intros Hk Hi. unfold obj_assign. apply String.eqb_neq in Hk as ->.
  induction o as [|[k0 v0] o IH]; cbn; [done|].
  destruct (String.eqb k k0); [done|]. unfold key_before. rewrite Hi. by rewrite IH.
Qed.

(** X14.  After [applyIncomingDisabledModeForApp] stored a mode for an
    application, the mode the shell resolves for that application on an
    element without a mode attribute is the mode that came in: as its own
    entry, or through the fallback when the entry was dropped for being the
    fallback.  Every other application resolves to the mode it had before.
    This is stated for an application name that is neither [__proto__] nor
    an array index, with no entry for it in the page-wide configuration,
    with local storage usable and with a stored document that parses
    back. *)
Theorem chosen_mode_takes_effect app mode w store :
  localStorage w = Some store →
  app ≠ "__proto__" →
  array_index app = None →
  obj_get app (ShellUi.apps (ShellUi.normalizeDisabledModeConfig (mfeDisabledMode w)))
  = None →
  let next :=
    ShellUi.nextDisabledModeForApp app mode (ShellUi.readDisabledModeConfig JSON_parse w) in
  let doc := ShellUi.stored_value (ShellUi.default next) (ShellUi.apps next) in
  JSON_stringify doc ≠ "" →
  JSON_parse (JSON_stringify doc) = Some doc →
  let w' :=
    ShellUi.applyIncomingDisabledModeForApp JSON_parse JSON_stringify
      (Some (JStr app)) (Some (JStr (mode_name mode))) w in
  ShellUi.resolveDisabledMode JSON_parse app None w' = mode
  ∧ ∀ other,
      other ≠ app →
      ShellUi.resolveDisabledMode JSON_parse other None w'
      = ShellUi.resolveDisabledMode JSON_parse other None w.
Proof.
  intros Hs Hproto Hidx Hbase. cbn zeta.
  unfold ShellUi.applyIncomingDisabledModeForApp. rewrite as_mode_mode_name.
  unfold ShellUi.nextDisabledModeForApp. rewrite obj_assign_ordinary by done.
  set (current := ShellUi.readDisabledModeConfig JSON_parse w).
  set (nd := match ShellUi.default current with Some d => d | None => hide end).
  set (next_apps :=
         if DisabledMode_eqb mode (ShellUi.getFallbackDisabledMode app (Some nd))
         then ShellUi.obj_delete app (ShellUi.apps current)
         else obj_set app mode (ShellUi.apps current)).
  cbn [ShellUi.default ShellUi.apps].
  assert (NoDup (map fst next_apps)) as Hnd.
  { unfold next_apps. destruct (DisabledMode_eqb _ _).
    - apply obj_delete_NoDup, shell_read_apps_NoDup.
    - apply obj_set_NoDup, shell_read_apps_NoDup. }
  set (config := {| ShellUi.default := Some nd; ShellUi.apps := next_apps |}).
  intros Hne Hp.
  pose proof (shell_read_written config w store Hs Hnd Hne Hp) as Hr.
  cbn [ShellUi.default ShellUi.apps config] in Hr.
  assert (match nd with placeholder => placeholder | hide => hide end = nd) as Hnd'
    by by destruct nd.
  rewrite Hnd' in Hr. clear Hnd'.
  assert (∀ k, obj_get k (ShellUi.apps current)
               = match obj_get k (ShellUi.apps (ShellUi.normalizeDisabledModeConfig
                                                  (ShellUi.storageConfig JSON_parse w))) with
                 | Some m => Some m
                 | None => obj_get k (ShellUi.apps (ShellUi.normalizeDisabledModeConfig
                                                      (mfeDisabledMode w)))
                 end) as Hcur.
  { intros k. apply obj_get_spread, normalized_apps_NoDup. }
  unfold ShellUi.resolveDisabledMode. cbn [fmap option_fmap option_map as_mode].
  rewrite Hr. cbn [ShellUi.default ShellUi.apps]. split.
  - rewrite obj_get_spread by done. rewrite Hbase. unfold next_apps.
    destruct (DisabledMode_eqb mode _) eqn:E.
    + rewrite obj_get_obj_delete, String.eqb_refl.
      destruct mode, (ShellUi.getFallbackDisabledMode app (Some nd)); done.
    + by rewrite obj_get_obj_set, String.eqb_refl.
  - intros other Hother. rewrite obj_get_spread by done.
    assert (obj_get other next_apps = obj_get other (ShellUi.apps current)) as ->.
    { unfold next_apps. apply String.eqb_neq in Hother.
      destruct (DisabledMode_eqb _ _).
      - by rewrite obj_get_obj_delete, Hother.
      - by rewrite obj_get_obj_set, Hother. }
    fold current. unfold nd. rewrite shell_fallback_default.
    destruct (obj_get other (ShellUi.apps current)) eqn:E; [done|].
    rewrite Hcur in E. destruct (obj_get other (ShellUi.apps (_ (ShellUi.storageConfig _ _))));
      [done|]. by rewrite E.
Qed.

Lemma obj_set_same {V} k (v : V) o :
  NoDup (map fst o) → (k, v) ∈ o → obj_set k v o = o.
Proof.
  induction o as [|[k0 v0] o IH]; cbn; [by intros _ ?%elem_of_nil|].
  intros [Hnin Hnd]%NoDup_cons [[= <- <-]|Hin]%elem_of_cons.
  - by rewrite String.eqb_refl.
  - destruct (String.eqb k k0) eqn:E.
    + apply String.eqb_eq in E as ->. exfalso. apply Hnin, list_elem_of_fmap.
      by exists (k0, v).
    + by rewrite IH.
Qed.

Lemma obj_spread_self {V} (a : list (string * V)) :
  NoDup (map fst a) → obj_spread a a = a.
Proof.
  intros Hnd. unfold obj_spread.
  assert (∀ b, (∀ x, x ∈ b → x ∈ a) →
               foldl (fun acc kv => obj_set kv.1 kv.2 acc) a b = a) as H.
  { induction b as [|[k v] b IH]; intros Hsub; [done|]. cbn [foldl fst snd].
    rewrite obj_set_same; [|done|apply Hsub, elem_of_cons; by left].
    apply IH. intros x Hx. apply Hsub, elem_of_cons. by right. }
  by apply H.
Qed.

(** X15.  An incoming configuration that changes nothing writes nothing:
    [applyIncomingDisabledModeConfig] leaves the whole page state as it is
    for a value that is neither a mode name nor a plain object, and for the
    configuration that is already in effect. *)
Theorem incoming_config_without_change_writes_nothing w :
  (∀ value,
     as_mode value = None →
     typeof_object value && negb (is_null value) && negb (Array_isArray value) = false →
     ShellUi.applyIncomingDisabledModeConfig JSON_parse JSON_stringify value w = w)
  ∧ ShellUi.applyIncomingDisabledModeConfig JSON_parse JSON_stringify
      (Some (ShellUi.NormalizedMode_value (ShellUi.readDisabledModeConfig JSON_parse w))) w
    = w.
Proof.
  split.
  - intros value Hm Ho. unfold ShellUi.applyIncomingDisabledModeConfig.
    rewrite Hm, Ho. cbn [orb]. change (ShellUi.normalizeDisabledModeConfig None)
      with {| ShellUi.default := None; ShellUi.apps := [] |}.
    cbn [ShellUi.default ShellUi.apps]. unfold obj_spread. cbn [foldl].
    by rewrite String.eqb_refl.
  - unfold ShellUi.applyIncomingDisabledModeConfig.
    set (current := ShellUi.readDisabledModeConfig JSON_parse w).
    assert (typeof_object (Some (ShellUi.NormalizedMode_value current))
            && negb (is_null (Some (ShellUi.NormalizedMode_value current)))
            && negb (Array_isArray (Some (ShellUi.NormalizedMode_value current))) = true)
      as -> by done.
    cbn [orb]. rewrite shell_normalize_record by apply shell_read_apps_NoDup.
    rewrite obj_spread_self by apply shell_read_apps_NoDup.
    assert (match ShellUi.default current with
            | Some d => Some d
            | None => ShellUi.default current
            end = ShellUi.default current) as -> by by destruct (ShellUi.default current).
    by rewrite String.eqb_refl.
Qed.

(** ** Hiding and showing application content *)

(** X16.  Showing the content of an application element restores what
    hiding it changed: for children that carry no saved display, hiding once
    or several times and then showing gives back every child as it was,
    the display it had included.  Hiding twice is hiding once. *)
Theorem show_restores_hidden_content children :
  Forall (fun child => ShellUi.prevDisplay child = None) children →
  ShellUi.showAppContent (ShellUi.hideAppContent children) = children
  ∧ ShellUi.showAppContent (ShellUi.hideAppContent (ShellUi.hideAppContent children))
    = children
  ∧ ShellUi.hideAppContent (ShellUi.hideAppContent children)
    = ShellUi.hideAppContent children.
Proof.
  intros Hprev. unfold ShellUi.showAppContent, ShellUi.hideAppContent.
  rewrite !map_map. split; [|split].
  - rewrite <- (map_id children) at 2. apply map_ext_Forall.
    eapply Forall_impl; [exact Hprev|]. intros [html cls disp prev]. cbn. intros ->.
    destruct html; cbn; [|done].
    destruct (ShellUi.isShellNode _) eqn:E; cbn; [by rewrite ?E|].
    unfold ShellUi.isShellNode in *. cbn in *. by rewrite E.
  - rewrite <- (map_id children) at 2. apply map_ext_Forall.
    eapply Forall_impl; [exact Hprev|]. intros [html cls disp prev]. cbn. intros ->.
    destruct html; cbn; [|done].
    destruct (ShellUi.isShellNode _) eqn:E; cbn; [by rewrite ?E|].
    unfold ShellUi.isShellNode in *. cbn in *. rewrite !E. cbn. by rewrite E.
  - apply map_ext. intros [html cls disp prev]. cbn.
    destruct html; cbn; [|done].
    destruct (ShellUi.isShellNode _) eqn:E; cbn; [by rewrite ?E|].
    unfold ShellUi.isShellNode in *. cbn in *. rewrite !E. by destruct prev.
Qed.

(** ** Sign-in locks on application links *)

Lemma auth_required_not_empty name :
  Set_has ShellUi.AUTH_REQUIRED_APPS name = true → String.eqb name "" = false.
Proof.
  intros H%Set_has_true. apply String.eqb_neq. intros ->.
  unfold ShellUi.AUTH_REQUIRED_APPS in H.
  repeat (apply elem_of_cons in H as [H|H]; [done|]). by apply elem_of_nil in H.
Qed.

Local Ltac map_tac :=
  repeat first [rewrite lookup_insert_eq | rewrite lookup_delete_eq
               | rewrite lookup_insert_ne by congruence
               | rewrite lookup_delete_ne by congruence];
  try done.

Local Ltac by_key k :=
  destruct (decide (k = "title")) as [->|?];
  [|destruct (decide (k = "aria-disabled")) as [->|?];
    [|destruct (decide (k = "data-auth-locked")) as [->|?];
      [|destruct (decide (k = "data-auth-return")) as [->|?];
        [|destruct (decide (k = "href")) as [->|?]]]]];
  map_tac.

Lemma attr_or_Some link k v fallback :
  link !! k = Some v → String.eqb v "" = false → ShellUi.attr_or link k fallback = v.
Proof. intros H Hv. unfold ShellUi.attr_or. by rewrite H, Hv. Qed.

Lemma attr_or_None link k fallback :
  link !! k = None → ShellUi.attr_or link k fallback = fallback.
Proof. intros H. unfold ShellUi.attr_or. by rewrite H. Qed.

(** X17.  Locking a link of a sign-in-only application and unlocking it
    again gives the link back as it was: the address it pointed to returns,
    and the lock attributes are gone.  Locking twice is locking once, and a
    locked link points to the login URL built for its original address. *)
Theorem unlock_restores_link buildLoginUrl_ link name href :
  link !! "data-app-link" = Some name →
  Set_has ShellUi.AUTH_REQUIRED_APPS name = true →
  link !! "href" = Some href →
  href ≠ "" →
  link !! "data-auth-return" = None →
  link !! "data-auth-locked" = None →
  link !! "aria-disabled" = None →
  link !! "title" = None →
  ShellUi.updateAuthLock buildLoginUrl_ false (ShellUi.updateAuthLock buildLoginUrl_ true link)
  = link
  ∧ ShellUi.updateAuthLock buildLoginUrl_ true (ShellUi.updateAuthLock buildLoginUrl_ true link)
    = ShellUi.updateAuthLock buildLoginUrl_ true link
  ∧ ShellUi.updateAuthLock buildLoginUrl_ true link !! "href" = Some (buildLoginUrl_ href).
Proof.
  intros Hname Hreq Hhref Hne Hret Hlocked Haria Htitle.
  pose proof (auth_required_not_empty name Hreq) as Hname'.
  apply String.eqb_neq in Hne.
  assert (ShellUi.updateAuthLock buildLoginUrl_ true link
          = <["title" := "Sign in to access"]>
              (<["aria-disabled" := "true"]>
                 (<["data-auth-locked" := "true"]>
                    (<["href" := buildLoginUrl_ href]>
                       (<["data-auth-return" := href]> link))))) as Hlock.
  { unfold ShellUi.updateAuthLock.
    rewrite (attr_or_Some link "data-app-link" name) by done.
    rewrite (attr_or_Some link "href" href) by done.
    rewrite (attr_or_None link "data-auth-return") by done.
    by rewrite Hname', Hreq. }
  rewrite Hlock. split; [|split].
  - unfold ShellUi.updateAuthLock.
    rewrite (attr_or_Some _ "data-app-link" name);
      [|by rewrite !lookup_insert_ne by done|done].
    rewrite (attr_or_Some _ "data-auth-return" href);
      [|by rewrite !lookup_insert_ne, lookup_insert_eq by done|done].
    rewrite Hname', Hreq, Hne. cbn [negb orb].
    apply map_eq. intros k. by_key k.
  - unfold ShellUi.updateAuthLock.
    rewrite (attr_or_Some _ "data-app-link" name);
      [|by rewrite !lookup_insert_ne by done|done].
    rewrite (attr_or_Some _ "data-auth-return" href);
      [|by rewrite !lookup_insert_ne, lookup_insert_eq by done|done].
    rewrite Hname', Hreq, Hne. cbn [negb orb].
    apply map_eq. intros k. by_key k.
  - rewrite !lookup_insert_ne by done. apply lookup_insert_eq.
Qed.

(** ** Trusted message origins *)

Lemma lang_lit_chars_inv u v : lang (lit_chars u) v → v = u.
Proof.
  revert v. induction u as [|c u IH]; intros v; cbn.
  - apply lang_eps_inv.
  - intros (v1 & v2 & -> & (d & -> & Hd)%lang_chr_inv & H2)%lang_cat_inv.
    apply Ascii.eqb_eq in Hd as ->. by rewrite (IH _ H2).
Qed.

Lemma lang_opt_inv r u : lang (opt r) u → lang r u ∨ u = [].
Proof.
  intros [H|H]%lang_alt_inv; [by left|]. right. by apply lang_eps_inv.
Qed.

Lemma lang_port_inv u :
  lang ShellUi.port u →
  u ≠ [] ∧ (length u <= 5)%nat ∧ Forall (fun c => is_digit c = true) u.
Proof.
  unfold ShellUi.port, digit.
  intros (u1 & r1 & -> & (c1 & -> & H1)%lang_chr_inv & [H| ->]%lang_opt_inv)%lang_cat_inv;
    [|split; [done|split; [cbn; lia|by repeat constructor]]].
  revert H.
  intros (u2 & r2 & -> & (c2 & -> & H2)%lang_chr_inv & [H| ->]%lang_opt_inv)%lang_cat_inv;
    [|split; [done|split; [cbn; lia|by repeat constructor]]].
  revert H.
  intros (u3 & r3 & -> & (c3 & -> & H3)%lang_chr_inv & [H| ->]%lang_opt_inv)%lang_cat_inv;
    [|split; [done|split; [cbn; lia|by repeat constructor]]].
  revert H.
  intros (u4 & r4 & -> & (c4 & -> & H4)%lang_chr_inv & [H| ->]%lang_opt_inv)%lang_cat_inv;
    [|split; [done|split; [cbn; lia|by repeat constructor]]].
  apply lang_chr_inv in H as (c5 & -> & H5).
  split; [done|split; [cbn; lia|by repeat constructor]].
Qed.

Lemma lang_port u :
  u ≠ [] → (length u <= 5)%nat → Forall (fun c => is_digit c = true) u →
  lang ShellUi.port u.
Proof.
  intros Hne Hlen Hd. unfold ShellUi.port, digit, opt.
  destruct u as [|c1 u]; [done|]. apply Forall_cons in Hd as [H1 Hd].
  apply (lang_cat _ _ [c1] u); [by constructor|].
  destruct u as [|c2 u]; [apply lang_alt_r; constructor|]. apply lang_alt_l.
  apply Forall_cons in Hd as [H2 Hd].
  apply (lang_cat _ _ [c2] u); [by constructor|].
  destruct u as [|c3 u]; [apply lang_alt_r; constructor|]. apply lang_alt_l.
  apply Forall_cons in Hd as [H3 Hd].
  apply (lang_cat _ _ [c3] u); [by constructor|].
  destruct u as [|c4 u]; [apply lang_alt_r; constructor|]. apply lang_alt_l.
  apply Forall_cons in Hd as [H4 Hd].
  apply (lang_cat _ _ [c4] u); [by constructor|].
  destruct u as [|c5 u]; [apply lang_alt_r; constructor|]. apply lang_alt_l.
  apply Forall_cons in Hd as [H5 Hd].
  destruct u as [|c6 u]; [by constructor|]. cbn in Hlen. lia.
Qed.

Lemma string_of_list_ascii_app (u v : list ascii) :
  string_of_list_ascii (u ++ v) = string_of_list_ascii u ++ string_of_list_ascii v.
Proof. induction u as [|c u IH]; [done|]. cbn. app_norm. by rewrite IH. Qed.

Lemma list_ascii_of_string_inj (a b : string) :
  list_ascii_of_string a = list_ascii_of_string b → a = b.
Proof.
  intros H. by rewrite <- (string_of_list_ascii_of_string a), H,
    string_of_list_ascii_of_string.
Qed.

(** Proves an equation between texts by comparing their characters. *)
Ltac string_eq_tac :=
  apply list_ascii_of_string_inj;
  rewrite ?list_ascii_of_string_app, ?list_ascii_of_string_of_list_ascii;
  cbn [list_ascii_of_string app]; rewrite <- ?app_assoc; cbn [app]; try done.

Lemma lang_local_origin origin :
  lang ShellUi.local_origin (list_ascii_of_string origin) ↔ local_dev_origin origin.
Proof.
  unfold ShellUi.local_origin, lit, local_dev_origin. split.
  - intros (u1 & r1 & E & ->%lang_lit_chars_inv & H)%lang_cat_inv.
    apply lang_cat_inv in H as (u2 & r2 & -> & Hs & H).
    apply lang_cat_inv in H as (u3 & r3 & -> & ->%lang_lit_chars_inv & H).
    apply lang_cat_inv in H as (u4 & r4 & -> & Hh & Hp).
    assert (origin = string_of_list_ascii
                       (list_ascii_of_string "http" ++ u2 ++ list_ascii_of_string "://"
                        ++ u4 ++ r4)) as ->.
    { by rewrite <- E, string_of_list_ascii_of_string. }
    clear E.
    exists (string_of_list_ascii (list_ascii_of_string "http" ++ u2)),
           (string_of_list_ascii u4),
           (match r4 with [] => [] | _ :: ds => ds end).
    split.
    { apply lang_opt_inv in Hs as [->%lang_lit_chars_inv| ->]; [by right|by left]. }
    split.
    { apply lang_alt_inv in Hh as [->%lang_lit_chars_inv| ->%lang_lit_chars_inv];
        [by left|by right]. }
    apply lang_opt_inv in Hp as [Hp| ->].
    + apply lang_cat_inv in Hp as (u5 & r5 & -> & ->%lang_lit_chars_inv & Hp).
      apply lang_port_inv in Hp as (Hne & Hlen & Hd). cbn [list_ascii_of_string app].
      split; [done|]. split; [done|]. right. split; [done|]. string_eq_tac.
    + split; [cbn; lia|]. split; [done|]. left. rewrite app_nil_r. string_eq_tac.
  - intros (scheme & host & port_ & Hs & Hh & Hlen & Hd & Ho).
    assert (∃ S H P,
              lang (opt (lit_chars (list_ascii_of_string "s"))) S
              ∧ lang (Alt (lit_chars (list_ascii_of_string "localhost"))
                          (lit_chars (list_ascii_of_string "127.0.0.1"))) H
              ∧ lang (opt (Cat (lit_chars (list_ascii_of_string ":")) ShellUi.port)) P
              ∧ list_ascii_of_string origin
                = (list_ascii_of_string "http" ++ S ++ list_ascii_of_string "://"
                   ++ H ++ P)%list) as (S & H & P & HS & HH & HP & ->).
    { assert (lang (opt (lit_chars (list_ascii_of_string "s")))
                   (if String.eqb scheme "http" then [] else list_ascii_of_string "s")) as HS.
      { destruct Hs as [-> | ->]; [apply lang_alt_r; constructor
                                  |apply lang_alt_l, lang_lit_chars]. }
      assert (lang (Alt (lit_chars (list_ascii_of_string "localhost"))
                        (lit_chars (list_ascii_of_string "127.0.0.1")))
                   (list_ascii_of_string host)) as HH.
      { destruct Hh as [-> | ->]; [apply lang_alt_l|apply lang_alt_r]; apply lang_lit_chars. }
      destruct Ho as [-> | [Hne ->]].
      - eexists _, _, []. split; [exact HS|]. split; [exact HH|].
        split; [apply lang_alt_r; constructor|].
        rewrite ?list_ascii_of_string_app.
        destruct Hs as [-> | ->]; cbn [list_ascii_of_string app String.eqb Ascii.eqb];
          by rewrite ?app_nil_r.
      - eexists _, _, (":"%char :: port_). split; [exact HS|]. split; [exact HH|]. split.
        + apply lang_alt_l. apply (lang_cat _ _ [":"%char]); [apply lang_lit_chars|].
          by apply lang_port.
        + rewrite ?list_ascii_of_string_app, ?list_ascii_of_string_of_list_ascii.
          destruct Hs as [-> | ->]; cbn [list_ascii_of_string app String.eqb Ascii.eqb];
            by rewrite ?app_nil_r. }
    apply lang_cat; [apply lang_lit_chars|]. apply lang_cat; [done|].
    apply lang_cat; [apply lang_lit_chars|]. by apply lang_cat.
Qed.

(** X18.  A message is trusted when it comes from the page's own origin.
    A page that is not served from [localhost] or [127.0.0.1] trusts no
    other origin; one that is trusts in addition exactly the origins of
    local development servers: scheme [http] or [https], host [localhost]
    or [127.0.0.1], and no port or a port of one to five digits, with
    nothing before and nothing after. *)
Theorem trusted_origins_are_local location_origin location_hostname origin :
  ShellUi.isTrustedOrigin location_origin location_hostname origin = true
  ↔ origin = location_origin
    ∨ ((location_hostname = "localhost" ∨ location_hostname = "127.0.0.1")
       ∧ local_dev_origin origin).
Proof.
  unfold ShellUi.isTrustedOrigin.
  destruct (String.eqb origin location_origin) eqn:E.
  { apply String.eqb_eq in E. (drop_env; tauto). }
  apply String.eqb_neq in E.
  destruct (String.eqb location_hostname "localhost") eqn:E1.
  { apply String.eqb_eq in E1. cbn [orb negb].
    rewrite accepts_lang, lang_local_origin. (drop_env; tauto). }
  destruct (String.eqb location_hostname "127.0.0.1") eqn:E2.
  { apply String.eqb_eq in E2. cbn [orb negb].
    rewrite accepts_lang, lang_local_origin. (drop_env; tauto). }
  apply String.eqb_neq in E1, E2. cbn [orb negb]. split; [done|].
  intros [?|[[?|?] _]]; done.
Qed.

(** ** The root config and the shell UI on the same page *)

Lemma getDisabledApps_stored w : getDisabledApps w = sanitizeDisabledApps (stored_names w).
Proof.
  unfold getDisabledApps, stored_names.
  destruct (localStorage w) as [store|]; [|done].
  destruct (getItem store "mfe-disabled") as [raw|]; [|done].
  by destruct (JSON_parse raw) as [[]|].
Qed.

(** The list the shell reads by itself: the stored names and the names
    published on [window], without the exempted ones. *)
Lemma elem_of_readDisabled exempt w x :
  x ∈ ShellUi.readDisabled JSON_parse exempt w
  ↔ (x ∉ exempt) ∧ (x ∈ stored_names w ∨ x ∈ default [] (mfeServerDisabled w)).
Proof.
  assert (∀ l : list string,
            x ∈ List.filter (fun name => negb (Set_has exempt name)) l
            ↔ (x ∉ exempt) ∧ x ∈ l) as Hf.
  { intros l. rewrite elem_of_List_filter, negb_true_iff, Set_has_false.
    (drop_env; tauto). }
  assert (∀ a b : list string,
            x ∈ (if (length a =? 0)%nat && (length b =? 0)%nat then []
                 else Set_from (a ++ b))
            ↔ x ∈ a ∨ x ∈ b) as Hu.
  { intros a b. destruct a as [|y a], b as [|z b]; cbn [length Nat.eqb andb];
      rewrite ?elem_of_Set_from, ?elem_of_app, ?elem_of_nil; (drop_env; tauto). }
  unfold ShellUi.readDisabled, stored_names, getItem.
  set (server := match mfeServerDisabled w with
                 | Some l => List.filter (fun name => negb (Set_has exempt name)) l
                 | None => []
                 end).
  assert (x ∈ server ↔ (x ∉ exempt) ∧ x ∈ default [] (mfeServerDisabled w)) as Hs.
  { unfold server. destruct (mfeServerDisabled w); cbn; [apply Hf|].
    rewrite elem_of_nil. (drop_env; tauto). }
  destruct (localStorage w) as [store|];
    [|rewrite Hs, elem_of_nil; (drop_env; tauto)].
  change (filter_strings []) with (@nil string).
  destruct (store !! "mfe-disabled") as [raw|];
    [|rewrite Hu, Hf, Hs, !elem_of_nil; (drop_env; tauto)].
  destruct (String.eqb raw "");
    [rewrite Hu, Hf, Hs, !elem_of_nil; (drop_env; tauto)|].
  destruct (JSON_parse raw) as [[| | | |l|]|];
    rewrite ?Hu, ?Hf, ?Hs, ?elem_of_nil; (drop_env; tauto).
Qed.

Lemma emitDisabledApps_stored_names server local mode w :
  stored_names (emitDisabledApps server local mode w) = stored_names w.
Proof.
  unfold stored_names, emitDisabledApps, localStorage_setItem.
  destruct w as [? ? ? ? ? ? ? ? ? ? [store|] ? ? ? ? ? ? ? ? ? ? ? ? ? ?];
    destruct mode as [m|]; cbn; try done.
  unfold getItem. by rewrite lookup_insert_ne.
Qed.

Lemma emitDisabledApps_localStorage server local mode w :
  localStorage (emitDisabledApps server local mode w)
  = match mode, localStorage w with
    | Some m, Some store =>
        Some (<["mfe-disabled-mode" := JSON_stringify (ModeConfig_value m)]> store)
    | _, s => s
    end.
Proof.
  unfold emitDisabledApps, localStorage_setItem.
  by destruct w as [? ? ? ? ? ? ? ? ? ? [store|] ? ? ? ? ? ? ? ? ? ? ? ? ? ?],
    mode as [m|].
Qed.

Lemma emitDisabledApps_mfeDisabledMode server local mode w :
  mfeDisabledMode (emitDisabledApps server local mode w) = ModeConfig_value <$> mode.
Proof.
  unfold emitDisabledApps, localStorage_setItem.
  by destruct w as [? ? ? ? ? ? ? ? ? ? [store|] ? ? ? ? ? ? ? ? ? ? ? ? ? ?],
    mode as [m|].
Qed.

(** X19.  The root config and the shell agree on what is disabled.  After
    [emitDisabledApps] has published the remote names together with the
    device-local ones of [getDisabledApps], the list the shell reads by
    itself from [window] and from local storage has the same members as the
    list carried by the published event, whatever is stored and whether or
    not the storage can be read; the exempted names of the two files are
    taken to be the same set, as they are in the source. *)
Theorem shell_reads_the_published_list server mode w :
  ∃ published,
    dispatched (emitDisabledApps server (getDisabledApps w) mode w)
    = (dispatched w ++ [MfeToggle published mode])%list
    ∧ ∀ x,
        x ∈ ShellUi.readDisabled JSON_parse ALWAYS_ON_APPS
              (emitDisabledApps server (getDisabledApps w) mode w)
        ↔ x ∈ published.
Proof.
  eexists. split; [apply emitDisabledApps_dispatched|].
  intros x. rewrite elem_of_readDisabled, emitDisabledApps_stored_names,
    emitDisabledApps_mfeServerDisabled, getDisabledApps_stored.
  cbn [default from_option]. unfold id.
  rewrite !elem_of_sanitizeDisabledApps, elem_of_app, !elem_of_sanitizeDisabledApps.
  (drop_env; tauto).
Qed.

Lemma ModeConfig_value_stored m :
  ModeConfig_value m = ShellUi.stored_value (Some (mc_default m)) (mc_apps m).
Proof. by destruct m as [[|] a]. Qed.

(** X20.  The mode configuration the root config publishes is the one the
    shell reads.  Take a remote configuration as
    [normalizeDisabledModeConfig] makes it: its keys are distinct, none is
    [__proto__], they come in the order an object lists them, and its
    serialisation parses back.  After [emitDisabledApps] with it,
    [readDisabledModeConfig] gives the remote default and the remote per-app
    modes, in their order: on a page whose local storage takes the write,
    because the override stored earlier on the device is replaced by the
    remote configuration; on a page whose local storage is blocked, because
    there is no override.  Without a remote configuration the shell reads
    the stored override alone.  A store that can be read while writing to
    it fails is not among the states of [World]; there the earlier override
    would stay in front of the remote configuration. *)
Theorem shell_reads_the_published_mode server local m w :
  NoDup (map fst (mc_apps m)) →
  "__proto__" ∉ map fst (mc_apps m) →
  own_key_order (mc_apps m) →
  JSON_stringify (ModeConfig_value m) ≠ "" →
  JSON_parse (JSON_stringify (ModeConfig_value m)) = Some (ModeConfig_value m) →
  (∀ store,
     localStorage w = Some store →
     localStorage (emitDisabledApps server local (Some m) w)
     = Some (<[ShellUi.DISABLED_MODE_KEY := JSON_stringify (ModeConfig_value m)]> store)
     ∧ ShellUi.readDisabledModeConfig JSON_parse (emitDisabledApps server local (Some m) w)
       = {| ShellUi.default := Some (mc_default m); ShellUi.apps := mc_apps m |})
  ∧ (localStorage w = None →
     localStorage (emitDisabledApps server local (Some m) w) = None
     ∧ ShellUi.readDisabledModeConfig JSON_parse (emitDisabledApps server local (Some m) w)
       = {| ShellUi.default := Some (mc_default m); ShellUi.apps := mc_apps m |})
  ∧ ShellUi.readDisabledModeConfig JSON_parse (emitDisabledApps server local None w)
    = ShellUi.normalizeDisabledModeConfig (ShellUi.storageConfig JSON_parse w).
Proof.
  intros Hnd _ _ Hne Hp.
  assert (ShellUi.readDisabledModeConfig JSON_parse
            (emitDisabledApps server local (Some m) w)
          = {| ShellUi.default := Some (mc_default m); ShellUi.apps := mc_apps m |}) as Hread.
  { unfold ShellUi.readDisabledModeConfig.
    assert (ShellUi.storageConfig JSON_parse (emitDisabledApps server local (Some m) w)
            = match localStorage w with
              | Some _ => Some (ModeConfig_value m)
              | None => None
              end) as ->.
    { unfold ShellUi.storageConfig. rewrite emitDisabledApps_localStorage.
      destruct (localStorage w) as [store|]; [|done].
      change "mfe-disabled-mode" with ShellUi.DISABLED_MODE_KEY.
      rewrite lookup_insert_eq. apply String.eqb_neq in Hne. rewrite Hne, Hp.
      by destruct m as [[|] a]. }
    rewrite emitDisabledApps_mfeDisabledMode. cbn [fmap option_fmap option_map].
    rewrite ModeConfig_value_stored, shell_normalize_stored by done.
    cbn [ShellUi.default ShellUi.apps].
    assert (match mc_default m with placeholder => placeholder | hide => hide end
            = mc_default m) as -> by by destruct (mc_default m).
    destruct (localStorage w).
    + rewrite shell_normalize_stored by done. cbn [ShellUi.default ShellUi.apps].
      rewrite obj_spread_self by done.
      by destruct (mc_default m).
    + change (ShellUi.normalizeDisabledModeConfig None)
        with {| ShellUi.default := None; ShellUi.apps := [] |}.
      by cbn. }
  split; [|split].
  - intros store Hs. split; [|done]. by rewrite emitDisabledApps_localStorage, Hs.
  - intros Hs. split; [|done]. by rewrite emitDisabledApps_localStorage, Hs.
  - unfold ShellUi.readDisabledModeConfig.
    rewrite emitDisabledApps_mfeDisabledMode. cbn [fmap option_fmap option_map].
    assert (ShellUi.storageConfig JSON_parse (emitDisabledApps server local None w)
            = ShellUi.storageConfig JSON_parse w) as ->.
    { unfold ShellUi.storageConfig. by rewrite emitDisabledApps_localStorage. }
    change (ShellUi.normalizeDisabledModeConfig None)
      with {| ShellUi.default := None; ShellUi.apps := [] |}.
    cbn [ShellUi.default ShellUi.apps].
    rewrite obj_spread_nil_l by apply normalized_apps_NoDup.
    by destruct (ShellUi.normalizeDisabledModeConfig _) as [[d|] a].
Qed.

(** ** Script-loaded applications *)

Lemma same_but_marks_performance_mark name w : same_but_marks w (performance_mark name w).
Proof. apply performance_mark_marks_only. Qed.

Lemma same_but_marks_finalize name w : same_but_marks w (finalizeLoadMetrics name w).
Proof. apply finalizeLoadMetrics_marks_only. Qed.

(** A script that fails to load: the caller is rejected, the element and
    the cache entry are gone, and the event is consumed. *)
Lemma awaitUmdScript_failed url w rest :
  umdLoads w !! umdCacheKey url w = None →
  scriptEvents w = ScriptFailed :: rest →
  ∃ e w',
    awaitUmdScript url w = (Rejected e, w')
    ∧ umdLoads w' = umdLoads w
    ∧ scriptEvents w' = rest
    ∧ globals w' = globals w
    ∧ clock w' = clock w
    ∧ runtimeDisabledApps w' = runtimeDisabledApps w
    ∧ requests w' = (requests w ++ [ReqScript (umdCacheKey url w)])%list.
Proof.
  intros Hnone Hev. unfold awaitUmdScript, loadUmdScript. rewrite Hnone.
  destruct w as [? loads ? ? ? proms ? ? ? ? ? ? ? ? ? ? ? ? ? ? ? ? ? events ?].
  cbn in *. subst events.
  rewrite (list_lookup_middle proms [] Pending (length proms) eq_refl).
  unfold script_onerror, settle. cbn.
  repeat (rewrite (list_lookup_middle proms [] Pending (length proms) eq_refl); cbn).
  eexists _, _. split; [reflexivity|]. cbn. split; [|done].
  by apply delete_insert_id.
Qed.

(** A script that loads: the caller resumes with the globals the script
    defined, and the promise stays cached, fulfilled. *)
Lemma awaitUmdScript_loaded url w defines rest :
  umdLoads w !! umdCacheKey url w = None →
  scriptEvents w = ScriptLoaded defines :: rest →
  ∃ w',
    awaitUmdScript url w = (Resolved tt, w')
    ∧ umdLoads w' !! umdCacheKey url w = Some (length (promises w))
    ∧ promises w' !! length (promises w) = Some Fulfilled
    ∧ scriptEvents w' = rest
    ∧ globals w' = obj_spread (globals w) defines
    ∧ requests w' = (requests w ++ [ReqScript (umdCacheKey url w)])%list.
Proof.
  intros Hnone Hev. unfold awaitUmdScript, loadUmdScript. rewrite Hnone.
  destruct w as [? loads ? ? ? proms ? ? ? ? ? ? ? ? ? ? ? ? ? ? ? ? ? events ?].
  cbn in *. subst events.
  rewrite (list_lookup_middle proms [] Pending (length proms) eq_refl).
  unfold script_onload, settle. cbn.
  repeat (rewrite (list_lookup_middle proms [] Pending (length proms) eq_refl); cbn).
  eexists. split; [reflexivity|]. cbn. split; [apply lookup_insert_eq|].
  split; [|done]. apply list_lookup_insert_eq. rewrite length_app. cbn. lia.
Qed.

Lemma loadApp_umd name url global_ w :
  obj_get name umdApps = Some (url, global_) →
  Set_has (runtimeDisabledApps w) name = false →
  loadApp name w
  = finally
      (catch
         (let* _ := awaitUmdScript url in
          let* mod_ := peek (fun w => obj_get global_ (globals w)) in
          wrapModuleLifecycles name mod_)
         (fun _ => resolve (createUnavailableApp name)))
      (finalizeLoadMetrics name)
      (performance_mark ("mfe:" ++ name ++ ":load:start") w).
Proof.
  intros Happ Hen. unfold loadApp. rewrite andThen_effect, andThen_peek.
  destruct (same_but_marks_performance_mark ("mfe:" ++ name ++ ":load:start") w) as [m ->].
  change (runtimeDisabledApps (set_marks m w)) with (runtimeDisabledApps w).
  by rewrite Hen, Happ.
Qed.

Lemma loadApp_umd_failed name url global_ w rest :
  obj_get name umdApps = Some (url, global_) →
  Set_has (runtimeDisabledApps w) name = false →
  umdLoads w !! umdCacheKey url w = None →
  scriptEvents w = ScriptFailed :: rest →
  ∃ w',
    loadApp name w = (Resolved (createUnavailableApp name), w')
    ∧ umdLoads w' = umdLoads w
    ∧ scriptEvents w' = rest
    ∧ globals w' = globals w
    ∧ clock w' = clock w
    ∧ runtimeDisabledApps w' = runtimeDisabledApps w
    ∧ requests w' = (requests w ++ [ReqScript (umdCacheKey url w)])%list.
Proof.
  intros Happ Hen Hnone Hev. rewrite (loadApp_umd name url global_ w Happ Hen).
  destruct (same_but_marks_performance_mark ("mfe:" ++ name ++ ":load:start") w) as [m0 ->].
  destruct (awaitUmdScript_failed url (set_marks m0 w) rest)
    as (e & w1 & E1 & Hl1 & He1 & Hg1 & Hc1 & Hr1 & Hq1); [done|done|].
  unfold finally, catch, andThen. rewrite E1. cbn [fst snd resolve].
  destruct (same_but_marks_finalize name w1) as [m1 ->].
  eexists. split; [reflexivity|]. by cbn [umdLoads scriptEvents globals clock
    runtimeDisabledApps requests set_marks].
Qed.

Lemma loadApp_umd_loaded name url global_ w defines rest m :
  obj_get name umdApps = Some (url, global_) →
  Set_has (runtimeDisabledApps w) name = false →
  umdLoads w !! umdCacheKey url w = None →
  scriptEvents w = ScriptLoaded defines :: rest →
  obj_get global_ (obj_spread (globals w) defines) = Some m →
  ∃ w',
    loadApp name w = (Resolved (wrapped name m), w')
    ∧ umdLoads w' !! umdCacheKey url w = Some (length (promises w))
    ∧ promises w' !! length (promises w) = Some Fulfilled
    ∧ requests w' = (requests w ++ [ReqScript (umdCacheKey url w)])%list.
Proof.
  intros Happ Hen Hnone Hev Hglobal. rewrite (loadApp_umd name url global_ w Happ Hen).
  destruct (same_but_marks_performance_mark ("mfe:" ++ name ++ ":load:start") w) as [m0 ->].
  destruct (awaitUmdScript_loaded url (set_marks m0 w) defines rest)
    as (w2 & E2 & Hl2 & Hp2 & He2 & Hg2 & Hq2); [done|done|].
  unfold finally, catch, andThen. rewrite E2. unfold peek. rewrite Hg2.
  change (globals (set_marks m0 w)) with (globals w). rewrite Hglobal.
  cbn [wrapModuleLifecycles resolve fst snd].
  destruct (same_but_marks_finalize name w2) as [m3 ->].
  eexists. split; [reflexivity|]. by cbn [umdLoads promises requests set_marks].
Qed.

(** X21.  A script-loaded application whose script fails to load gets the
    no-op handle, and the failure is not remembered: the next [loadApp] for
    it inserts a new script element, and when that one loads and defines the
    application's global the call resolves with the lifecycles of that
    global, wrapped for timing. *)
Theorem failed_umd_load_is_retried name url global_ w defines rest m :
  obj_get name umdApps = Some (url, global_) →
  Set_has (runtimeDisabledApps w) name = false →
  umdLoads w !! umdCacheKey url w = None →
  scriptEvents w = ScriptFailed :: ScriptLoaded defines :: rest →
  obj_get global_ (obj_spread (globals w) defines) = Some m →
  (loadApp name w).1 = Resolved (createUnavailableApp name)
  ∧ (loadApp name (loadApp name w).2).1 = Resolved (wrapped name m)
  ∧ script_insertions (umdCacheKey url w) (requests (loadApp name (loadApp name w).2).2)
    = S (S (script_insertions (umdCacheKey url w) (requests w))).
Proof.
  intros Happ Hen Hnone Hev Hglobal.
  destruct (loadApp_umd_failed name url global_ w _ Happ Hen Hnone Hev)
    as (w1 & -> & Hl1 & He1 & Hg1 & Hc1 & Hr1 & Hq1).
  cbn [fst snd]. split; [done|].
  assert (umdCacheKey url w1 = umdCacheKey url w) as Hkey.
  { unfold umdCacheKey. by rewrite Hc1. }
  destruct (loadApp_umd_loaded name url global_ w1 defines rest m)
    as (w2 & -> & Hl2 & Hp2 & Hq2); try done.
  { by rewrite Hr1. }
  { by rewrite Hkey, Hl1. }
  { by rewrite Hg1. }
  cbn [fst snd]. split; [done|].
  rewrite Hq2, Hq1, Hkey, !script_insertions_app, !script_insertions_one. lia.
Qed.

(** ** The requests of the format detector *)

(** X22.  [detectModuleFormat] sends nothing for a URL whose format is
    cached.  Otherwise it sends its ranged probe, and it sends one more
    request, for the whole file under the same cache-busted URL, exactly
    when the probe was answered 206 with a readable head that shows none of
    the markers; there is never a third request.  When the server ignores
    the range and answers with another 2xx status and a readable body, the
    format is decided from that one answer, from the first 8192 and the
    last 4096 characters of the body, and it is cached. *)
Theorem detect_request_profile url w :
  (∀ fmt, moduleFormatCache w !! url = Some fmt →
          requests (detectModuleFormat url w).2 = requests w)
  ∧ (moduleFormatCache w !! url = None →
     requests (detectModuleFormat url w).2
     = (requests w
        ++ probeRequest url w
           :: (if needs_full_fetch (next_outcome w) then [fullRequest url w] else []))%list)
  ∧ (∀ res source,
       moduleFormatCache w !! url = None →
       next_outcome w = Answer res →
       ok res = true →
       status res ≠ 206%Z →
       body res = Some source →
       (detectModuleFormat url w).1
       = Resolved (analyzeSource (slice_first 8192 source) (slice_last 4096 source)
                     (Some source))
       ∧ moduleFormatCache (detectModuleFormat url w).2 !! url
         = Some (analyzeSource (slice_first 8192 source) (slice_last 4096 source)
                   (Some source))).
Proof.
  split; [|split].
  - intros fmt H. by rewrite (detectModuleFormat_cached url fmt w H).
  - intros Hmiss. unfold detectModuleFormat. rewrite Hmiss.
    unfold catch, andThen, fetchWithTimeout. rewrite fetch_eq.
    unfold needs_full_fetch.
    destruct (next_outcome w) as [res|]; cbn -[analyzeSource]; [|done].
    destruct (ok res) eqn:Hok; cbn -[analyzeSource].
    + destruct (status res =? 206)%Z eqn:H206; cbn -[analyzeSource].
      * unfold text. destruct (body res) as [head|]; cbn -[analyzeSource]; [|done].
        destruct (ModuleFormat_eqb (analyzeSource head "" None) unknown);
          cbn -[analyzeSource]; [|done].
        rewrite fetch_eq. destruct (next_outcome _) as [r|]; cbn -[analyzeSource];
          [|by rewrite <- app_assoc].
        destruct (ok r); cbn -[analyzeSource]; [|by rewrite <- app_assoc].
        destruct (body r); cbn -[analyzeSource]; by rewrite <- app_assoc.
      * unfold text. by destruct (body res).
    + destruct (status res =? 206)%Z eqn:H206; cbn -[analyzeSource]; [|done].
      apply Z.eqb_eq in H206. unfold ok in Hok. rewrite H206 in Hok. done.
  - intros res source Hmiss Hnext Hok Hst Hbody. unfold detectModuleFormat. rewrite Hmiss.
    unfold catch, andThen, fetchWithTimeout. rewrite fetch_eq, Hnext.
    cbn -[analyzeSource]. rewrite Hok. apply Z.eqb_neq in Hst. rewrite Hst.
    cbn -[analyzeSource]. unfold text. rewrite Hbody. cbn -[analyzeSource slice_first slice_last].
    split; [done|]. apply lookup_insert_eq.
Qed.

(** ** Layout assembly *)

Lemma is_prefix_app sep rest : is_prefix sep (sep ++ rest) = true.
Proof. induction sep as [|c sep IH]; [done|]. cbn. by rewrite Ascii.eqb_refl. Qed.

(** Whether a text starts with [sep] depends on as many characters as
    [sep] has. *)
Lemma is_prefix_window sep u v :
  (length sep <= length u)%nat → is_prefix sep (u ++ v) = is_prefix sep u.
Proof.
  revert u. induction sep as [|c sep IH]; intros [|d u] Hlen; cbn in *; try done; [lia|].
  destruct (Ascii.eqb c d); [|done]. apply IH. lia.
Qed.

Lemma split_chars_no_occurrence sep piece s :
  includes_chars sep s = false → split_chars sep 0 piece s = [(rev piece ++ s)%list].
Proof.
  revert piece. induction s as [|c s IH]; intros piece; cbn [includes_chars split_chars].
  - by rewrite app_nil_r.
  - intros [Hp Hs]%orb_false_iff. rewrite Hp, IH by done. cbn [rev].
    by rewrite <- app_assoc.
Qed.

Lemma split_chars_skip sep piece u s :
  split_chars sep (length u) piece (u ++ s) = split_chars sep 0 piece s.
Proof.
  induction u as [|c u IH]; [done|]. cbn [length app split_chars]. exact IH.
Qed.

Lemma split_chars_first_occurrence sep pre post piece :
  sep ≠ [] →
  includes_chars sep (pre ++ removelast sep) = false →
  split_chars sep 0 piece (pre ++ sep ++ post)
  = (rev piece ++ pre)%list :: split_chars sep 0 [] post.
Proof.
  intros Hne. revert piece. induction pre as [|c pre IH]; intros piece Hfirst.
  - destruct sep as [|c sep]; [done|]. cbn [app]. rewrite app_nil_r.
    cbn [split_chars].
    change (c :: (sep ++ post)%list) with ((c :: sep) ++ post)%list.
    rewrite is_prefix_app. f_equal.
    replace (length (c :: sep) - 1)%nat with (length sep) by (cbn [length]; lia).
    apply split_chars_skip.
  - cbn [app includes_chars] in Hfirst. apply orb_false_iff in Hfirst as [Hp Hs].
    cbn [app split_chars].
    assert (is_prefix sep (c :: pre ++ sep ++ post) = false) as ->.
    { rewrite (app_removelast_last "a"%char Hne) at 2.
      rewrite <- app_assoc.
      change (c :: (pre ++ removelast sep ++ [List.last sep "a"%char] ++ post)%list)
        with ((c :: pre) ++ removelast sep ++ [List.last sep "a"%char] ++ post)%list.
      rewrite (app_assoc (c :: pre)).
      rewrite is_prefix_window; [done|].
      rewrite length_app. cbn [length].
      rewrite (app_removelast_last "a"%char Hne) at 1. rewrite length_app. cbn [length].
      lia. }
    rewrite IH by done. cbn [rev]. by rewrite <- app_assoc.
Qed.

Lemma split_chars_not_nil sep skip piece s : split_chars sep skip piece s ≠ [].
Proof.
  revert skip piece. induction s as [|c s IH]; intros skip piece; cbn; [done|].
  destruct skip; [|apply IH]. destruct (is_prefix sep (c :: s)); [done|apply IH].
Qed.

Lemma includes_chars_nil_hay sep : sep ≠ [] → includes_chars sep [] = false.
Proof. by destruct sep. Qed.

(** The early return of [applyLayoutSection] is a shortcut: joining the
    pieces of a template without the marker gives the template. *)
Lemma applyLayoutSection_join template marker content :
  applyLayoutSection template marker content
  = Array_join (trim content) (split ("<!-- " ++ marker ++ " -->") template).
Proof.
  unfold applyLayoutSection, includes, split.
  destruct (includes_chars _ _) eqn:E; [done|]. cbn [negb].
  rewrite split_chars_no_occurrence by done. cbn [rev app map Array_join].
  by rewrite string_of_list_ascii_of_string.
Qed.

(** X23.  [applyLayoutSection] returns a template without the marker
    comment as it is, and in a template that has it, it replaces the first
    marker comment by the trimmed content and goes on in the same way with
    what follows that marker. *)
Theorem applyLayoutSection_replaces_markers marker content :
  (∀ template,
     includes template ("<!-- " ++ marker ++ " -->") = false →
     applyLayoutSection template marker content = template)
  ∧ (∀ pre post,
       includes (pre ++ "<!-- " ++ marker ++ " --") ("<!-- " ++ marker ++ " -->") = false →
       applyLayoutSection (pre ++ ("<!-- " ++ marker ++ " -->") ++ post) marker content
       = pre ++ trim content ++ applyLayoutSection post marker content).
Proof.
  split.
  - intros template H. unfold applyLayoutSection. by rewrite H.
  - intros pre post Hfirst. rewrite !applyLayoutSection_join. unfold split.
    set (sep := list_ascii_of_string ("<!-- " ++ marker ++ " -->")).
    assert (sep ≠ []) as Hne by done.
    assert (removelast sep = list_ascii_of_string ("<!-- " ++ marker ++ " --")) as Hrl.
    { unfold sep. rewrite !list_ascii_of_string_app.
      rewrite removelast_app by (by intros [_ ?]%app_eq_nil).
      by rewrite removelast_app by done. }
    rewrite (list_ascii_of_string_app pre),
      (list_ascii_of_string_app ("<!-- " ++ marker ++ " -->") post). fold sep.
    rewrite split_chars_first_occurrence; [|done|].
    + cbn [rev app map]. rewrite string_of_list_ascii_of_string.
      destruct (split_chars sep 0 [] (list_ascii_of_string post)) as [|p ps] eqn:E;
        [by apply split_chars_not_nil in E|].
      by cbn [map Array_join].
    + rewrite Hrl. unfold includes in Hfirst.
      by rewrite (list_ascii_of_string_app pre) in Hfirst.
Qed.

(** ** The hidden state of the performance panel *)

(** X27.  Of the two states of the performance panel only the hidden one is
    remembered.  What [readPerfHidden] reads after [persistPerfHidden] is
    [true] when the panel was hidden, persistence is on and storage can be
    used, and nothing otherwise: showing the panel removes the stored flag
    rather than storing [false].  Every other key of the storage is left as
    it was. *)
Theorem perf_hidden_round_trip persist hidden_ w :
  ShellUi.readPerfHidden persist (ShellUi.persistPerfHidden persist hidden_ w)
  = match localStorage w with
    | Some _ => if persist && hidden_ then Some true else None
    | None => None
    end
  ∧ (∀ key,
       key ≠ ShellUi.PERF_HIDDEN_KEY →
       localStorage (ShellUi.persistPerfHidden persist hidden_ w)
         ≫= (fun store => store !! key)
       = localStorage w ≫= (fun store => store !! key)).
Proof.
  unfold ShellUi.readPerfHidden, ShellUi.persistPerfHidden.
  destruct persist; cbn [negb andb]; [|by destruct (localStorage w)].
  destruct w as [? ? ? ? ? ? ? ? ? ? [store|] ? ? ? ? ? ? ? ? ? ? ? ? ? ?];
    cbn [localStorage]; [|done].
  destruct hidden_; cbn [set_localStorage localStorage mbind option_bind].
  - rewrite lookup_insert_eq. split; [done|]. intros key Hkey.
    by rewrite lookup_insert_ne.
  - rewrite lookup_delete_eq. split; [done|]. intros key Hkey.
    by rewrite lookup_delete_ne.
Qed.

End RootConfig.

(** * The statements on the sample environment *)

(** C4 on a page whose toggle request is answered with the single disabled
    name [@org/catalog]. *)
Lemma disabled_catalog_is_short_circuited_witness :
  (getServerToggleState [] Sample.JSON_parse Sample.localeCompare Sample.toggled_page).1
  = Resolved {| disabled := ["@org/catalog"]; disabledMode := None |}
  ∧ runtimeDisabledApps
      (onServerToggle [] Sample.JSON_stringify Sample.allApplications []
         {| disabled := ["@org/catalog"]; disabledMode := None |} fresh_page)
    = ["@org/catalog"].
Proof.
  pose proof
    (disabled_catalog_is_short_circuited [] false true true
       Sample.JSON_parse Sample.JSON_stringify Sample.localeCompare
       Sample.allApplications Sample.app_code Sample.toggled_page
       {| status := 200; opaque := false;
          body := Some (Sample.JSON_stringify
                          (JObj [("disabled", JArr [JStr "@org/catalog"])])) |}
       (Sample.JSON_stringify (JObj [("disabled", JArr [JStr "@org/catalog"])]))
       eq_refl eq_refl eq_refl eq_refl eq_refl) as H.
  split; [exact (proj1 H) | exact (proj1 (proj1 (proj2 H) fresh_page))].
Defined.

(** C5 on a fresh page: the catalog stays reachable, the profile does not,
    and a storage event, a broadcast message and a second check follow. *)
Lemma divergence_reloads_exactly_once_witness :
  reloads
    (deliver_all [] Sample.JSON_parse Sample.JSON_stringify Sample.allApplications
       [StorageEvent (Some "mfe-disabled");
        BroadcastMessage (Some (JObj [("type", JStr "mfe-toggle")]));
        RecheckSettled Sample.two_apps_snapshot [("@org/catalog", true)]
          {| disabled := []; disabledMode := None |}]
       (onAvailabilityChecked [] Sample.JSON_parse Sample.JSON_stringify
          Sample.allApplications (Some Sample.two_apps_snapshot)
          [("@org/catalog", true); ("@org/profile-vue", false)]
          {| disabled := []; disabledMode := None |} fresh_page))
  = 1%nat.
Proof.
  exact (proj2 (proj2
    (divergence_reloads_exactly_once [] Sample.JSON_parse Sample.JSON_stringify
       Sample.allApplications "@org/catalog" "@org/profile-vue" Sample.two_apps_snapshot
       [("@org/catalog", true); ("@org/profile-vue", false)]
       {| disabled := []; disabledMode := None |} fresh_page
       [StorageEvent (Some "mfe-disabled");
        BroadcastMessage (Some (JObj [("type", JStr "mfe-toggle")]));
        RecheckSettled Sample.two_apps_snapshot [("@org/catalog", true)]
          {| disabled := []; disabledMode := None |}]
       eq_refl eq_refl eq_refl eq_refl eq_refl))).
Defined.

Lemma commented_preamble_ok : preamble_ok Sample.commented_preamble.
Proof. unfold preamble_ok. cbn. repeat constructor. Defined.

(** C6 on a development page whose probe returns a commented bundle. *)
Lemma system_register_detected_by_probe_alone_witness :
  (detectModuleFormat true Sample.catalogUrl Sample.registration_page).1 = Resolved system
  ∧ requests (detectModuleFormat true Sample.catalogUrl Sample.registration_page).2
    = [probeRequest true Sample.catalogUrl Sample.registration_page].
Proof.
  pose proof
    (system_register_detected_by_probe_alone true Sample.catalogUrl Sample.registration_page
       {| status := 206; opaque := false; body := Some Sample.registration_text |}
       Sample.commented_preamble (list_ascii_of_string "[],function(){});")
       commented_preamble_ok eq_refl eq_refl eq_refl eq_refl) as H.
  split; [exact (proj1 H) | exact (proj1 (proj2 H))].
Defined.

(** C7 (as amended) on a bundle whose only marker is its trailing export. *)
Lemma esm_detected_after_one_full_fetch_witness :
  (detectModuleFormat false Sample.catalogUrl Sample.trailing_export_page).1 = Resolved esm
  ∧ requests (detectModuleFormat false Sample.catalogUrl Sample.trailing_export_page).2
    = [probeRequest false Sample.catalogUrl Sample.trailing_export_page;
       fullRequest false Sample.catalogUrl Sample.trailing_export_page].
Proof.
  pose proof
    (esm_detected_after_one_full_fetch false Sample.catalogUrl Sample.trailing_export_page
       {| status := 206; opaque := false;
          body := Some (slice_first 8192 Sample.esm_with_trailing_export) |}
       {| status := 200; opaque := false; body := Some Sample.esm_with_trailing_export |}
       Sample.esm_with_trailing_export
       eq_refl eq_refl eq_refl eq_refl eq_refl eq_refl eq_refl eq_refl eq_refl eq_refl
       eq_refl) as H.
  split; [exact (proj1 H) | exact (proj1 (proj2 H))].
Defined.

(** C2 as stated fails: after a probe that failed, the first call returned
    [unknown] having stored nothing, and the second call sends a second
    request and returns another value. *)
Lemma detect_again_after_failed_probe :
  (detectModuleFormat false Sample.catalogUrl Sample.flaky_page).1 = Resolved unknown
  ∧ length (requests (detectModuleFormat false Sample.catalogUrl Sample.flaky_page).2)
    = 1%nat
  ∧ (detectModuleFormat false Sample.catalogUrl
       (detectModuleFormat false Sample.catalogUrl Sample.flaky_page).2).1
    = Resolved system
  ∧ length (requests
              (detectModuleFormat false Sample.catalogUrl
                 (detectModuleFormat false Sample.catalogUrl Sample.flaky_page).2).2)
    = 2%nat.
Proof. vm_compute. repeat split. Qed.

(** C7 as stated fails: the first 8 KiB hold neither the registration
    preamble nor the universal-module token triple, the tail of the body
    holds an export brace, and yet no full-body request is sent, because
    the head starts with an import statement. *)
Lemma leading_import_needs_no_full_fetch :
  hasSystemRegister (slice_first 8192 Sample.esm_with_leading_import) = false
  ∧ hasUmdWrapper (slice_first 8192 Sample.esm_with_leading_import) = false
  ∧ includes (slice_last 4096 Sample.esm_with_leading_import) "export{" = true
  ∧ (detectModuleFormat false Sample.catalogUrl Sample.leading_import_page).1
    = Resolved esm
  ∧ requests (detectModuleFormat false Sample.catalogUrl Sample.leading_import_page).2
    = [probeRequest false Sample.catalogUrl Sample.leading_import_page].
Proof. vm_compute. repeat split. Qed.

(** C8 as stated fails: a 2xx answer whose [disabled] array has a
    non-string entry is a malformed shape, and yet the state is not the
    empty one, the string entry beside the number being kept. *)
Lemma toggle_state_keeps_string_entries :
  (getServerToggleState [] Sample.JSON_parse Sample.localeCompare
     (set_net [Sample.answer 200
                 (Sample.JSON_stringify
                    (JObj [("disabled", JArr [JNum 7; JStr "@org/catalog"])]))]
        fresh_page)).1
  = Resolved {| disabled := ["@org/catalog"]; disabledMode := None |}.
Proof. vm_compute. reflexivity. Qed.

(** Two calls in the same millisecond share one script element. *)
Example two_callers_one_script :
  let run := run_loader true [CallLoad "//localhost:9002/profile-vue.js";
                              CallLoad "//localhost:9002/profile-vue.js"] fresh_page in
  run.1 = [0%nat; 0%nat] ∧ length (headScripts run.2) = 1%nat.
Proof. vm_compute. split; reflexivity. Qed.

(** * Further statements on sample values *)

Ltac by_decide := apply (bool_decide_unpack _); vm_compute; exact I.

(** X3 on a fresh page: the snapshot is read back at the age of 30000 ms
    and no longer one millisecond later. *)
Lemma availability_cache_round_trip_witness :
  let doc := cache_document 0 ["@org/catalog"] ["@org/profile-vue"] None in
  let written :=
    writeAvailabilityCache Sample.JSON_stringify ["@org/catalog"] ["@org/profile-vue"] None
      fresh_page in
  readAvailabilityCache (Fixture.parse_only doc) Sample.localeCompare
    (set_clock 30000 written)
  = Some {| snap_available := ["@org/catalog"];
            snap_disabled := ["@org/profile-vue"];
            snap_disabledMode := None |}
  ∧ readAvailabilityCache (Fixture.parse_only doc) Sample.localeCompare
      (set_clock 30001 written)
    = None.
Proof.
  intros doc written.
  assert (Sample.JSON_stringify doc ≠ "") as Hne by (vm_compute; discriminate).
  split.
  - exact (proj1 (availability_cache_round_trip (Fixture.parse_only doc)
                    Sample.JSON_stringify Sample.localeCompare
                    ["@org/catalog"] ["@org/profile-vue"] None fresh_page ∅ 30000
                    eq_refl Hne eq_refl)
             ltac:(vm_compute; discriminate)).
  - exact (proj2 (availability_cache_round_trip (Fixture.parse_only doc)
                    Sample.JSON_stringify Sample.localeCompare
                    ["@org/catalog"] ["@org/profile-vue"] None fresh_page ∅ 30001
                    eq_refl Hne eq_refl)
             ltac:(vm_compute; reflexivity)).
Defined.

(** The sample comparison orders the keys. *)
Lemma sample_key_le_total a b :
  key_le Sample.localeCompare a b ∨ key_le Sample.localeCompare b a.
Proof.
  unfold key_le, Sample.localeCompare. rewrite (String.compare_antisym a b).
  destruct (String.compare b a); cbn; lia.
Qed.

Lemma sample_key_le_trans a b c :
  key_le Sample.localeCompare a b → key_le Sample.localeCompare b c →
  key_le Sample.localeCompare a c.
Proof.
  unfold key_le, Sample.localeCompare.
  destruct (String.compare a b) eqn:Eab; [| |lia].
  { apply String.compare_eq_iff in Eab as ->. tauto. }
  destruct (String.compare b c) eqn:Ebc; [| |lia].
  { apply String.compare_eq_iff in Ebc as ->. rewrite Eab. tauto. }
  intros _ _.
  apply OrderedTypeEx.String_as_OT.cmp_lt in Eab, Ebc.
  pose proof (OrderedTypeEx.String_as_OT.lt_trans _ _ _ Eab Ebc) as Hac.
  apply OrderedTypeEx.String_as_OT.cmp_lt in Hac.
  unfold OrderedTypeEx.String_as_OT.cmp in Hac. rewrite Hac. lia.
Qed.

(** X4 on a configuration whose entries come out of order: its normal form
    lists the two indices by value and then the names in the order of the
    comparison, without the entry that is no mode, and normalising it again
    changes nothing. *)
Lemma normalizeDisabledModeConfig_idempotent_witness :
  normalizeDisabledModeConfig Sample.localeCompare (Some Fixture.unsorted_config)
  = Some Fixture.sorted_config
  ∧ normalizeDisabledModeConfig Sample.localeCompare
      (Some (ModeConfig_value Fixture.sorted_config))
    = Some Fixture.sorted_config.
Proof.
  assert (normalizeDisabledModeConfig Sample.localeCompare (Some Fixture.unsorted_config)
          = Some Fixture.sorted_config) as H by (vm_compute; reflexivity).
  split; [exact H|].
  exact (proj1 (normalizeDisabledModeConfig_idempotent Sample.localeCompare
                  sample_key_le_total sample_key_le_trans
                  (Some Fixture.unsorted_config) Fixture.sorted_config H)).
Defined.

(** X5 on two snapshots that list the same names in another order. *)
Lemma no_divergence_iff_same_snapshot_witness :
  diverged Sample.JSON_stringify
    {| snap_available := ["@org/catalog"; "@org/profile-vue"];
       snap_disabled := ["@org/header-react"];
       snap_disabledMode := None |}
    ["@org/profile-vue"; "@org/catalog"] ["@org/header-react"] None
  = false.
Proof.
  apply (no_divergence_iff_same_snapshot Sample.JSON_stringify
           {| snap_available := ["@org/catalog"; "@org/profile-vue"];
              snap_disabled := ["@org/header-react"];
              snap_disabledMode := None |}
           ["@org/profile-vue"; "@org/catalog"] ["@org/header-react"] None);
    cbn [snap_available snap_disabled snap_disabledMode].
  - by_decide.
  - by_decide.
  - by_decide.
  - by_decide.
  - split; [|split; [|reflexivity]]; intros x; rewrite !elem_of_cons, !elem_of_nil; tauto.
Defined.

(** X13 on a fresh page. *)
Lemma written_mode_is_read_back_witness :
  let read :=
    ShellUi.readDisabledModeConfig
      (Fixture.parse_only
         (ShellUi.stored_value (Some placeholder) [("@org/catalog", hide)]))
      (ShellUi.writeDisabledModeConfig Sample.JSON_stringify Fixture.shell_catalog_hidden
         fresh_page) in
  ShellUi.default read = Some placeholder
  ∧ ShellUi.apps read = [("@org/catalog", hide)].
Proof.
  intros read.
  pose proof
    (written_mode_is_read_back
       (Fixture.parse_only
          (ShellUi.stored_value (Some placeholder) [("@org/catalog", hide)]))
       Sample.JSON_stringify Fixture.shell_catalog_hidden fresh_page ∅
       eq_refl ltac:(by_decide) ltac:(vm_compute; discriminate) eq_refl) as H.
  split; [exact (proj1 H) | exact (proj2 (proj2 H) eq_refl)].
Defined.

(** X14 on a fresh page, for the catalog and the mode [placeholder]: the
    catalog resolves to the chosen mode and the profile application to what
    it resolved to before. *)
Lemma chosen_mode_takes_effect_witness :
  let parse :=
    Fixture.parse_only
      (ShellUi.stored_value (Some hide) [("@org/catalog", placeholder)]) in
  let w' :=
    ShellUi.applyIncomingDisabledModeForApp parse Sample.JSON_stringify
      (Some (JStr "@org/catalog")) (Some (JStr "placeholder")) fresh_page in
  ShellUi.resolveDisabledMode parse "@org/catalog" None w' = placeholder
  ∧ ShellUi.resolveDisabledMode parse "@org/profile-vue" None w'
    = ShellUi.resolveDisabledMode parse "@org/profile-vue" None fresh_page.
Proof.
  intros parse w'.
  pose proof
    (chosen_mode_takes_effect parse Sample.JSON_stringify
       "@org/catalog" placeholder fresh_page ∅
       eq_refl ltac:(discriminate) eq_refl eq_refl
       ltac:(vm_compute; discriminate) ltac:(vm_compute; reflexivity)) as H.
  split; [exact (proj1 H) | exact (proj2 H "@org/profile-vue" ltac:(discriminate))].
Defined.

(** X16 on the children of a card. *)
Lemma show_restores_hidden_content_witness :
  ShellUi.showAppContent (ShellUi.hideAppContent Fixture.card_children)
  = Fixture.card_children
  ∧ ShellUi.showAppContent
      (ShellUi.hideAppContent (ShellUi.hideAppContent Fixture.card_children))
    = Fixture.card_children
  ∧ ShellUi.hideAppContent (ShellUi.hideAppContent Fixture.card_children)
    = ShellUi.hideAppContent Fixture.card_children.
Proof.
  apply (show_restores_hidden_content Fixture.card_children).
  unfold Fixture.card_children. repeat constructor.
Defined.

(** X17 on the link to the React playground. *)
Lemma unlock_restores_link_witness :
  ShellUi.updateAuthLock Fixture.loginUrl false
    (ShellUi.updateAuthLock Fixture.loginUrl true Fixture.playground_link)
  = Fixture.playground_link
  ∧ ShellUi.updateAuthLock Fixture.loginUrl true
      (ShellUi.updateAuthLock Fixture.loginUrl true Fixture.playground_link)
    = ShellUi.updateAuthLock Fixture.loginUrl true Fixture.playground_link
  ∧ ShellUi.updateAuthLock Fixture.loginUrl true Fixture.playground_link !! "href"
    = Some (Fixture.loginUrl "/playground-react").
Proof.
  apply (unlock_restores_link Fixture.loginUrl Fixture.playground_link
           "@org/playground-react" "/playground-react");
    try (vm_compute; reflexivity).
  discriminate.
Defined.

(** The single key of the sample configuration is no array index. *)
Lemma catalog_hidden_key_order : own_key_order (mc_apps Fixture.catalog_hidden).
Proof.
  exists [], (mc_apps Fixture.catalog_hidden).
  split; [done|]. split; [apply Forall_nil_2|]. split; [apply SSorted_nil|].
  apply Forall_singleton. intros [n Hn]. vm_compute in Hn. discriminate.
Qed.

(** X20 on a fresh page, whose storage takes the write, and on a page whose
    storage is blocked. *)
Lemma shell_reads_the_published_mode_witness :
  let parse := Fixture.parse_only (ModeConfig_value Fixture.catalog_hidden) in
  ShellUi.readDisabledModeConfig parse
    (emitDisabledApps [] Sample.JSON_stringify [] [] (Some Fixture.catalog_hidden)
       fresh_page)
  = {| ShellUi.default := Some placeholder; ShellUi.apps := [("@org/catalog", hide)] |}
  ∧ ShellUi.readDisabledModeConfig parse
      (emitDisabledApps [] Sample.JSON_stringify [] [] (Some Fixture.catalog_hidden)
         Fixture.blocked_storage_page)
    = {| ShellUi.default := Some placeholder; ShellUi.apps := [("@org/catalog", hide)] |}.
Proof.
  intros parse. split.
  - exact (proj2 (proj1
      (shell_reads_the_published_mode [] parse Sample.JSON_stringify [] []
         Fixture.catalog_hidden fresh_page
         ltac:(by_decide) ltac:(by_decide) catalog_hidden_key_order
         ltac:(vm_compute; discriminate) eq_refl)
      ∅ eq_refl)).
  - exact (proj2 (proj1 (proj2
      (shell_reads_the_published_mode [] parse Sample.JSON_stringify [] []
         Fixture.catalog_hidden Fixture.blocked_storage_page
         ltac:(by_decide) ltac:(by_decide) catalog_hidden_key_order
         ltac:(vm_compute; discriminate) eq_refl))
      eq_refl)).
Defined.

(** X21 on a development page whose first script fails to load. *)
Lemma failed_umd_load_is_retried_witness :
  (loadApp true false true "@org/profile-vue" Fixture.failing_script_page).1
  = Resolved (createUnavailableApp "@org/profile-vue")
  ∧ (loadApp true false true "@org/profile-vue"
       (loadApp true false true "@org/profile-vue" Fixture.failing_script_page).2).1
    = Resolved (wrapped "@org/profile-vue" Fixture.profile_module).
Proof.
  pose proof
    (failed_umd_load_is_retried true false true "@org/profile-vue"
       "//localhost:9002/profile-vue.js" "profileVue" Fixture.failing_script_page
       [("profileVue", Fixture.profile_module)] [] Fixture.profile_module
       eq_refl eq_refl eq_refl eq_refl eq_refl) as H.
  split; [exact (proj1 H) | exact (proj1 (proj2 H))].
Defined.

(** X26 on a poller whose results all carry the build id 7. *)
Lemma auth_build_steady_id_never_reloads_witness :
  let parse := Fixture.parse_only Fixture.build_document in
  let start :=
    ({| lastBuildId := None; buildTimer := None; buildInFlight := true |}, fresh_page) in
  let signals :=
    [BuildSettled Fixture.build_answer; BuildTimer; BuildSettled Fixture.build_answer;
     BuildVisibility false] in
  guard (foldl (buildDeliver parse pretty) start signals).2 = (false, 0%nat)
  ∧ lastBuildId (foldl (buildDeliver parse pretty) start signals).1 = Some "7".
Proof.
  intros parse start signals.
  pose proof
    (auth_build_steady_id_never_reloads parse pretty "7" signals start
       (or_introl eq_refl)) as H.
  split; [apply H | vm_compute; reflexivity].
  unfold signals. cbn. repeat constructor; right; vm_compute; reflexivity.
Defined.

(** X6 on a fresh page, for the catalog, which is no name of
    [Object.prototype]: the promise resolves and the three performance
    entries are recorded. *)
Lemma loadApp_never_rejects_witness :
  ("@org/catalog" ∉ Object_prototype_keys)
  ∧ ∃ handle w',
      loadApp false true true "@org/catalog" fresh_page = (Resolved handle, w')
      ∧ marks w' = (marks fresh_page ++ load_entries "@org/catalog")%list.
Proof.
  assert ("@org/catalog" ∉ Object_prototype_keys) as H by by_decide.
  split; [exact H|].
  exact (loadApp_never_rejects false true true "@org/catalog" fresh_page H).
Defined.
